(** * wxauto4: text parsing, message records and the UI lock

    A shallow embedding of the parts of wxauto4 that its specification makes
    checkable statements about:

    - [PyStr]    Python [str] values as lists of code points, with the string
                 methods the sources call ([strip], [lstrip], [startswith],
                 [split], [in], ...);
    - [Regex]    a backtracking matcher for the fragment of [re] used by
                 [moment.py] and [sessionbox.py];
    - [Moments]  [_lang], [_split_like_names], [MomentComment.from_text];
    - [Session]  [SessionElement.texts/name/unread_count] and the matching
                 loop of [SessionBox.switch_chat];
    - [Msg]      [Message]: the public field view, [match], [__eq__],
                 [__hash__];
    - [Lock]     [LockManager.acquire], [acquire_async] and [uilock] as an
                 interleaving semantics over semaphores and re-entrant locks;
    - [CommentFlow] [Moment.Comment] and [MomentCommentDialog.send] over an
                 abstract accessibility tree, with the issued UI actions
                 recorded in a trace;
    - [PyText], [Base], [SessionItems], [MomentText], [MomentLike],
                 [MomentParse], [MomentItems], [Errors]: more of the same
                 files and of what they call: [truncate_string],
                 [BaseMessage.__init__], [_menu_option_text], the [repr] of
                 session elements, [_is_time_line],
                 [MomentItem._ensure_parsed], [MomentList.get_items],
                 [Moment.Like], and the exceptions of [exceptions.py]. *)

From Stdlib Require Import String Ascii.
From Stdlib Require Import List NArith ZArith Bool Arith Lia.
Import ListNotations.

Set Implicit Arguments.

(* ===================================================================== *)
(** * Python strings *)
(* ===================================================================== *)

Module PyStr.

(** A Python [str] is a sequence of Unicode code points. *)
Definition char := N.
Definition ustr := list char.

(** String literals of this file are UTF-8; [u] decodes one into its code
    points, so that [u "赞"] is the one-character string U+8D5E. *)
Fixpoint utf8_go (s : string) (pending : nat) (acc : N) : ustr :=
  match s with
  | EmptyString => []
  | String a s' =>
      let b := N_of_ascii a in
      match pending with
      | O =>
          if (b <? 128)%N then b :: utf8_go s' 0 0%N
          else if (b <? 224)%N then utf8_go s' 1 (b - 192)%N
          else if (b <? 240)%N then utf8_go s' 2 (b - 224)%N
          else utf8_go s' 3 (b - 240)%N
      | S O => (acc * 64 + (b - 128))%N :: utf8_go s' 0 0%N
      | S p => utf8_go s' p (acc * 64 + (b - 128))%N
      end
  end.

Definition u (s : string) : ustr := utf8_go s 0 0%N.

Definition ustr_eqb (a b : ustr) : bool :=
  if list_eq_dec N.eq_dec a b then true else false.

(** [str.isspace] for one character, which is also what [\s] matches in a
    [str] pattern and what [str.strip()] removes. *)
Definition isspace (c : char) : bool :=
  ((9 <=? c) && (c <=? 13) || (28 <=? c) && (c <=? 32)
   || (c =? 133) || (c =? 160) || (c =? 5760)
   || (8192 <=? c) && (c <=? 8202)
   || (c =? 8232) || (c =? 8233) || (c =? 8239) || (c =? 8287)
   || (c =? 12288))%N.

(** Unicode decimal digits (category Nd) come in runs of ten consecutive code
    points holding the values 0 to 9; the table lists the first code point of
    every run. *)
Definition digit_runs : list N :=
  [48; 1632; 1776; 1984; 2406; 2534; 2662; 2790; 2918; 3046; 3174; 3302;
   3430; 3558; 3664; 3792; 3872; 4160; 4240; 6112; 6160; 6470; 6608; 6784;
   6800; 6992; 7088; 7232; 7248; 42528; 43216; 43264; 43472; 43504; 43600;
   44016; 65296; 66720; 68912; 69734; 69872; 69942; 70096; 70384; 70736;
   70864; 71248; 71360; 71472; 71904; 72016; 72784; 73040; 73120; 92768;
   92864; 93008; 120782; 120792; 120802; 120812; 120822; 123200; 123632;
   125264; 130032]%N.

(** The value of a decimal digit, [None] for any other character. *)
Definition digit_value (c : char) : option N :=
  match find (fun s => (s <=? c) && (c <? s + 10))%N digit_runs with
  | Some s => Some (c - s)%N
  | None => None
  end.

(** [\d] of a [str] pattern. *)
Definition isdigit (c : char) : bool :=
  match digit_value c with Some _ => true | None => false end.

(** [int(s)] for a non-empty string of decimal digits; [None] stands for
    the [ValueError] raised otherwise. *)
Fixpoint int_go (s : ustr) (acc : N) : option N :=
  match s with
  | [] => Some acc
  | c :: s' =>
      match digit_value c with
      | Some d => int_go s' (acc * 10 + d)%N
      | None => None
      end
  end.

Definition int_of (s : ustr) : option N :=
  match s with
  | [] => None
  | _ => int_go s 0%N
  end.

Fixpoint dropWhile (p : char -> bool) (s : ustr) : ustr :=
  match s with
  | [] => []
  | c :: s' => if p c then dropWhile p s' else s
  end.

(** [s.lstrip()], [s.rstrip()], [s.strip()] *)
Definition lstrip (s : ustr) : ustr := dropWhile isspace s.
Definition rstrip (s : ustr) : ustr := rev (dropWhile isspace (rev s)).
Definition strip (s : ustr) : ustr := rstrip (lstrip s).

Definition mem (c : char) (cs : ustr) : bool := existsb (N.eqb c) cs.

(** [s.lstrip(chars)] *)
Definition lstrip_chars (chars : ustr) (s : ustr) : ustr :=
  dropWhile (fun c => mem c chars) s.

(** [s.startswith(p)] *)
Fixpoint startswith (p s : ustr) : bool :=
  match p, s with
  | [], _ => true
  | _ :: _, [] => false
  | a :: p', b :: s' => (a =? b)%N && startswith p' s'
  end.

(** [sub in s] *)
Fixpoint contains (sub s : ustr) : bool :=
  startswith sub s ||
  match s with
  | [] => false
  | _ :: s' => contains sub s'
  end.

(** [s.split(sep)] for a non-empty [sep]: cut at the occurrences of [sep],
    found from the left and not overlapping.  [skip] counts the characters
    of an occurrence still to be passed over, [cur] is the current piece,
    reversed. *)
Fixpoint split_go (sep s : ustr) (skip : nat) (cur : ustr) : list ustr :=
  match s with
  | [] => [rev cur]
  | c :: s' =>
      match skip with
      | S k => split_go sep s' k cur
      | O =>
          if startswith sep s
          then rev cur :: split_go sep s' (length sep - 1) []
          else split_go sep s' 0 (c :: cur)
      end
  end.

Definition split (sep s : ustr) : list ustr := split_go sep s 0 [].

(** [re.split] on a pattern that is a single character class. *)
Fixpoint split_class_go (p : char -> bool) (s : ustr) (cur : ustr) : list ustr :=
  match s with
  | [] => [rev cur]
  | c :: s' =>
      if p c then rev cur :: split_class_go p s' []
      else split_class_go p s' (c :: cur)
  end.

Definition split_class (p : char -> bool) (s : ustr) : list ustr :=
  split_class_go p s [].

(** Truthiness of a string. *)
Definition nonempty (s : ustr) : bool :=
  match s with [] => false | _ => true end.

(** [ [x.strip() for x in parts if x.strip()] ] *)
Definition strip_nonblank (parts : list ustr) : list ustr :=
  map strip (filter (fun x => nonempty (strip x)) parts).

Definition NL : char := 10%N.
Definition SPACE : char := 32%N.

End PyStr.

(* ===================================================================== *)
(** * Global parameters *)
(* ===================================================================== *)

Module Param.

(** The fields of [WxParam] that the modelled code reads.  [WxParam] is a
    class of mutable globals; every function below takes the current
    settings as an argument. *)
Record WxParam := mkWxParam {
  MESSAGE_HASH : bool;
  LANGUAGE : string;
  SEARCH_CHAT_TIMEOUT : Z
}.

End Param.

(* ===================================================================== *)
(** * Messages: [msgs/base.py] *)
(* ===================================================================== *)

Module Msg.
Import PyStr Param.

(** Attribute values.  [VObj] is a reference to some other object (the
    backing control, the parent chat box). *)
Inductive pyval :=
| VNone
| VInt (z : Z)
| VStr (s : ustr)
| VTuple (l : list Z)
| VObj (addr : nat).

Definition pyval_eq_dec (a b : pyval) : {a = b} + {a <> b}.
Proof.
  decide equality;
    try apply Z.eq_dec; try apply Nat.eq_dec;
    try (apply list_eq_dec; apply N.eq_dec);
    try (apply list_eq_dec; apply Z.eq_dec).
Defined.

(** [a == b] on attribute values. *)
Definition py_eq (a b : pyval) : bool :=
  if pyval_eq_dec a b then true else false.

(** A [Message] instance: its identity and its instance dictionary, in
    insertion order. *)
Record Message := mkMessage {
  addr : nat;
  __dict__ : list (string * pyval)
}.

Inductive result (A : Type) :=
| Ok (a : A)
| KeyError (key : string).
Arguments Ok {A} a.
Arguments KeyError {A} key.

Definition _EXCLUDE_FIELDS : list string :=
  ["control"; "parent"; "root"]%string.

Definition in_strs (k : string) (l : list string) : bool :=
  existsb (String.eqb k) l.

(** The test of the loop body of [_iter_public_items]: [true] when the pair
    is yielded. *)
Definition is_public (P : WxParam) (key : string) : bool :=
  if String.prefix "_" key || in_strs key _EXCLUDE_FIELDS then false
  else if String.eqb key "hash" && negb (MESSAGE_HASH P) then false
  else true.

Definition _iter_public_items (P : WxParam) (m : Message)
  : list (string * pyval) :=
  filter (fun kv => is_public P (fst kv)) (__dict__ m).

Definition __iter__ (P : WxParam) (m : Message) : list string :=
  map fst (_iter_public_items P m).

Definition __len__ (P : WxParam) (m : Message) : nat :=
  length (_iter_public_items P m).

Fixpoint first_value (item : string) (items : list (string * pyval))
  : option pyval :=
  match items with
  | [] => None
  | (key, value) :: rest =>
      if String.eqb key item then Some value else first_value item rest
  end.

Definition __getitem__ (P : WxParam) (m : Message) (item : string)
  : result pyval :=
  match first_value item (_iter_public_items P m) with
  | Some value => Ok value
  | None => KeyError item
  end.

(** The argument of [in]: a [str] or any other object. *)
Inductive pykey :=
| KStr (s : string)
| KOther.

Definition __contains__ (P : WxParam) (m : Message) (key : pykey) : bool :=
  match key with
  | KOther => false
  | KStr k => existsb (fun kv => String.eqb (fst kv) k) (_iter_public_items P m)
  end.

Definition keys (P : WxParam) (m : Message) : list string :=
  map fst (_iter_public_items P m).

Definition values (P : WxParam) (m : Message) : list pyval :=
  map snd (_iter_public_items P m).

Definition items (P : WxParam) (m : Message) : list (string * pyval) :=
  _iter_public_items P m.

Definition get (P : WxParam) (m : Message) (key : string) (default : pyval)
  : pyval :=
  match first_value key (_iter_public_items P m) with
  | Some value => value
  | None => default
  end.

(** A [dict] as its pairs in insertion order; [d[k] = v]. *)
Fixpoint dict_set (k : string) (v : pyval) (d : list (string * pyval))
  : list (string * pyval) :=
  match d with
  | [] => [(k, v)]
  | (k', v') :: d' =>
      if String.eqb k' k then (k', v) :: d' else (k', v') :: dict_set k v d'
  end.

(** [dict(pairs)] *)
Definition dict_of (pairs : list (string * pyval)) : list (string * pyval) :=
  fold_left (fun d kv => dict_set (fst kv) (snd kv) d) pairs [].

(** [d.get(k)], with its default [None]. *)
Definition dict_get (k : string) (d : list (string * pyval)) : pyval :=
  match first_value k d with
  | Some v => v
  | None => VNone
  end.

Definition to_dict (P : WxParam) (m : Message) : list (string * pyval) :=
  dict_of (_iter_public_items P m).

(** [match], called with keyword arguments, which arrive as the [dict]
    [conditions]. *)
Definition match_ (P : WxParam) (m : Message)
  (conditions : list (string * pyval)) : bool :=
  let data := to_dict P m in
  forallb (fun kv => py_eq (dict_get (fst kv) data) (snd kv)) conditions.

(** [getattr(self, name, None)]: [Message] itself defines no class attribute
    called [id] or [hash], so the instance dictionary decides. *)
Definition getattr (m : Message) (name : string) : pyval :=
  match first_value name (__dict__ m) with
  | Some v => v
  | None => VNone
  end.

Definition is_None (v : pyval) : bool :=
  match v with VNone => true | _ => false end.

(** [self is other] *)
Definition is_ (a b : Message) : bool := Nat.eqb (addr a) (addr b).

(** [__eq__] on two [Message] instances (for any other right operand it
    returns [NotImplemented]). *)
Definition __eq__ (P : WxParam) (self other : Message) : bool :=
  let self_id := getattr self "id" in
  let other_id := getattr other "id" in
  if negb (is_None self_id) && negb (is_None other_id) then
    py_eq self_id other_id
  else if MESSAGE_HASH P then
    py_eq (getattr self "hash") (getattr other "hash")
  else is_ self other.

Section Hash.

(** The builtin [hash] on attribute values, and [object.__hash__], which is
    computed from the identity of the instance. *)
Variable hash : pyval -> Z.
Variable object_hash : nat -> Z.

Definition __hash__ (P : WxParam) (self : Message) : Z :=
  let msg_id := getattr self "id" in
  if negb (is_None msg_id) then hash msg_id
  else if MESSAGE_HASH P then hash (getattr self "hash")
  else object_hash (addr self).

End Hash.

(** An instance dictionary has every key once. *)
Definition wf_message (m : Message) : Prop :=
  NoDup (map fst (__dict__ m)).

End Msg.

(* ===================================================================== *)
(** * Regular expressions *)
(* ===================================================================== *)

Module Regex.
Import PyStr.

(** The fragment of [re] syntax that the sources use.  Quantifiers are only
    ever applied to a single character class there. *)
Inductive regex :=
| Chr (p : char -> bool)          (* one character of a class *)
| Lit (s : ustr)                  (* a literal string *)
| Seq (r1 r2 : regex)
| Opt (r : regex)                 (* (?:r)?  greedy *)
| Star (p : char -> bool)         (* [p]*    greedy *)
| Plus (p : char -> bool)         (* [p]+    greedy *)
| PlusLazy (p : char -> bool)     (* [p]+?   lazy *)
| Group (name : string) (r : regex)
| Eos.                            (* $ *)

(** The groups that took part in a match, latest first. *)
Definition groups := list (string * ustr).

(** [k] is what remains to be matched after the quantifier; the longest run
    is tried first. *)
Fixpoint star_greedy (p : char -> bool) (s : ustr)
  (k : ustr -> option groups) : option groups :=
  match s with
  | [] => k []
  | c :: s' =>
      if p c then
        match star_greedy p s' k with
        | Some g => Some g
        | None => k s
        end
      else k s
  end.

(** The shortest run is tried first. *)
Fixpoint star_lazy (p : char -> bool) (s : ustr)
  (k : ustr -> option groups) : option groups :=
  match k s with
  | Some g => Some g
  | None =>
      match s with
      | [] => None
      | c :: s' => if p c then star_lazy p s' k else None
      end
  end.

(** A backtracking matcher in continuation-passing style: [rmatch r s g k]
    matches [r] at the front of [s], then hands the rest of the input and the
    groups to [k]; when [k] fails the next alternative of [r] is tried, in
    the order in which [re] tries them. *)
Fixpoint rmatch (r : regex) (s : ustr) (g : groups)
  (k : ustr -> groups -> option groups) : option groups :=
  match r with
  | Chr p =>
      match s with
      | c :: s' => if p c then k s' g else None
      | [] => None
      end
  | Lit l => if startswith l s then k (skipn (length l) s) g else None
  | Seq r1 r2 => rmatch r1 s g (fun s1 g1 => rmatch r2 s1 g1 k)
  | Opt r1 =>
      match rmatch r1 s g k with
      | Some g' => Some g'
      | None => k s g
      end
  | Star p => star_greedy p s (fun s' => k s' g)
  | Plus p =>
      match s with
      | c :: s' => if p c then star_greedy p s' (fun s'' => k s'' g) else None
      | [] => None
      end
  | PlusLazy p =>
      match s with
      | c :: s' => if p c then star_lazy p s' (fun s'' => k s'' g) else None
      | [] => None
      end
  | Group name r1 =>
      rmatch r1 s g
        (fun s1 g1 => k s1 ((name, firstn (length s - length s1) s) :: g1))
  | Eos =>
      match s with
      | [] => k s g
      | [c] => if (c =? NL)%N then k s g else None
      | _ => None
      end
  end.

(** [re.match(r, s)]: the match is anchored at the start of [s]. *)
Definition re_match (r : regex) (s : ustr) : option groups :=
  rmatch r s [] (fun _ g => Some g).

(** [re.search(r, s)]: the leftmost position at which [r] matches. *)
Fixpoint re_search (r : regex) (s : ustr) : option groups :=
  match re_match r s with
  | Some g => Some g
  | None =>
      match s with
      | [] => None
      | _ :: s' => re_search r s'
      end
  end.

(** [m.group(name)]; [None] when the group took no part in the match. *)
Fixpoint group (m : groups) (name : string) : option ustr :=
  match m with
  | [] => None
  | (n, v) :: m' => if String.eqb n name then Some v else group m' name
  end.

End Regex.

(* ===================================================================== *)
(** * Moments: [moment.py] *)
(* ===================================================================== *)

Module Moments.
Import PyStr Param Regex.

(** [wxauto4.languages.MOMENTS] is imported by [moment.py] and is not part
    of the sources at hand; the functions below take the table as an
    argument.  It maps a key to the texts per display language. *)
Definition lang_table := list (ustr * list (string * ustr)).

Fixpoint lookup (A B : Type) (eqb : A -> A -> bool) (k : A) (d : list (A * B))
  : option B :=
  match d with
  | [] => None
  | (k', v) :: d' => if eqb k' k then Some v else lookup eqb k d'
  end.

Definition _lang (MOMENTS : lang_table) (P : WxParam) (key : ustr) : ustr :=
  match lookup ustr_eqb key MOMENTS with
  | None => key
  | Some [] => key
  | Some data =>
      match lookup String.eqb (LANGUAGE P) data with
      | Some text => text
      | None =>
          match lookup String.eqb "cn"%string data with
          | Some text => text
          | None => key
          end
      end
  end.

Definition _split_like_names (MOMENTS : lang_table) (P : WxParam)
  (text : ustr) : list ustr :=
  if negb (nonempty text) then []
  else
    let like_prefix := _lang MOMENTS P (u "赞") in
    let text := strip text in
    let text :=
      if startswith like_prefix text
      then lstrip_chars (u "：: ") (skipn (length like_prefix) text)
      else text in
    let sep := _lang MOMENTS P (u "分隔符_点赞") in
    if nonempty sep then strip_nonblank (split sep text)
    else strip_nonblank (split_class (fun c => mem c (u ",:，")) text).

Record MomentComment := mkMomentComment {
  author : ustr;
  content : ustr;
  reply_to : option ustr;
  raw : ustr
}.

Definition is_colon (c : char) : bool := mem c (u "：:").
Definition not_colon (c : char) : bool := negb (is_colon c).
Definition not_newline (c : char) : bool := negb (c =? NL)%N.

(** The pattern of [from_text].  In the order of the source: the group
    author, one or more characters other than a colon, lazy; white space;
    optionally the marker 回复, white space, the group reply (as author) and
    white space; a colon, full-width or not; the group content, any
    characters up to the end of the line; the end of the text.  The leading
    anchor of the source pattern is implied by [re.match]. *)
Definition comment_re : regex :=
  Seq (Group "author" (PlusLazy not_colon))
 (Seq (Star isspace)
 (Seq (Opt (Seq (Lit (u "回复"))
           (Seq (Star isspace)
           (Seq (Group "reply" (PlusLazy not_colon))
                (Star isspace)))))
 (Seq (Chr is_colon)
 (Seq (Group "content" (Star not_newline))
      Eos)))).

Definition group_or_empty (m : groups) (name : string) : ustr :=
  match group m name with Some v => v | None => [] end.

Definition from_text (text : ustr) : MomentComment :=
  let text := strip text in
  match re_match comment_re text with
  | Some m =>
      let author := strip (group_or_empty m "author") in
      let reply_to :=
        match group m "reply" with
        | Some r => if nonempty r then Some (strip r) else Some r
        | None => None
        end in
      let content := strip (group_or_empty m "content") in
      mkMomentComment author content reply_to text
  | None => mkMomentComment [] (strip text) None text
  end.

End Moments.

(* ===================================================================== *)
(** * Session list: [ui/sessionbox.py] *)
(* ===================================================================== *)

Module Session.
Import PyStr Param Regex.

(** [SessionElement.texts], from the [Name] of the control. *)
Definition texts (content : ustr) : list ustr :=
  filter (fun line => nonempty line && nonempty (strip line))
         (split [NL] content).

(** [SessionElement.name] *)
Definition name (content : ustr) : ustr :=
  match texts content with
  | line :: _ => line
  | [] => []
  end.

(** [\[(\d+)条\]] *)
Definition unread_pattern : regex :=
  Seq (Chr (N.eqb 91)) (Seq (Group "1" (Plus isdigit)) (Lit (u "条]"))).

(** The loop of [unread_count] over the lines still to be scanned; [None]
    stands for an exception raised by [int]. *)
Fixpoint unread_scan (lines : list ustr) : option N :=
  match lines with
  | [] => Some 0%N
  | text :: rest =>
      match re_search unread_pattern text with
      | Some m =>
          match group m "1" with
          | Some digits => int_of digits
          | None => None
          end
      | None => unread_scan rest
      end
  end.

(** [SessionElement.unread_count] *)
Definition unread_count (content : ustr) : option N :=
  unread_scan (texts content).

(** ** [SessionBox.switch_chat] *)

Section SwitchChat.

(** [str.lower], which follows the Unicode case tables; the model is
    stated for any such function. *)
Variable lower : ustr -> ustr.

Definition LABEL_WXID : ustr := u " 微信号: ".
Definition LABEL_NICKNAME : ustr := u " 昵称: ".

(** [parts[-1]] and [parts[0]] of the result of a [split], which is never
    empty. *)
Definition last_part (parts : list ustr) : ustr := last parts [].
Definition first_part (parts : list ustr) : ustr := hd [] parts.

(** The body of the [for] loop for one search result: [Some r] when the item
    is clicked and [r] returned, [None] when the loop goes on. *)
Definition match_item (exact : bool) (keywords text : ustr) : option ustr :=
  if exact then
    if ustr_eqb text keywords then Some keywords
    else if contains LABEL_WXID text &&
            ustr_eqb (lower (last_part (split LABEL_WXID text)))
                     (lower keywords)
    then Some (first_part (split LABEL_WXID text))
    else if contains LABEL_NICKNAME text &&
            ustr_eqb (lower (last_part (split LABEL_NICKNAME text)))
                     (lower keywords)
    then Some (first_part (split LABEL_NICKNAME text))
    else None
  else
    if contains keywords text then Some text else None.

(** The [for] loop over the children of the result list, from item [i] on:
    the index of the item clicked and the value returned. *)
Fixpoint scan_items (exact : bool) (keywords : ustr) (items : list ustr)
  (i : nat) : option (nat * ustr) :=
  match items with
  | [] => None
  | text :: rest =>
      match match_item exact keywords text with
      | Some r => Some (i, r)
      | None => scan_items exact keywords rest (S i)
      end
  end.

(** What the accessibility tree shows while [switch_chat] polls: for every
    evaluation of the loop condition the reading of [time.time()], with the
    names of the children that [GetChildren] returns if the loop is
    entered. *)
Definition poll := (Z * list ustr)%type.

(** The actions issued on the UI. *)
Inductive action :=
| SearchboxRightClick
| SetClipboardText (text : ustr)
| MenuSelect (option : ustr)
| SearchboxMiddleClick
| ItemClick (round index : nat)
| ControlMiddleClick.

(** The [while] loop, at round [n]: [None] when the readings run out before
    the loop ends; [Some (Some (n, i, r))] when item [i] of round [n] is
    clicked and [r] returned; [Some None] when the time is up. *)
Fixpoint poll_loop (P : WxParam) (exact : bool) (keywords : ustr) (t0 : Z)
  (polls : list poll) (n : nat) : option (option (nat * nat * ustr)) :=
  match polls with
  | [] => None
  | (now, items) :: rest =>
      if (now - t0 <? SEARCH_CHAT_TIMEOUT P)%Z then
        match scan_items exact keywords items 0 with
        | Some (i, r) => Some (Some (n, i, r))
        | None => poll_loop P exact keywords t0 rest (S n)
        end
      else Some None
  end.

(** [self.search(keywords, force, force_wait)], as far as it acts on the
    UI. *)
Definition search (keywords : ustr) : list action :=
  [SearchboxRightClick; SetClipboardText keywords; MenuSelect (u "粘贴");
   SearchboxMiddleClick].

(** [switch_chat]: the value returned ([None] for Python's [None]) and the
    actions issued, in order.  [popover] is the answer of
    [self.search_content.Exists(0)] after the loop. *)
Definition switch_chat (P : WxParam) (keywords : ustr) (exact : bool)
  (t0 : Z) (polls : list poll) (popover : bool)
  : option (option ustr * list action) :=
  match poll_loop P exact keywords t0 polls 0 with
  | None => None
  | Some (Some (n, i, r)) => Some (Some r, search keywords ++ [ItemClick n i])
  | Some None =>
      Some (None,
            search keywords ++ (if popover then [ControlMiddleClick] else []))
  end.

End SwitchChat.

End Session.

(* ===================================================================== *)
(** * Commenting on a moment: [Moment.Comment], [MomentCommentDialog.send] *)
(* ===================================================================== *)

Module CommentFlow.
Import PyStr Param Moments.

(** A handle on a node of the accessibility tree. *)
Definition control := nat.

(** What the code can do to the application. *)
Inductive action :=
| Click (c : control)
| RightClick (c : control)
| SendKeys (c : control) (keys : ustr)
| SetClipboardText (text : ustr).

Inductive WxResponse :=
| success (message : ustr)
| failure (message : ustr).


(** A [MomentItem] after [_ensure_parsed]: its control, its comments and
    the controls of its text children by their text, in insertion order. *)
Record MomentItem := mkMomentItem {
  item_control : control;
  comments : list MomentComment;
  _comment_controls : list (ustr * control)
}.

(** [MomentActionMenu] and [MomentCommentDialog] objects: the control found
    by [_locate], and for the dialog what [_init_controls] found. *)
Record MomentActionMenu := mkMenu { menu_control : option control }.

Record MomentCommentDialog := mkDialog {
  dialog_control : option control;
  edit : option control;
  send_button : option control
}.

Section Flow.

(** The application, as the accessibility binding shows it: a state [W]
    with the queries the code makes and the effect of its actions.  A query
    or an action that answers [None] raises an exception. *)
Variable W : Type.
Variable GetChildren : W -> control -> option (list control).
Variable ControlTypeName : W -> control -> string.
Variable Name : W -> control -> ustr.
Variable Exists : W -> control -> option bool.
Variable find_all_windows_from_root : W -> list control.
Variable perform : W -> action -> option W.
(** What the application does while the caller sleeps between two polls,
    and the number of polls that fit in the timeout of [_locate]. *)
Variable sleep : W -> W.
Variable locate_rounds : nat.
(** Whether [wxauto4.utils.win32.SetClipboardText] can be imported. *)
Variable clipboard : bool.
Variable MOMENTS : lang_table.
Variable P : WxParam.

(** ** Computations: state of the application, trace of actions, exceptions *)

Definition state := (W * list action)%type.

Inductive res (A : Type) :=
| Ret (a : A)
| Raise.
Arguments Ret {A} a.
Arguments Raise {A}.

Definition M (A : Type) := state -> res A * state.

Definition ret (A : Type) (a : A) : M A := fun s => (Ret a, s).

Definition bind (A B : Type) (m : M A) (k : A -> M B) : M B :=
  fun s =>
    match m s with
    | (Ret a, s') => k a s'
    | (Raise, s') => (Raise, s')
    end.

Notation "x <- m ;; k" := (bind m (fun x => k))
  (at level 61, m at next level, right associativity).
Notation "m ;;; k" := (bind m (fun _ => k))
  (at level 61, right associativity).

(** An action is recorded in the trace when it is issued, whether the
    binding then raises or not. *)
Definition issue (a : action) : M unit :=
  fun s =>
    match perform (fst s) a with
    | Some w' => (Ret tt, (w', snd s ++ [a]))
    | None => (Raise, (fst s, snd s ++ [a]))
    end.

Definition ask (A : Type) (q : W -> A) : M A :=
  fun s => (Ret (q (fst s)), s).

Definition ask_raising (A : Type) (q : W -> option A) : M A :=
  fun s =>
    match q (fst s) with
    | Some a => (Ret a, s)
    | None => (Raise, s)
    end.

(** [try: m / except Exception: handler] *)
Definition try_except (A : Type) (m handler : M A) : M A :=
  fun s =>
    match m s with
    | (Ret a, s') => (Ret a, s')
    | (Raise, s') => handler s'
    end.

(** [try: m / finally: fin] *)
Definition try_finally (A : Type) (m : M A) (fin : M unit) : M A :=
  fun s =>
    match m s with
    | (r, s') =>
        match fin s' with
        | (Ret _, s'') => (r, s'')
        | (Raise, s'') => (Raise, s'')
        end
    end.

Definition pass : M unit := ret tt.

(** [children = ctrl.GetChildren()], with [children = []] on an exception *)
Definition children_or_empty (c : control) : M (list control) :=
  try_except (ask_raising (fun w => GetChildren w c)) (ret []).

Definition is_button (w : W) (c : control) : bool :=
  String.eqb (ControlTypeName w c) "ButtonControl".

Definition name_in (w : W) (c : control) (names : list ustr) : bool :=
  existsb (ustr_eqb (Name w c)) names.

(** ** [MomentItem] *)


Definition get_comment_control (item : MomentItem) (comment : MomentComment)
  : option control :=
  let key_candidates :=
    [raw comment;
     author comment ++ u ": " ++ content comment;
     author comment ++ u "：" ++ content comment] in
  match
    find (fun key =>
            nonempty key &&
            existsb (fun kv => ustr_eqb (fst kv) key) (_comment_controls item))
         key_candidates
  with
  | Some key =>
      lookup ustr_eqb key (_comment_controls item)
  | None =>
      match
        find (fun kv =>
                nonempty (author comment) &&
                startswith (author comment) (fst kv) &&
                contains (content comment) (fst kv))
             (_comment_controls item)
      with
      | Some kv => Some (snd kv)
      | None => None
      end
  end.

(** ** [MomentActionMenu] *)

(** The loop of [_locate] over the windows and their children. *)
Definition menu_window (w : W) (win : control) : bool :=
  match GetChildren w win with
  | Some children =>
      existsb (fun child =>
                 name_in w child
                   [_lang MOMENTS P (u "赞"); _lang MOMENTS P (u "取消");
                    _lang MOMENTS P (u "评论")])
              children
  | None => false
  end.

Fixpoint menu_locate (rounds : nat) : M (option control) :=
  match rounds with
  | O => ret None
  | S n =>
      found <- ask (fun w => find (menu_window w)
                                  (find_all_windows_from_root w)) ;;
      match found with
      | Some win => ret (Some win)
      | None =>
          (fun s => (Ret tt, (sleep (fst s), snd s))) ;;;
          menu_locate n
      end
  end.

Definition new_menu : M MomentActionMenu :=
  c <- menu_locate locate_rounds ;; ret (mkMenu c).

(** [exists(wait)] of the menu and of the dialog *)
Definition control_exists (c : option control) : M bool :=
  match c with
  | None => ret false
  | Some c => try_except (ask_raising (fun w => Exists w c)) (ret false)
  end.

Definition _find_button (menu : MomentActionMenu) (names : list ustr)
  : M (option control) :=
  match menu_control menu with
  | None => ret None
  | Some c =>
      children <- children_or_empty c ;;
      ask (fun w =>
             find (fun child => is_button w child && name_in w child names)
                  children)
  end.


Definition menu_close (menu : MomentActionMenu) : M unit :=
  match menu_control menu with
  | None => ret tt
  | Some c => try_except (issue (SendKeys c (u "{Esc}"))) pass
  end.

(** ** [MomentCommentDialog] *)





(** The degraded input of [send]: one [SendKeys] per character. *)
Fixpoint type_chars (e : control) (content : ustr) : M unit :=
  match content with
  | [] => ret tt
  | ch :: rest => issue (SendKeys e [ch]) ;;; type_chars e rest
  end.

Definition send (dialog : MomentCommentDialog) (content : ustr)
  : M WxResponse :=
  ex <- control_exists (dialog_control dialog) ;;
  if negb ex then ret (failure (u "评论窗口不存在"))
  else if negb (nonempty content) then ret (failure (u "评论内容不能为空"))
  else
    match edit dialog with
    | None => ret (failure (u "未找到评论输入框"))
    | Some e =>
        edit_exists <- ask_raising (fun w => Exists w e) ;;
        if negb edit_exists then ret (failure (u "未找到评论输入框"))
        else
          try_except
            (issue (Click e) ;;;
             issue (SendKeys e (u "{Ctrl}a")) ;;;
             (if clipboard
              then issue (SetClipboardText content) ;;;
                   issue (SendKeys e (u "{Ctrl}v"))
              else type_chars e content) ;;;
             use_button <-
               match send_button dialog with
               | None => ret None
               | Some b =>
                   button_exists <- ask_raising (fun w => Exists w b) ;;
                   ret (if button_exists then Some b else None)
               end ;;
             match use_button with
             | Some b => issue (Click b)
             | None => issue (SendKeys e (u "{Enter}"))
             end ;;;
             ret (success (u "评论成功")))
            (ret (failure (u "发送评论失败")))
    end.

(** ** [Moment] *)

Definition _invoke_action_menu (item : MomentItem)
  : M (option MomentActionMenu) :=
  action_button <-
    try_except
      (children <- ask_raising (fun w => GetChildren w (item_control item)) ;;
       ask (fun w => find (is_button w) children))
      (ret None) ;;
  clicked <-
    match action_button with
    | Some b => issue (Click b) ;;; ret true
    | None =>
        try_except
          (issue (RightClick (item_control item)) ;;; ret true)
          (ret false)
    end ;;
  if negb clicked then ret None
  else
    menu <- new_menu ;;
    ex <- control_exists (menu_control menu) ;;
    if negb ex then ret None else ret (Some menu).





End Flow.

End CommentFlow.

(* ===================================================================== *)
(** * The UI lock: [utils/lock.py] *)
(* ===================================================================== *)

Module Lock.

(** The steps of a caller that matter to the lock.  [Enter] and [Leave]
    stand for the protected section: they add one to, and take one from, a
    counter that all callers share. *)
Inductive instr :=
| AcquireAsync      (* async with cls._get_async_lock(): entry *)
| ReleaseAsync      (*                                     exit  *)
| AcquireProcess    (* with cls.process_lock: entry *)
| ReleaseProcess    (*                        exit  *)
| AcquireThread     (* with cls.thread_lock: entry *)
| ReleaseThread     (*                       exit  *)
| Enter
| Leave.

(** [with LockManager.acquire(): body] *)
Definition acquire (body : list instr) : list instr :=
  AcquireProcess :: AcquireThread :: body ++ [ReleaseThread; ReleaseProcess].

(** [async with LockManager.acquire_async(): body] *)
Definition acquire_async (body : list instr) : list instr :=
  AcquireAsync :: AcquireProcess :: AcquireThread :: body ++
  [ReleaseThread; ReleaseProcess; ReleaseAsync].

(** A function wrapped by [uilock]: [sync_wrapper] or [async_wrapper]. *)
Definition uilock (is_coroutine : bool) (body : list instr) : list instr :=
  if is_coroutine then acquire_async body else acquire body.

Definition section : list instr := [Enter; Leave].

(** A caller: the process and the thread it runs in, and what it still has
    to do.  The tasks of an event loop share the thread of the loop. *)
Record caller := mkCaller {
  c_pid : nat;
  c_tid : nat;
  prog : list instr
}.

(** [LockManager.process_lock] is created by [multiprocessing.Lock()] when
    the class body runs, once in every interpreter that imports the module;
    a forked child inherits the semaphore of its parent.  [process_lock]
    tells, for every process, which semaphore its class attribute is. *)
Definition config := nat -> nat.

(** The locks and the counter.
    - [sem s]: whether semaphore [s] is taken.  A [multiprocessing.Lock] is
      not recursive: taking it again blocks, whoever holds it.
    - [rlock p]: the owner and the depth of [LockManager.thread_lock], a
      [threading.RLock], in process [p]. *)
Record state := mkState {
  sem : nat -> bool;
  rlock : nat -> option (nat * nat);
  counter : nat;
  callers : list caller
}.

Definition upd (A : Type) (f : nat -> A) (k : nat) (v : A) : nat -> A :=
  fun x => if Nat.eqb x k then v else f x.

Fixpoint set_nth (A : Type) (i : nat) (x : A) (l : list A) : list A :=
  match l, i with
  | [], _ => []
  | _ :: l', O => x :: l'
  | a :: l', S j => a :: set_nth j x l'
  end.

(** The effect of one instruction of caller [c] on the locks and the
    counter; [None] when the caller has to wait.

    The lock of the asyncio tier is whatever [_get_async_lock] hands out,
    and that may be a lock made for this very call: the stored lock is
    replaced whenever its [_loop] is not the running loop.  The model
    therefore lets [AcquireAsync] always pass; what the tier excludes in
    practice only removes interleavings. *)
Definition exec (cfg : config) (c : caller) (ins : instr) (st : state)
  : option state :=
  match ins with
  | AcquireAsync | ReleaseAsync => Some st
  | AcquireProcess =>
      if sem st (cfg (c_pid c)) then None
      else Some (mkState (upd (sem st) (cfg (c_pid c)) true)
                         (rlock st) (counter st) (callers st))
  | ReleaseProcess =>
      Some (mkState (upd (sem st) (cfg (c_pid c)) false)
                    (rlock st) (counter st) (callers st))
  | AcquireThread =>
      match rlock st (c_pid c) with
      | None =>
          Some (mkState (sem st) (upd (rlock st) (c_pid c) (Some (c_tid c, 1)))
                        (counter st) (callers st))
      | Some (owner, depth) =>
          if Nat.eqb owner (c_tid c)
          then Some (mkState (sem st)
                             (upd (rlock st) (c_pid c)
                                  (Some (owner, S depth)))
                             (counter st) (callers st))
          else None
      end
  | ReleaseThread =>
      match rlock st (c_pid c) with
      | Some (owner, S (S depth)) =>
          Some (mkState (sem st)
                        (upd (rlock st) (c_pid c) (Some (owner, S depth)))
                        (counter st) (callers st))
      | _ =>
          Some (mkState (sem st) (upd (rlock st) (c_pid c) None)
                        (counter st) (callers st))
      end
  | Enter =>
      Some (mkState (sem st) (rlock st) (S (counter st)) (callers st))
  | Leave =>
      Some (mkState (sem st) (rlock st) (pred (counter st)) (callers st))
  end.

(** Caller [i] takes its next step, if it has one and need not wait. *)
Definition step (cfg : config) (i : nat) (st : state) : option state :=
  match nth_error (callers st) i with
  | None => None
  | Some c =>
      match prog c with
      | [] => None
      | ins :: rest =>
          match exec cfg c ins st with
          | None => None
          | Some st' =>
              Some (mkState (sem st') (rlock st') (counter st')
                            (set_nth i (mkCaller (c_pid c) (c_tid c) rest)
                                     (callers st')))
          end
      end
  end.

(** A schedule names the caller that moves, step after step. *)
Fixpoint run (cfg : config) (schedule : list nat) (st : state)
  : option state :=
  match schedule with
  | [] => Some st
  | i :: rest =>
      match step cfg i st with
      | None => None
      | Some st' => run cfg rest st'
      end
  end.

(** At the start no lock is taken and nobody is in the section. *)
Definition init (cs : list caller) : state :=
  mkState (fun _ => false) (fun _ => None) 0 cs.

Definition reachable (cfg : config) (cs : list caller) (st : state) : Prop :=
  exists schedule, run cfg schedule (init cs) = Some st.

(** A caller has finished when nothing is left of its program. *)
Definition finished (st : state) (i : nat) : bool :=
  match nth_error (callers st) i with
  | Some c => match prog c with [] => true | _ => false end
  | None => false
  end.

End Lock.

(* ===================================================================== *)
(** * More of Python's strings *)
(* ===================================================================== *)

Module PyText.
Import PyStr.

(** [s.replace(old, new)] for a one-character [old]. *)
Definition replace1 (old : char) (new : ustr) (s : ustr) : ustr :=
  flat_map (fun c => if (c =? old)%N then new else [c]) s.

(** [s[:n]] for an [int] n: a negative [n] counts from the end. *)
Definition slice_to (n : Z) (s : ustr) : ustr :=
  if (0 <=? n)%Z then firstn (Z.to_nat n) s
  else firstn (length s - Z.to_nat (- n)) s.

(** [sep.join(parts)] *)
Fixpoint join (sep : ustr) (parts : list ustr) : ustr :=
  match parts with
  | [] => []
  | [part] => part
  | part :: rest => part ++ sep ++ join sep rest
  end.

(** The line boundaries of [str.splitlines]: line feed, vertical tab, form
    feed, carriage return, the separators U+001C to U+001E, next line,
    and the line and paragraph separators. *)
Definition is_linebreak (c : char) : bool :=
  ((10 <=? c) && (c <=? 13) || (28 <=? c) && (c <=? 30)
   || (c =? 133) || (c =? 8232) || (c =? 8233))%N.

(** [s.splitlines()]: a carriage return and the line feed after it are one
    boundary, and no empty line is added after a final boundary.
    [after_cr] tells that the character before was a carriage return,
    [cur] is the current line, reversed. *)
Fixpoint splitlines_go (s : ustr) (after_cr : bool) (cur : ustr)
  : list ustr :=
  match s with
  | [] => match cur with [] => [] | _ => [rev cur] end
  | c :: s' =>
      if after_cr && (c =? 10)%N then splitlines_go s' false cur
      else if is_linebreak c
      then rev cur :: splitlines_go s' (c =? 13)%N []
      else splitlines_go s' false (c :: cur)
  end.

Definition splitlines (s : ustr) : list ustr := splitlines_go s false [].

(** [str(n)] for an [int]. *)
Definition digit_char (d : N) : char := (48 + d)%N.

Fixpoint decimal_go (fuel : nat) (n : N) (acc : ustr) : ustr :=
  match fuel with
  | O => acc
  | S fuel' =>
      let acc' := digit_char (n mod 10) :: acc in
      if (n <? 10)%N then acc' else decimal_go fuel' (n / 10) acc'
  end.

Definition str_of_N (n : N) : ustr :=
  decimal_go (S (N.to_nat (N.log2 n))) n [].

Definition str_of_Z (z : Z) : ustr :=
  match z with
  | Zneg p => 45%N :: str_of_N (Npos p)
  | _ => str_of_N (Z.to_N z)
  end.

(** [l.index(x)]; [None] stands for the [ValueError] raised when [x] is
    not in [l]. *)
Fixpoint index (x : ustr) (l : list ustr) : option nat :=
  match l with
  | [] => None
  | y :: l' =>
      if ustr_eqb y x then Some 0
      else match index x l' with Some i => Some (S i) | None => None end
  end.

(** [re.findall(r'\d+', s)]: the maximal runs of decimal digits. *)
Fixpoint digit_runs_go (s : ustr) (cur : ustr) : list ustr :=
  match s with
  | [] => match cur with [] => [] | _ => [rev cur] end
  | c :: s' =>
      if isdigit c then digit_runs_go s' (c :: cur)
      else match cur with
           | [] => digit_runs_go s' []
           | _ => rev cur :: digit_runs_go s' []
           end
  end.

Definition findall_digits (s : ustr) : list ustr := digit_runs_go s [].

End PyText.

(* ===================================================================== *)
(** * Building messages: [truncate_string], [BaseMessage.__init__] *)
(* ===================================================================== *)

Module Base.
Import PyStr PyText Param Msg.
Local Open Scope string_scope.
Local Open Scope list_scope.

Definition truncate_string (s : ustr) (n : Z) : ustr :=
  let s := strip (replace1 NL [] s) in
  if (Z.of_nat (length s) <=? n)%Z then s else slice_to n s ++ u "...".

(** What [BaseMessage.__init__] reads from the control and from the chat
    box it is given. *)
Record Control := mkControl {
  control_ref : nat;
  runtimeid : pyval;
  Name : ustr;
  rect_height : Z;
  rect_width : Z
}.

Record ChatBox := mkChatBox {
  chatbox_ref : nat;
  root : nat
}.

Section Init.

(** [md5(text.encode()).hexdigest()], as a function of the text. *)
Variable md5_hexdigest : ustr -> ustr.

(** [f'({rect.height()},{rect.width()}){self.content}'] *)
Definition hash_text (control : Control) : ustr :=
  u "(" ++ str_of_Z (rect_height control) ++ u "," ++
  str_of_Z (rect_width control) ++ u ")" ++ Name control.

(** The instance dictionary after [BaseMessage.__init__], in the order of
    the assignments.  [self_addr] is the identity of the new instance. *)
Definition BaseMessage__init__ (self_addr : nat) (control : Control)
  (parent : ChatBox) (additonal_attr : list (string * pyval)) : Message :=
  mkMessage self_addr
    [("parent", VObj (chatbox_ref parent));
     ("control", VObj (control_ref control));
     ("direction", dict_get "direction" additonal_attr);
     ("distince", dict_get "direction_distence" additonal_attr);
     ("root", VObj (root parent));
     ("id", runtimeid control);
     ("content", VStr (Name control));
     ("hash_text", VStr (hash_text control));
     ("hash", VStr (md5_hexdigest (hash_text control)))].

End Init.

(** [copy]: [self.to_dict().copy()], a new [dict] with the same pairs. *)
Definition copy (P : WxParam) (m : Message) : list (string * pyval) :=
  to_dict P m.

End Base.

(* ===================================================================== *)
(** * Session elements and search results: [ui/sessionbox.py] *)
(* ===================================================================== *)

Module SessionItems.
Import PyStr PyText Param Moments.
Local Open Scope string_scope.
Local Open Scope list_scope.

(** [SearchResultElement.get_all_text] *)
Definition get_all_text (content : ustr) : list ustr :=
  filter (fun line => nonempty line && nonempty (strip line))
         (split [NL] content).

(** [wxauto4.languages.MENU_OPTIONS] is imported by [sessionbox.py] and is
    not part of the sources at hand.  It maps an option key to the texts
    per display language; [_menu_option_text] allows for an entry that is
    not a [dict]. *)
Inductive menu_entry :=
| EntryDict (texts : list (string * ustr))
| EntryOther.

Definition menu_table := list (ustr * menu_entry).

(** [option.get(lang) if isinstance(option, dict) else None] *)
Definition entry_get (option : menu_entry) (lang : string)
  : Datatypes.option ustr :=
  match option with
  | EntryDict d => lookup String.eqb lang d
  | EntryOther => None
  end.

(** Truthiness of a text or [None]. *)
Definition truthy (text : Datatypes.option ustr) : bool :=
  match text with Some (_ :: _) => true | _ => false end.

Definition _menu_option_text (MENU_OPTIONS : menu_table) (P : WxParam)
  (option_key : ustr) : ustr :=
  let option :=
    match lookup ustr_eqb option_key MENU_OPTIONS with
    | Some entry => entry
    | None => EntryDict []
    end in
  let lang := LANGUAGE P in
  let text := entry_get option lang in
  let text := if negb (truthy text) then entry_get option "cn" else text in
  match text with
  | Some (c :: rest) => c :: rest
  | _ => option_key
  end.




End SessionItems.

(* ===================================================================== *)
(** * Time lines and printed comments: [_is_time_line], [demo.py] *)
(* ===================================================================== *)

Module MomentText.
Import PyStr PyText Param Regex Moments.
Local Open Scope string_scope.
Local Open Scope list_scope.

(** [\d], [\d{1,2}], [\d{2}] and [\d{4}] *)
Definition digit : regex := Chr isdigit.
Definition digit_1_2 : regex := Seq digit (Opt digit).
Definition digit_2 : regex := Seq digit digit.
Definition digit_4 : regex := Seq digit (Seq digit (Seq digit digit)).

(** A character class given by its members. *)
Definition one_of (members : ustr) : regex := Chr (fun c => mem c members).

(** The patterns of [_is_time_line], in the order of the source. *)
Definition time_patterns : list regex :=
  [Seq digit_4 (Seq (Lit (u "年")) (Seq digit_1_2 (Seq (Lit (u "月"))
     (Seq digit_1_2 (Lit (u "日"))))));
   Seq digit_2 (Seq (Lit (u "-")) digit_2);
   Seq digit_1_2 (Seq (Lit (u ":")) digit_2);
   Seq (Lit (u "昨")) (one_of (u "天日"));
   Seq (Lit (u "星期")) (one_of (u "一二三四五六日天"))].

Definition found (m : option groups) : bool :=
  match m with Some _ => true | None => false end.

Definition _is_time_line (text : ustr) : bool :=
  if negb (nonempty text) then false
  else existsb (fun pattern => found (re_search pattern text)) time_patterns.

(** The line that [show_moments] of [demo.py] prints for a comment. *)
Definition comment_line (comment : MomentComment) : ustr :=
  let reply :=
    match reply_to comment with
    | Some (c :: r) => u " 回复 " ++ c :: r
    | _ => []
    end in
  u "        " ++ author comment ++ reply ++ u ": " ++ content comment.

End MomentText.

(* ===================================================================== *)
(** * Liking a moment: [Moment.Like], [MomentActionMenu.like] *)
(* ===================================================================== *)

Module MomentLike.
Import PyStr Param Moments CommentFlow.

Section LikeFlow.

Variable W : Type.
Variable GetChildren : W -> control -> option (list control).
Variable ControlTypeName : W -> control -> string.
Variable Name : W -> control -> ustr.
Variable Exists : W -> control -> option bool.
Variable find_all_windows_from_root : W -> list control.
Variable perform : W -> action -> option W.
Variable sleep : W -> W.
Variable locate_rounds : nat.
Variable MOMENTS : lang_table.
Variable P : WxParam.

Notation "x <- m ;; k" := (bind m (fun x => k))
  (at level 61, m at next level, right associativity).
Notation "m ;;; k" := (bind m (fun _ => k))
  (at level 61, right associativity).

(** The names that [like] looks for: the like text, with the cancel text
    put in front of it when [cancel] is set. *)
Definition like_targets (cancel : bool) : list ustr :=
  let target_names := [_lang MOMENTS P (u "赞")] in
  if cancel then _lang MOMENTS P (u "取消") :: target_names
  else target_names.

Definition menu_like (menu : MomentActionMenu) (cancel : bool)
  : M W WxResponse :=
  button <- _find_button GetChildren ControlTypeName Name menu
              (like_targets cancel) ;;
  match button with
  | None => ret (failure (u "未找到点赞按钮"))
  | Some b => issue perform (Click b) ;;; ret (success (u "操作成功"))
  end.

Definition Like (item : MomentItem) (cancel : bool) : M W WxResponse :=
  menu <- _invoke_action_menu GetChildren ControlTypeName Name Exists
            find_all_windows_from_root perform sleep locate_rounds
            MOMENTS P item ;;
  match menu with
  | None => ret (failure (u "未能打开朋友圈操作菜单"))
  | Some menu =>
      try_finally (menu_like menu cancel) (menu_close perform menu)
  end.

End LikeFlow.

End MomentLike.

(* ===================================================================== *)
(** * Reading a moment: [MomentItem._ensure_parsed] *)
(* ===================================================================== *)

Module MomentParse.
Import PyStr PyText Param Regex Moments MomentText.
Local Open Scope string_scope.
Local Open Scope list_scope.

(** The attributes of a [MomentItem] that [_ensure_parsed] fills in
    ([location] is never assigned after [__init__]). *)
Record parsed := mkParsed {
  nickname : ustr;
  content : ustr;
  time : ustr;
  likes : list ustr;
  comments : list MomentComment;
  image_count : N;
  is_advertisement : bool;
  _comment_controls : list (ustr * CommentFlow.control)
}.

(** The variables of the first loop over the body lines. *)
Record scan := mkScan {
  scan_image_count : N;
  likes_line : option ustr;
  scan_is_advertisement : bool;
  scan_time : ustr;
  content_lines : list ustr;
  comment_lines : list ustr
}.

(** As [__init__] leaves them. *)
Definition scan_init : scan := mkScan 0 None false [] [] [].

Section Parse.

Variable MOMENTS : lang_table.
Variable P : WxParam.

(** [re.search(pattern, line)] as a truth value, for the pattern that the
    language table gives for the number of images; the table is not part of
    the sources at hand, and neither is the pattern. *)
Variable re_search_text : ustr -> ustr -> bool.

(** [ [line.strip() for line in raw_text.splitlines() if line.strip()] ] *)
Definition lines_of (raw_text : ustr) : list ustr :=
  strip_nonblank (splitlines raw_text).

(** The first loop, over the lines still to be read; [None] stands for an
    exception. *)
Fixpoint scan_body (body_lines lines : list ustr) (st : scan)
  : option scan :=
  match lines with
  | [] => Some st
  | line :: rest =>
      if negb (nonempty line) then scan_body body_lines rest st
      else if re_search_text (_lang MOMENTS P (u "re_图片数")) line then
        match findall_digits line with
        | first :: _ =>
            match int_of first with
            | Some n =>
                scan_body body_lines rest
                  (mkScan n (likes_line st) (scan_is_advertisement st)
                          (scan_time st) (content_lines st)
                          (comment_lines st))
            | None => None
            end
        | [] => scan_body body_lines rest st
        end
      else if startswith (_lang MOMENTS P (u "赞")) line then
        scan_body body_lines rest
          (mkScan (scan_image_count st) (Some line)
                  (scan_is_advertisement st) (scan_time st)
                  (content_lines st) (comment_lines st))
      else if ustr_eqb line (_lang MOMENTS P (u "评论")) then
        match index line body_lines with
        | Some i =>
            Some (mkScan (scan_image_count st) (likes_line st)
                         (scan_is_advertisement st) (scan_time st)
                         (content_lines st)
                         (comment_lines st ++ skipn (S i) body_lines))
        | None => None
        end
      else if contains (_lang MOMENTS P (u "广告")) line then
        scan_body body_lines rest
          (mkScan (scan_image_count st) (likes_line st) true
                  (scan_time st) (content_lines st) (comment_lines st))
      else if negb (nonempty (scan_time st)) && _is_time_line line then
        scan_body body_lines rest
          (mkScan (scan_image_count st) (likes_line st)
                  (scan_is_advertisement st) line (content_lines st)
                  (comment_lines st))
      else
        scan_body body_lines rest
          (mkScan (scan_image_count st) (likes_line st)
                  (scan_is_advertisement st) (scan_time st)
                  (content_lines st ++ [line]) (comment_lines st))
  end.

(** The second loop: the lines after a line that is the comment marker,
    marker lines left out. *)
Fixpoint collect (lines : list ustr) (collecting : bool) : list ustr :=
  match lines with
  | [] => []
  | line :: rest =>
      if ustr_eqb line (_lang MOMENTS P (u "评论")) then collect rest true
      else if collecting then line :: collect rest collecting
      else collect rest collecting
  end.

(** [d.setdefault(text, child)] *)
Definition setdefault (text : ustr) (child : CommentFlow.control)
  (d : list (ustr * CommentFlow.control)) : list (ustr * CommentFlow.control) :=
  if existsb (fun kv => ustr_eqb (fst kv) text) d then d
  else d ++ [(text, child)].

(** What the accessibility tree shows of the children when the item is
    parsed. *)
Variable ControlTypeName : CommentFlow.control -> string.
Variable Name : CommentFlow.control -> ustr.

(** The loop over the children that records the controls of the texts. *)
Fixpoint text_controls (children : list CommentFlow.control)
  (d : list (ustr * CommentFlow.control)) : list (ustr * CommentFlow.control) :=
  match children with
  | [] => d
  | child :: rest =>
      if String.eqb (ControlTypeName child) "TextControl" then
        let text := strip (Name child) in
        if nonempty text then text_controls rest (setdefault text child d)
        else text_controls rest d
      else text_controls rest d
  end.

(** [_ensure_parsed] on an item that is not parsed yet: [raw_text] is the
    name of its control, or the empty string, and [children] are the
    children of its control. *)
Definition _ensure_parsed (raw_text : ustr)
  (children : list CommentFlow.control) : option parsed :=
  let lines := lines_of raw_text in
  let nickname := match lines with line :: _ => line | [] => [] end in
  let body_lines := tl lines in
  match scan_body body_lines body_lines scan_init with
  | None => None
  | Some st =>
      let comment_lines :=
        match comment_lines st with
        | [] => collect body_lines false
        | found => found
        end in
      let likes :=
        match likes_line st with
        | Some (c :: line) => _split_like_names MOMENTS P (c :: line)
        | _ => []
        end in
      Some (mkParsed nickname
              (strip (join [NL] (content_lines st)))
              (scan_time st)
              likes
              (map from_text
                   (filter (fun line => nonempty (strip line)) comment_lines))
              (scan_image_count st)
              (scan_is_advertisement st)
              (text_controls children []))
  end.

End Parse.

(** The part of a parsed item that [find_comment] and
    [get_comment_control] read. *)
Definition as_item (control : CommentFlow.control) (p : parsed)
  : CommentFlow.MomentItem :=
  CommentFlow.mkMomentItem control (comments p) (_comment_controls p).

End MomentParse.

(* ===================================================================== *)
(** * The list of moments: [MomentList.get_items] *)
(* ===================================================================== *)

Module MomentItems.
Import PyStr Param Moments CommentFlow.
Local Open Scope string_scope.
Local Open Scope list_scope.


Section Items.

Variable W : Type.
Variable GetChildren : W -> control -> option (list control).
Variable ControlTypeName : W -> control -> string.
Variable Name : W -> control -> ustr.

Notation "x <- m ;; k" := (bind m (fun x => k))
  (at level 61, m at next level, right associativity).




End Items.

End MomentItems.

(* ===================================================================== *)
(** * Exceptions: [exceptions.py] *)
(* ===================================================================== *)

Module Errors.
Import PyStr.
Local Open Scope list_scope.

(** A class of the hierarchy: its name and the value that its body gives to
    the class attribute [default_message]. *)
Record error_class := mkErrorClass {
  __name__ : ustr;
  class_default_message : ustr
}.

Definition WxautoError_class : error_class :=
  mkErrorClass (u "WxautoError") [].
Definition NetWorkError_class : error_class :=
  mkErrorClass (u "NetWorkError") (u "微信无法连接到网络").
Definition WxautoUINotFoundError_class : error_class :=
  mkErrorClass (u "WxautoUINotFoundError") (u "未找到目标 UI 控件").
Definition WxautoNoteLoadTimeoutError_class : error_class :=
  mkErrorClass (u "WxautoNoteLoadTimeoutError") (u "微信笔记加载超时").

(** An instance: its class, its three fields, and the arguments handed to
    [Exception.__init__]. *)
Record WxautoError := mkWxautoError {
  __class__ : error_class;
  default_message : ustr;
  message : option ustr;
  detail : option ustr;
  args : list ustr
}.

(** [a or b] on texts, where [a] may be [None]. *)
Definition or_else (a : option ustr) (b : ustr) : ustr :=
  match a with
  | Some (c :: rest) => c :: rest
  | _ => b
  end.

Definition __post_init__ (self : WxautoError) : WxautoError :=
  let msg :=
    or_else (Some (or_else (message self) (default_message self)))
            (__name__ (__class__ self)) in
  mkWxautoError (__class__ self) (default_message self) (Some msg)
                (detail self) [msg].

(** The [__init__] that [dataclass] writes for [WxautoError]: it assigns the
    three fields on the instance and calls [__post_init__].  The subclasses
    are not decorated and inherit it, with the defaults of the fields of
    [WxautoError]. *)
Definition __init__ (cls : error_class) (default_message : ustr)
  (message detail : option ustr) : WxautoError :=
  __post_init__ (mkWxautoError cls default_message message detail []).

(** [cls()]: every field at its default. *)
Definition raise_plain (cls : error_class) : WxautoError :=
  __init__ cls [] None None.

Definition __str__ (self : WxautoError) : ustr :=
  or_else (message self) [].

End Errors.

(* ===================================================================== *)
(** * Part II: properties *)
(* ===================================================================== *)

(* ===================================================================== *)
(** * Properties of the message model *)
(* ===================================================================== *)

Module MsgFacts.
Import PyStr Param Msg.
Local Open Scope string_scope.
Local Open Scope list_scope.

(** A key the public view leaves out. *)
Definition excluded (P : WxParam) (key : string) : Prop :=
  String.prefix "_" key = true \/ In key _EXCLUDE_FIELDS \/
  (key = "hash" /\ MESSAGE_HASH P = false).

Lemma in_strs_In (k : string) (l : list string) :
  in_strs k l = true <-> In k l.
Proof.
  unfold in_strs. rewrite existsb_exists. split.
  - intros [x [Hx He]]. apply String.eqb_eq in He. now subst.
  - intros H. exists k. split; [assumption | apply String.eqb_refl].
Qed.

Lemma is_public_false (P : WxParam) (key : string) :
  is_public P key = false <-> excluded P key.
Proof.
  unfold is_public, excluded.
  destruct (String.prefix "_" key) eqn:Hp; cbn [orb].
  { split; [intros _; now left | reflexivity]. }
  destruct (in_strs key _EXCLUDE_FIELDS) eqn:Hx.
  { apply in_strs_In in Hx.
    split; [intros _; right; left; exact Hx | reflexivity]. }
  assert (Hn : ~ In key _EXCLUDE_FIELDS).
  { intro H. apply in_strs_In in H. congruence. }
  destruct (String.eqb key "hash") eqn:Hh; cbn [andb].
  - apply String.eqb_eq in Hh.
    destruct (MESSAGE_HASH P); cbn [negb].
    + split; [discriminate |].
      intros [H | [H | [_ H]]];
        [discriminate | exact (False_ind _ (Hn H)) | discriminate].
    + split; [intros _; right; right; now split | reflexivity].
  - apply String.eqb_neq in Hh.
    split; [discriminate |].
    intros [H | [H | [H _]]];
      [discriminate | exact (False_ind _ (Hn H)) | exact (False_ind _ (Hh H))].
Qed.

Lemma is_public_true (P : WxParam) (key : string) :
  is_public P key = true <-> ~ excluded P key.
Proof.
  rewrite <- is_public_false. destruct (is_public P key); split; congruence.
Qed.

Lemma items_In (P : WxParam) (m : Message) (key : string) (value : pyval) :
  In (key, value) (items P m) <->
  In (key, value) (__dict__ m) /\ ~ excluded P key.
Proof.
  unfold items, _iter_public_items. rewrite filter_In. simpl.
  now rewrite is_public_true.
Qed.

Lemma first_value_In (k : string) (l : list (string * pyval)) (v : pyval) :
  first_value k l = Some v -> In (k, v) l.
Proof.
  induction l as [| [k' v'] l IH]; simpl; [discriminate |].
  destruct (String.eqb k' k) eqn:E.
  - apply String.eqb_eq in E. intros [= <-]. left. now subst.
  - intros H. right. auto.
Qed.

Lemma first_value_None (k : string) (l : list (string * pyval)) :
  first_value k l = None <-> ~ In k (map fst l).
Proof.
  induction l as [| [k' v'] l IH]; simpl.
  - split; auto.
  - destruct (String.eqb k' k) eqn:E.
    + apply String.eqb_eq in E. split; [discriminate | intros H; exfalso; auto].
    + apply String.eqb_neq in E. rewrite IH. split.
      * intros H [H1 | H1]; auto.
      * intros H H1. auto.
Qed.

Lemma first_value_NoDup (k : string) (l : list (string * pyval)) (v : pyval) :
  NoDup (map fst l) -> In (k, v) l -> first_value k l = Some v.
Proof.
  induction l as [| [k' v'] l IH]; simpl; [contradiction |].
  intros Hnd [H | H].
  - injection H as -> ->. now rewrite String.eqb_refl.
  - inversion Hnd as [| ? ? Hnotin Hnd']; subst.
    destruct (String.eqb k' k) eqn:E.
    + apply String.eqb_eq in E. subst. exfalso. apply Hnotin.
      change k with (fst (k, v)). now apply in_map.
    + auto.
Qed.

Lemma dict_set_fresh (k : string) (v : pyval) (d : list (string * pyval)) :
  ~ In k (map fst d) -> dict_set k v d = d ++ [(k, v)].
Proof.
  induction d as [| [k' v'] d IH]; simpl; [reflexivity |].
  intros H. destruct (String.eqb k' k) eqn:E.
  - apply String.eqb_eq in E. exfalso. auto.
  - rewrite IH; auto.
Qed.

Lemma dict_of_acc (l acc : list (string * pyval)) :
  NoDup (map fst (acc ++ l)) ->
  fold_left (fun d kv => dict_set (fst kv) (snd kv) d) l acc = acc ++ l.
Proof.
  revert acc. induction l as [| [k v] l IH]; intros acc Hnd; simpl.
  - now rewrite app_nil_r.
  - rewrite dict_set_fresh.
    + rewrite IH; rewrite <- app_assoc; simpl; [reflexivity | assumption].
    + rewrite map_app in Hnd. simpl in Hnd.
      apply NoDup_remove_2 in Hnd. intro H. apply Hnd.
      apply in_or_app. now left.
Qed.

Lemma dict_of_NoDup (l : list (string * pyval)) :
  NoDup (map fst l) -> dict_of l = l.
Proof. intros H. unfold dict_of. now rewrite dict_of_acc. Qed.

Lemma public_keys_NoDup (P : WxParam) (d : list (string * pyval)) :
  NoDup (map fst d) ->
  NoDup (map fst (filter (fun kv => is_public P (fst kv)) d)).
Proof.
  induction d as [| [k v] d IH]; simpl; [auto |].
  intros H. inversion H as [| ? ? Hn Hd]; subst.
  destruct (is_public P k); simpl; auto.
  constructor; auto.
  intro Hin. apply Hn. apply in_map_iff in Hin as [x [Hx Hin]].
  apply filter_In in Hin as [Hin _]. apply in_map_iff. eauto.
Qed.

Lemma to_dict_items (P : WxParam) (m : Message) :
  wf_message m -> to_dict P m = items P m.
Proof.
  intros H. unfold to_dict, items, _iter_public_items.
  apply dict_of_NoDup. now apply public_keys_NoDup.
Qed.

Lemma dict_set_keys (k k0 : string) (v : pyval) (d : list (string * pyval)) :
  In k0 (map fst (dict_set k v d)) -> k0 = k \/ In k0 (map fst d).
Proof.
  induction d as [| [k' v'] d IH]; simpl.
  - intros [H | []]. auto.
  - destruct (String.eqb k' k) eqn:E; simpl.
    + intros [H | H]; auto.
    + intros [H | H]; auto. destruct (IH H); auto.
Qed.

Lemma dict_of_keys (k0 : string) (l : list (string * pyval)) :
  In k0 (map fst (dict_of l)) -> In k0 (map fst l).
Proof.
  unfold dict_of.
  assert (G : forall acc,
    In k0 (map fst (fold_left (fun d kv => dict_set (fst kv) (snd kv) d) l acc)) ->
    In k0 (map fst acc) \/ In k0 (map fst l)).
  { induction l as [| [k v] l IH]; intros acc; simpl; auto.
    intros H. apply IH in H as [H | H]; auto.
    apply dict_set_keys in H as [H | H]; auto. }
  intros H. apply G in H as [[] | H]. assumption.
Qed.

Lemma keys_In (P : WxParam) (m : Message) (key : string) :
  In key (keys P m) -> ~ excluded P key.
Proof.
  unfold keys. intros H. apply in_map_iff in H as [[k v] [E H]].
  simpl in E. subst. fold (items P m) in H. now apply items_In in H.
Qed.

Lemma py_eq_true (a b : pyval) : py_eq a b = true <-> a = b.
Proof.
  unfold py_eq. destruct (pyval_eq_dec a b); split; congruence.
Qed.

Lemma contains_keys (P : WxParam) (m : Message) (key : string) :
  __contains__ P m (KStr key) = true <-> In key (keys P m).
Proof.
  unfold __contains__, keys. rewrite existsb_exists, in_map_iff. split.
  - intros [kv [Hin He]]. apply String.eqb_eq in He. eauto.
  - intros [kv [He Hin]]. exists kv. split; [assumption |].
    now apply String.eqb_eq.
Qed.

(** An attribute that is set and not left out. *)
Definition shown (P : WxParam) (m : Message) (key : string) : Prop :=
  In key (map fst (__dict__ m)) /\ ~ excluded P key.

Lemma keys_shown (P : WxParam) (m : Message) (key : string) :
  In key (keys P m) <-> shown P m key.
Proof.
  unfold keys, shown. rewrite !in_map_iff. split.
  - intros [[k v] [E H]]. simpl in E. subst k.
    fold (items P m) in H. apply items_In in H as [H1 H2].
    split; [| assumption]. now exists (key, v).
  - intros [[[k v] [E H]] Hx]. simpl in E. subst k.
    exists (key, v). split; [reflexivity |].
    fold (items P m). apply items_In. now split.
Qed.

Lemma first_value_items (P : WxParam) (m : Message) (key : string)
  (v : pyval) :
  wf_message m ->
  (first_value key (_iter_public_items P m) = Some v <->
   In (key, v) (__dict__ m) /\ ~ excluded P key).
Proof.
  intros Hwf. rewrite <- items_In. unfold items. split.
  - apply first_value_In.
  - apply first_value_NoDup. now apply public_keys_NoDup.
Qed.

Lemma first_value_hidden (P : WxParam) (m : Message) (key : string) :
  first_value key (_iter_public_items P m) = None <-> ~ shown P m key.
Proof.
  rewrite first_value_None. fold (keys P m). now rewrite keys_shown.
Qed.

(** C10. Every access path to the public fields of a message shows exactly
    the attributes of the instance that are not left out, where the names
    that start with an underscore and the attributes control, parent and
    root are always left out, and hash is left out exactly when MESSAGE_HASH
    is disabled.  This holds of items, to_dict, keys, iteration, membership,
    indexing (which raises KeyError for any other key), get (which answers
    the default for any other key) and values; len counts the keys, each of
    which is shown once.  So with MESSAGE_HASH disabled, indexing by hash
    raises KeyError and hash is not in the message although the attribute is
    set; with MESSAGE_HASH enabled a hash that is set is shown by every
    view. *)
Theorem public_view_excludes_internal :
  forall (P : WxParam) (m : Message) (key : string),
    wf_message m ->
    (excluded P key <->
     String.prefix "_" key = true \/
     key = "control" \/ key = "parent" \/ key = "root" \/
     (key = "hash" /\ MESSAGE_HASH P = false)) /\
    (String.prefix "_" key = true -> excluded P key) /\
    excluded P "control" /\ excluded P "parent" /\ excluded P "root" /\
    (excluded P "hash" <-> MESSAGE_HASH P = false) /\
    (forall v, In (key, v) (items P m) <->
               In (key, v) (__dict__ m) /\ ~ excluded P key) /\
    (forall v, In (key, v) (to_dict P m) <->
               In (key, v) (__dict__ m) /\ ~ excluded P key) /\
    (In key (keys P m) <->
     In key (map fst (__dict__ m)) /\ ~ excluded P key) /\
    (In key (__iter__ P m) <->
     In key (map fst (__dict__ m)) /\ ~ excluded P key) /\
    (__contains__ P m (KStr key) = true <->
     In key (map fst (__dict__ m)) /\ ~ excluded P key) /\
    __contains__ P m KOther = false /\
    (forall v, __getitem__ P m key = Ok v <->
               In (key, v) (__dict__ m) /\ ~ excluded P key) /\
    (__getitem__ P m key = KeyError key <->
     ~ (In key (map fst (__dict__ m)) /\ ~ excluded P key)) /\
    (forall default v,
       get P m key default = v <->
       (In (key, v) (__dict__ m) /\ ~ excluded P key) \/
       (v = default /\
        ~ (In key (map fst (__dict__ m)) /\ ~ excluded P key))) /\
    (forall v, In v (values P m) <->
               exists k, In (k, v) (__dict__ m) /\ ~ excluded P k) /\
    keys P m = map fst (items P m) /\
    values P m = map snd (items P m) /\
    __iter__ P m = keys P m /\
    NoDup (keys P m) /\
    __len__ P m = length (keys P m) /\
    (MESSAGE_HASH P = false ->
     __getitem__ P m "hash" = KeyError "hash" /\
     __contains__ P m (KStr "hash") = false /\
     (forall default, get P m "hash" default = default) /\
     ~ In "hash" (keys P m) /\
     forall v, ~ In ("hash", v) (to_dict P m)) /\
    (MESSAGE_HASH P = true ->
     forall v, In ("hash", v) (__dict__ m) ->
       __getitem__ P m "hash" = Ok v /\
       __contains__ P m (KStr "hash") = true /\
       (forall default, get P m "hash" default = v) /\
       In ("hash", v) (items P m) /\ In ("hash", v) (to_dict P m)).
Proof.
  intros P m key Hwf.
  assert (Xh : excluded P "hash" <-> MESSAGE_HASH P = false).
  { split.
    - intros [H | [H | [_ H]]]; [discriminate H | | exact H].
      simpl in H. intuition discriminate.
    - intros H. right. right. now split. }
  assert (G : forall k v, __getitem__ P m k = Ok v <->
                          In (k, v) (__dict__ m) /\ ~ excluded P k).
  { intros k v. rewrite <- (first_value_items P k v Hwf).
    unfold __getitem__.
    destruct (first_value k (_iter_public_items P m)); split; congruence. }
  assert (C : forall k, __contains__ P m (KStr k) = true <-> shown P m k).
  { intros k. now rewrite contains_keys, keys_shown. }
  assert (D : forall k default v,
            get P m k default = v <->
            (In (k, v) (__dict__ m) /\ ~ excluded P k) \/
            (v = default /\ ~ shown P m k)).
  { intros k default v. unfold get.
    destruct (first_value k (_iter_public_items P m)) as [v0 |] eqn:E.
    - pose proof E as E0. apply (first_value_items P k v0 Hwf) in E0.
      split.
      + intros <-. now left.
      + intros [H | [_ H]].
        * apply (first_value_items P k v Hwf) in H. congruence.
        * exfalso. apply H. unfold shown. split; [| tauto].
          apply in_map_iff. exists (k, v0). tauto.
    - split.
      + intros <-. right. split; [reflexivity |].
        now apply first_value_hidden.
      + intros [H | [H _]]; [| now symmetry].
        apply (first_value_items P k v Hwf) in H. congruence. }
  split.
  { unfold excluded, _EXCLUDE_FIELDS. cbn [In]. split.
    - intros [H | [[H | [H | [H | []]]] | H]]; auto.
    - intros [H | [H | [H | [H | H]]]]; auto; right; left; auto. }
  split; [intros H; now left |].
  split; [right; left; simpl; auto |].
  split; [right; left; simpl; auto |].
  split; [right; left; simpl; auto |].
  split; [exact Xh |].
  split; [intros v; apply items_In |].
  split; [intros v; rewrite (to_dict_items P Hwf); apply items_In |].
  split; [apply keys_shown |].
  split; [apply keys_shown |].
  split; [apply C |].
  split; [reflexivity |].
  split; [apply G |].
  split.
  { unfold __getitem__.
    destruct (first_value key (_iter_public_items P m)) eqn:E.
    - split; [discriminate |]. intros H. exfalso.
      apply first_value_hidden in H. congruence.
    - split; [| reflexivity]. intros _. now apply first_value_hidden. }
  split; [apply D |].
  split.
  { intros v. unfold values. rewrite in_map_iff. split.
    - intros [[k v0] [E H]]. simpl in E. subst v0. exists k.
      now apply items_In.
    - intros [k H]. exists (k, v). split; [reflexivity |].
      now apply items_In. }
  split; [reflexivity |].
  split; [reflexivity |].
  split; [reflexivity |].
  split; [unfold keys; now apply public_keys_NoDup |].
  split; [unfold __len__, keys; now rewrite length_map |].
  split.
  - intros Hoff. apply Xh in Hoff.
    assert (N : ~ shown P m "hash") by (unfold shown; tauto).
    split.
    { unfold __getitem__. apply first_value_hidden in N. now rewrite N. }
    split.
    { destruct (__contains__ P m (KStr "hash")) eqn:E; [| reflexivity].
      apply C in E. contradiction. }
    split.
    { intros default. apply D. right. now split. }
    split.
    { now rewrite keys_shown. }
    intros v. rewrite (to_dict_items P Hwf), items_In. tauto.
  - intros Hon v Hin.
    assert (N : ~ excluded P "hash").
    { rewrite Xh. congruence. }
    split; [now apply G |].
    split.
    { apply C. split; [| assumption].
      apply in_map_iff. now exists ("hash", v). }
    split; [intros default; apply D; now left |].
    split; [now apply items_In |].
    rewrite (to_dict_items P Hwf). now apply items_In.
Qed.

Lemma items_NoDup (P : WxParam) (m : Message) :
  wf_message m -> NoDup (map fst (items P m)).
Proof. intros H. unfold items, _iter_public_items. now apply public_keys_NoDup. Qed.

(** C5, as the code has it. [match] returns True exactly when every supplied
    condition either names a public field whose value equals the supplied
    value, or names no public field and supplies the value None: a field that
    is not shown reads as None. *)
Theorem match_iff_fields_or_none :
  forall (P : WxParam) (m : Message) (conditions : list (string * pyval)),
    wf_message m ->
    (match_ P m conditions = true <->
     forall key value, In (key, value) conditions ->
       In (key, value) (items P m) \/
       (~ In key (keys P m) /\ value = VNone)).
Proof.
  intros P m conditions Hwf. unfold match_.
  rewrite (to_dict_items P Hwf), forallb_forall.
  pose proof (items_NoDup P Hwf) as Hnd.
  split.
  - intros H key value Hin. specialize (H _ Hin). simpl in H.
    apply py_eq_true in H. unfold dict_get in H.
    destruct (first_value key (items P m)) eqn:E.
    + subst. left. now apply first_value_In.
    + right. split; [| now symmetry]. now apply first_value_None.
  - intros H [key value] Hin. simpl. apply py_eq_true. unfold dict_get.
    destruct (H _ _ Hin) as [H1 | [H1 H2]].
    + now rewrite (first_value_NoDup _ _ _ Hnd H1).
    + apply first_value_None in H1. unfold keys, items in *. now rewrite H1.
Qed.

Definition sample_param : WxParam := mkWxParam false "cn" 5.

Definition sample_message : Message :=
  mkMessage 1 [("control", VObj 7); ("id", VTuple [42; 7]%Z);
               ("content", VStr (u "hi")); ("hash", VStr (u "9a1b"))].

Lemma sample_message_wf : wf_message sample_message.
Proof.
  unfold wf_message. simpl.
  repeat constructor; simpl; intuition discriminate.
Qed.

Lemma public_view_excludes_internal_witness :
  wf_message sample_message /\
  __getitem__ sample_param sample_message "hash" = KeyError "hash" /\
  __contains__ sample_param sample_message (KStr "hash") = false /\
  In ("hash", VStr (u "9a1b")) (__dict__ sample_message).
Proof.
  split; [exact sample_message_wf |].
  destruct (@public_view_excludes_internal sample_param sample_message
              "hash" sample_message_wf)
    as [_ [_ [_ [_ [_ [_ [_ [_ [_ [_ [_ [_ [_ [_ [_ [_ [_ [_ [_ [_ [_
        [H _]]]]]]]]]]]]]]]]]]]]]].
  destruct (H eq_refl) as [H1 [H2 _]].
  split; [exact H1 |]. split; [exact H2 |].
  simpl. auto.
Defined.

Lemma match_iff_fields_or_none_witness :
  match_ sample_param sample_message [("content", VStr (u "hi"))] = true <->
  forall key value, In (key, value) [("content", VStr (u "hi"))] ->
    In (key, value) (items sample_param sample_message) \/
    (~ In key (keys sample_param sample_message) /\ value = VNone).
Proof.
  apply (@match_iff_fields_or_none sample_param sample_message
           [("content", VStr (u "hi"))] sample_message_wf).
Defined.

(** C5, as stated, fails: a condition that names a field the message does
    not show, with the value None, does not make [match] return False. *)
Lemma match_unknown_field_none :
  match_ sample_param sample_message [("sender", VNone)] = true /\
  ~ In "sender" (keys sample_param sample_message) /\
  match_ sample_param sample_message [("hash", VNone)] = true /\
  In ("hash", VStr (u "9a1b")) (__dict__ sample_message).
Proof.
  repeat split.
  - simpl. intuition discriminate.
  - simpl. auto.
Qed.

(** ** Equality and hashing *)

Lemma is_None_false (v : pyval) : is_None v = false <-> v <> VNone.
Proof. destruct v; simpl; split; congruence. Qed.

(** Two messages that both carry an external id are equal exactly when the
    ids are, whatever their other fields. *)
Lemma eq_by_id (P : WxParam) (a b : Message) :
  getattr a "id" <> VNone -> getattr b "id" <> VNone ->
  (__eq__ P a b = true <-> getattr a "id" = getattr b "id").
Proof.
  intros Ha Hb. unfold __eq__.
  apply is_None_false in Ha, Hb. rewrite Ha, Hb. simpl.
  apply py_eq_true.
Qed.

(** Without ids and with MESSAGE_HASH off, only an instance equals itself. *)
Lemma eq_by_identity (P : WxParam) (a b : Message) :
  getattr a "id" = VNone -> getattr b "id" = VNone ->
  MESSAGE_HASH P = false ->
  (__eq__ P a b = true <-> addr a = addr b).
Proof.
  intros Ha Hb Hoff. unfold __eq__. rewrite Ha, Hb, Hoff. simpl.
  unfold is_. apply Nat.eqb_eq.
Qed.

(** When both messages carry an id, or neither does, equal messages have
    equal hashes. *)
Lemma hash_follows_eq (hash : pyval -> Z) (object_hash : nat -> Z)
  (P : WxParam) (a b : Message) :
  is_None (getattr a "id") = is_None (getattr b "id") ->
  __eq__ P a b = true ->
  __hash__ hash object_hash P a = __hash__ hash object_hash P b.
Proof.
  unfold __eq__, __hash__. intros Hsame.
  rewrite <- Hsame.
  destruct (is_None (getattr a "id")); simpl.
  - destruct (MESSAGE_HASH P).
    + intros H. apply py_eq_true in H. now rewrite H.
    + unfold is_. intros H. apply Nat.eqb_eq in H. now rewrite H.
  - intros H. apply py_eq_true in H. now rewrite H.
Qed.

Definition hash_on : WxParam := mkWxParam true "cn" 5.

Definition msg_with_id : Message :=
  mkMessage 1 [("id", VTuple [42; 7]%Z); ("content", VStr (u "hi"));
               ("hash", VStr (u "9a1b"))].

Definition msg_without_id : Message :=
  mkMessage 2 [("content", VStr (u "hi")); ("hash", VStr (u "9a1b"))].

(** C4 at the input where it fails.  With MESSAGE_HASH enabled, a message
    that has an id and one that has none compare equal as soon as their
    content hashes agree, yet [__hash__] hashes the id of the first and the
    content hash of the second: the two hashes agree only if [hash] happens to
    collide on these two unrelated values. *)
Theorem eq_with_unrelated_hashes :
  forall (hash : pyval -> Z) (object_hash : nat -> Z),
    __eq__ hash_on msg_with_id msg_without_id = true /\
    __hash__ hash object_hash hash_on msg_with_id = hash (VTuple [42; 7]%Z) /\
    __hash__ hash object_hash hash_on msg_without_id = hash (VStr (u "9a1b")) /\
    (hash (VTuple [42; 7]%Z) <> hash (VStr (u "9a1b")) ->
     __hash__ hash object_hash hash_on msg_with_id <>
     __hash__ hash object_hash hash_on msg_without_id).
Proof.
  intros hash object_hash. repeat split. intros H. exact H.
Qed.

End MsgFacts.

(* ===================================================================== *)
(** * Properties of the matcher and of the moments parser *)
(* ===================================================================== *)

Module RegexFacts.
Import PyStr Regex.

(** [s'] is what is left of [s] after some prefix. *)
Definition suffix (s' s : ustr) : Prop := exists pre, s = pre ++ s'.

Lemma suffix_refl (s : ustr) : suffix s s.
Proof. now exists []. Qed.

Lemma suffix_cons (c : char) (s' s : ustr) : suffix s' s -> suffix s' (c :: s).
Proof. intros [pre ->]. now exists (c :: pre). Qed.

Lemma suffix_trans (a b c : ustr) : suffix a b -> suffix b c -> suffix a c.
Proof.
  intros [p ->] [q ->]. exists (q ++ p). now rewrite app_assoc.
Qed.

Lemma suffix_skipn (n : nat) (s : ustr) : suffix (skipn n s) s.
Proof. exists (firstn n s). now rewrite firstn_skipn. Qed.

Lemma suffix_length (s' s : ustr) : suffix s' s -> length s' <= length s.
Proof. intros [pre ->]. rewrite length_app. lia. Qed.

Lemma firstn_app_exact (a b : ustr) :
  firstn (length (a ++ b) - length b) (a ++ b) = a.
Proof.
  rewrite length_app, Nat.add_sub.
  rewrite firstn_app, Nat.sub_diag, firstn_all. simpl. apply app_nil_r.
Qed.

(** ** Greedy runs *)

(** When the whole run can be taken and the rest of the pattern accepts what
    follows it, that is the match. *)
Lemma star_greedy_all (p : char -> bool) (a rest : ustr)
  (k : ustr -> option groups) (g : groups) :
  forallb p a = true ->
  match rest with [] => true | c :: _ => negb (p c) end = true ->
  k rest = Some g ->
  star_greedy p (a ++ rest) k = Some g.
Proof.
  intros Ha Hrest Hk. induction a as [| x a IH]; simpl.
  - destruct rest as [| c rest']; simpl; [assumption |].
    apply negb_true_iff in Hrest. now rewrite Hrest.
  - simpl in Ha. apply andb_true_iff in Ha as [Hx Ha].
    now rewrite Hx, (IH Ha).
Qed.

(** A greedy run fails when the rest of the pattern fails after every
    prefix of the run. *)
Lemma star_greedy_none (p : char -> bool) (s : ustr)
  (k : ustr -> option groups) :
  (forall w1 w2, s = w1 ++ w2 -> forallb p w1 = true -> k w2 = None) ->
  star_greedy p s k = None.
Proof.
  induction s as [| c s IH]; intros H; simpl.
  - now apply (H [] []).
  - assert (Hs : k (c :: s) = None) by now apply (H [] (c :: s)).
    destruct (p c) eqn:Hc; [| assumption].
    rewrite IH; [assumption |].
    intros w1 w2 -> Hw. apply (H (c :: w1) w2); [reflexivity |].
    simpl. now rewrite Hc.
Qed.

(** ** Lazy runs *)

Lemma star_lazy_here (p : char -> bool) (s : ustr)
  (k : ustr -> option groups) (g : groups) :
  k s = Some g -> star_lazy p s k = Some g.
Proof. intros H. destruct s; simpl; now rewrite H. Qed.

(** A lazy run moves on over the characters after which the rest of the
    pattern fails. *)
Lemma star_lazy_skip (p : char -> bool) (a rest : ustr)
  (k : ustr -> option groups) :
  forallb p a = true ->
  (forall a1 a2, a = a1 ++ a2 -> a2 <> [] -> k (a2 ++ rest) = None) ->
  star_lazy p (a ++ rest) k = star_lazy p rest k.
Proof.
  induction a as [| x a IH]; intros Ha H; [reflexivity |].
  simpl in Ha. apply andb_true_iff in Ha as [Hx Ha].
  assert (H0 : k ((x :: a) ++ rest) = None)
    by (apply (H [] (x :: a)); [reflexivity | discriminate]).
  simpl in *. rewrite H0, Hx. apply IH; [assumption |].
  intros a1 a2 -> Hne. now apply (H (x :: a1) a2).
Qed.

Lemma star_lazy_none (p : char -> bool) (s : ustr)
  (k : ustr -> option groups) :
  (forall s', suffix s' s -> k s' = None) ->
  star_lazy p s k = None.
Proof.
  induction s as [| c s IH]; intros H; simpl.
  - now rewrite (H [] (suffix_refl _)).
  - rewrite (H (c :: s) (suffix_refl _)).
    destruct (p c); [| reflexivity].
    apply IH. intros s' Hs. apply H. now apply suffix_cons.
Qed.

Lemma star_greedy_none_suffix (p : char -> bool) (s : ustr)
  (k : ustr -> option groups) :
  (forall s', suffix s' s -> k s' = None) ->
  star_greedy p s k = None.
Proof.
  intros H. apply star_greedy_none. intros w1 w2 -> _.
  apply H. now exists w1.
Qed.

(** The matcher hands only suffixes of its input to the continuation; so a
    continuation that fails on all of them makes the match fail. *)
Lemma rmatch_none_suffix (r : regex) :
  forall (s : ustr) (g : groups) (k : ustr -> groups -> option groups),
    (forall s' g', suffix s' s -> k s' g' = None) ->
    rmatch r s g k = None.
Proof.
  induction r as [p | l | r1 IH1 r2 IH2 | r1 IH1 | p | p | p | name r1 IH1 |];
    intros s g k H; simpl.
  - destruct s as [| c s']; [reflexivity |].
    destruct (p c); [| reflexivity].
    apply H. apply suffix_cons, suffix_refl.
  - destruct (startswith l s); [| reflexivity].
    apply H, suffix_skipn.
  - apply IH1. intros s1 g1 Hs1. apply IH2.
    intros s2 g2 Hs2. apply H. eapply suffix_trans; eassumption.
  - rewrite IH1 by assumption. apply H, suffix_refl.
  - apply star_greedy_none_suffix. intros s' Hs. now apply H.
  - destruct s as [| c s']; [reflexivity |].
    destruct (p c); [| reflexivity].
    apply star_greedy_none_suffix. intros s'' Hs. apply H.
    now apply suffix_cons.
  - destruct s as [| c s']; [reflexivity |].
    destruct (p c); [| reflexivity].
    apply star_lazy_none. intros s'' Hs. apply H. now apply suffix_cons.
  - apply IH1. intros s1 g1 Hs1. now apply H.
  - destruct s as [| c [| c' s']].
    + apply H, suffix_refl.
    + destruct (c =? NL)%N; [| reflexivity]. apply H, suffix_refl.
    + reflexivity.
Qed.

(** ** The matcher, construct by construct *)

Lemma startswith_app (l s : ustr) : startswith l (l ++ s) = true.
Proof.
  induction l as [| a l IH]; simpl; [reflexivity |].
  now rewrite N.eqb_refl, IH.
Qed.

Lemma skipn_app_exact (l s : ustr) : skipn (length l) (l ++ s) = s.
Proof. induction l; simpl; auto. Qed.

Lemma rmatch_seq (r1 r2 : regex) (s : ustr) (g : groups)
  (k : ustr -> groups -> option groups) :
  rmatch (Seq r1 r2) s g k = rmatch r1 s g (fun s1 g1 => rmatch r2 s1 g1 k).
Proof. reflexivity. Qed.

Lemma rmatch_group (name : string) (r : regex) (s : ustr) (g : groups)
  (k : ustr -> groups -> option groups) :
  rmatch (Group name r) s g k =
  rmatch r s g
    (fun s1 g1 => k s1 ((name, firstn (length s - length s1) s) :: g1)).
Proof. reflexivity. Qed.

Lemma rmatch_lit_app (l s : ustr) (g : groups)
  (k : ustr -> groups -> option groups) :
  rmatch (Lit l) (l ++ s) g k = k s g.
Proof. simpl. now rewrite startswith_app, skipn_app_exact. Qed.

Lemma rmatch_lit_fail (l s : ustr) (g : groups)
  (k : ustr -> groups -> option groups) :
  startswith l s = false -> rmatch (Lit l) s g k = None.
Proof. simpl. now intros ->. Qed.

Lemma rmatch_opt_some (r : regex) (s : ustr) (g g' : groups)
  (k : ustr -> groups -> option groups) :
  rmatch r s g k = Some g' -> rmatch (Opt r) s g k = Some g'.
Proof. simpl. now intros ->. Qed.

Lemma rmatch_opt_none (r : regex) (s : ustr) (g : groups)
  (k : ustr -> groups -> option groups) :
  rmatch r s g k = None -> rmatch (Opt r) s g k = k s g.
Proof. simpl. now intros ->. Qed.

Definition head_not (p : char -> bool) (s : ustr) : bool :=
  match s with [] => true | c :: _ => negb (p c) end.

Lemma rmatch_star_all (p : char -> bool) (a rest : ustr) (g g' : groups)
  (k : ustr -> groups -> option groups) :
  forallb p a = true -> head_not p rest = true ->
  k rest g = Some g' ->
  rmatch (Star p) (a ++ rest) g k = Some g'.
Proof. intros Ha Hr Hk. simpl. now apply star_greedy_all. Qed.

Lemma rmatch_star_none (p : char -> bool) (s : ustr) (g : groups)
  (k : ustr -> groups -> option groups) :
  (forall w1 w2, s = w1 ++ w2 -> forallb p w1 = true -> k w2 g = None) ->
  rmatch (Star p) s g k = None.
Proof. intros H. simpl. now apply star_greedy_none. Qed.

(** A lazy run stops at the first place, after at least one character,
    where the rest of the pattern matches. *)
Lemma rmatch_pluslazy_stop (p : char -> bool) (a rest : ustr) (g g' : groups)
  (k : ustr -> groups -> option groups) :
  a <> [] -> forallb p a = true ->
  (forall a1 a2, a = a1 ++ a2 -> a1 <> [] -> a2 <> [] ->
     k (a2 ++ rest) g = None) ->
  k rest g = Some g' ->
  rmatch (PlusLazy p) (a ++ rest) g k = Some g'.
Proof.
  intros Hne Ha Hfail Hk. destruct a as [| x a]; [congruence |].
  simpl in Ha. apply andb_true_iff in Ha as [Hx Ha].
  simpl. rewrite Hx.
  rewrite star_lazy_skip; [now apply star_lazy_here | assumption |].
  intros a1 a2 -> Hne2. apply (Hfail (x :: a1) a2); auto. discriminate.
Qed.

End RegexFacts.

Module MomentsFacts.
Import PyStr Param Regex Moments RegexFacts.

(** ** Shapes of names and contents *)

Definition starts_space (s : ustr) : bool :=
  match s with c :: _ => isspace c | [] => false end.
Definition ends_space (s : ustr) : bool := starts_space (rev s).
Definition colon_free (s : ustr) : bool := forallb not_colon s.
Definition one_line (s : ustr) : bool := forallb not_newline s.

(** The reply marker occurs in [s] after the first character of [s]. *)
Definition marker_after_first (s : ustr) : bool :=
  contains (u "回复") (tl s).

(** The reply marker occurs in [s] after the first character of [s] and
    before the last one. *)
Definition marker_inside (s : ustr) : bool :=
  contains (u "回复") (tl (removelast s)).

(** A name as it stands before the colon: not empty, no colon in it, no
    white space around it. *)
Definition name_ok (s : ustr) : bool :=
  nonempty s && negb (starts_space s) && negb (ends_space s) && colon_free s.

(** ** Stripping *)

Lemma dropWhile_app_stop (p : char -> bool) (x y : ustr) :
  match y with c :: _ => p c = false | [] => False end ->
  dropWhile p (x ++ y) = dropWhile p x ++ y.
Proof.
  intros Hy. induction x as [| a x IH]; simpl.
  - destruct y as [| c y]; [contradiction |]. simpl. now rewrite Hy.
  - destruct (p a); [assumption | reflexivity].
Qed.

Lemma dropWhile_id (p : char -> bool) (s : ustr) :
  match s with c :: _ => p c = false | [] => True end -> dropWhile p s = s.
Proof. destruct s as [| c s]; simpl; [reflexivity |]. now intros ->. Qed.

Lemma lstrip_id (s : ustr) : starts_space s = false -> lstrip s = s.
Proof.
  intros H. apply dropWhile_id. destruct s; [exact I | exact H].
Qed.

Lemma rstrip_id (s : ustr) : ends_space s = false -> rstrip s = s.
Proof.
  intros H. unfold rstrip. rewrite dropWhile_id.
  - apply rev_involutive.
  - unfold ends_space in H. destruct (rev s); [exact I | exact H].
Qed.

Lemma strip_id (s : ustr) :
  starts_space s = false -> ends_space s = false -> strip s = s.
Proof.
  intros H1 H2. unfold strip. rewrite (lstrip_id _ H1). now apply rstrip_id.
Qed.

Lemma ends_space_app (x y : ustr) :
  y <> [] -> ends_space (x ++ y) = ends_space y.
Proof.
  intros Hy. unfold ends_space. rewrite rev_app_distr.
  destruct (rev y) as [| c r] eqn:E; [| reflexivity].
  exfalso. apply Hy. apply (f_equal (@rev char)) in E.
  now rewrite rev_involutive in E.
Qed.

Lemma starts_space_app (x y : ustr) :
  x <> [] -> starts_space (x ++ y) = starts_space x.
Proof. destruct x; [congruence | reflexivity]. Qed.

Lemma dropWhile_head (p : char -> bool) (s : ustr) :
  match dropWhile p s with c :: _ => p c = false | [] => True end.
Proof.
  induction s as [| a s IH]; simpl; [exact I |].
  destruct (p a) eqn:E; [assumption | exact E].
Qed.

Lemma dropWhile_suffix (p : char -> bool) (s : ustr) :
  suffix (dropWhile p s) s.
Proof.
  induction s as [| a s IH]; simpl; [apply suffix_refl |].
  destruct (p a); [now apply suffix_cons | apply suffix_refl].
Qed.

Lemma strip_trimmed (s : ustr) :
  starts_space (strip s) = false /\ ends_space (strip s) = false.
Proof.
  unfold strip, rstrip, lstrip. split.
  - pose proof (dropWhile_head isspace s) as Hh.
    destruct (dropWhile_suffix isspace (rev (dropWhile isspace s))) as [pre E].
    apply (f_equal (@rev char)) in E.
    rewrite rev_involutive, rev_app_distr in E.
    rewrite E in Hh.
    destruct (rev (dropWhile isspace (rev (dropWhile isspace s)))) as [| c r];
      [reflexivity | exact Hh].
  - unfold ends_space. rewrite rev_involutive.
    pose proof (dropWhile_head isspace (rev (dropWhile isspace s))) as Hh.
    destruct (dropWhile isspace (rev (dropWhile isspace s)));
      [reflexivity | exact Hh].
Qed.

Lemma strip_idempotent (s : ustr) : strip (strip s) = strip s.
Proof. destruct (strip_trimmed s). now apply strip_id. Qed.

Lemma forallb_suffix (p : char -> bool) (s' s : ustr) :
  suffix s' s -> forallb p s = true -> forallb p s' = true.
Proof.
  intros [pre ->]. rewrite forallb_app. intros H.
  now apply andb_true_iff in H.
Qed.

Lemma forallb_rev (p : char -> bool) (s : ustr) :
  forallb p (rev s) = forallb p s.
Proof.
  induction s as [| a s IH]; [reflexivity |].
  simpl. rewrite forallb_app, IH. simpl. rewrite andb_true_r. apply andb_comm.
Qed.

Lemma forallb_strip (p : char -> bool) (s : ustr) :
  forallb p s = true -> forallb p (strip s) = true.
Proof.
  intros H. unfold strip, rstrip, lstrip.
  rewrite forallb_rev.
  eapply forallb_suffix; [apply dropWhile_suffix |].
  rewrite forallb_rev.
  eapply forallb_suffix; [apply dropWhile_suffix | exact H].
Qed.

Lemma dropWhile_all (p : char -> bool) (s : ustr) :
  forallb p s = true -> dropWhile p s = [].
Proof.
  induction s as [| c s IH]; simpl; [reflexivity |].
  intros H. apply andb_true_iff in H as [Hc Hs]. now rewrite Hc, IH.
Qed.

Lemma rstrip_app (L rest : ustr) :
  L <> [] -> ends_space L = false -> rstrip (L ++ rest) = L ++ rstrip rest.
Proof.
  intros Hne He. unfold rstrip. rewrite rev_app_distr.
  rewrite dropWhile_app_stop.
  - now rewrite rev_app_distr, rev_involutive.
  - unfold ends_space in He. destruct (rev L) as [| c r] eqn:E; [| exact He].
    apply (f_equal (@rev char)) in E. rewrite rev_involutive in E.
    simpl in E. congruence.
Qed.

Lemma forallb_rstrip (p : char -> bool) (s : ustr) :
  forallb p s = true -> forallb p (rstrip s) = true.
Proof.
  intros H. unfold rstrip. rewrite forallb_rev.
  eapply forallb_suffix; [apply dropWhile_suffix |]. now rewrite forallb_rev.
Qed.

Lemma lstrip_spaces (w x : ustr) :
  forallb isspace w = true -> lstrip (w ++ x) = lstrip x.
Proof.
  unfold lstrip. induction w as [| c w IH]; simpl; [reflexivity |].
  intros H. apply andb_true_iff in H as [Hc Hw]. now rewrite Hc, IH.
Qed.

Lemma rstrip_spaces (x w : ustr) :
  forallb isspace w = true -> rstrip (x ++ w) = rstrip x.
Proof.
  intros H. unfold rstrip. rewrite rev_app_distr.
  fold (lstrip (rev w ++ rev x)). rewrite lstrip_spaces; [reflexivity |].
  now rewrite forallb_rev.
Qed.

Lemma dropWhile_split (p : char -> bool) (s : ustr) :
  exists w, s = w ++ dropWhile p s /\ forallb p w = true.
Proof.
  induction s as [| c s [w [E H]]]; simpl.
  - now exists [].
  - destruct (p c) eqn:Hc.
    + exists (c :: w). simpl. rewrite Hc. split; [now f_equal | assumption].
    + now exists [].
Qed.

(** What [rstrip] takes away is white space. *)
Lemma rstrip_split (s : ustr) :
  exists w, s = rstrip s ++ w /\ forallb isspace w = true.
Proof.
  unfold rstrip. destruct (dropWhile_split isspace (rev s)) as [w [E H]].
  exists (rev w). split; [| now rewrite forallb_rev].
  rewrite <- rev_app_distr, <- E. now rewrite rev_involutive.
Qed.

Lemma dropWhile_app_keep (p : char -> bool) (x y : ustr) :
  dropWhile p x <> [] -> dropWhile p (x ++ y) = dropWhile p x ++ y.
Proof.
  induction x as [| a x IH]; simpl; [congruence |].
  destruct (p a); [assumption | reflexivity].
Qed.

(** Stripping on the right first changes nothing. *)
Lemma strip_rstrip (s : ustr) : strip (rstrip s) = strip s.
Proof.
  destruct (rstrip_split s) as [w [E Hw]].
  unfold strip.
  destruct (lstrip (rstrip s)) as [| x l] eqn:L.
  - rewrite E. unfold lstrip in *.
    destruct (dropWhile_split isspace (rstrip s)) as [w' [E' Hw']].
    rewrite L, app_nil_r in E'.
    assert (A : forallb isspace (rstrip s ++ w) = true).
    { rewrite forallb_app, E', Hw'. exact Hw. }
    rewrite (dropWhile_all _ _ A). reflexivity.
  - rewrite E. unfold lstrip in *.
    rewrite dropWhile_app_keep by (rewrite L; discriminate).
    rewrite L. fold (rstrip ((x :: l) ++ w)). now rewrite rstrip_spaces.
Qed.

(** A text that starts with white space, then a part that does not, then
    a character that is no white space: stripping takes the white space in
    front and the white space at the end. *)
Lemma strip_shape (ws0 X C : ustr) (c : char) :
  forallb isspace ws0 = true ->
  X <> [] -> starts_space X = false -> isspace c = false ->
  strip (ws0 ++ X ++ c :: C) = X ++ c :: rstrip C.
Proof.
  intros H0 Hne Hs Hc. unfold strip.
  rewrite lstrip_spaces by assumption.
  rewrite lstrip_id by now rewrite starts_space_app.
  replace (X ++ c :: C) with ((X ++ [c]) ++ C)
    by (now rewrite <- app_assoc).
  rewrite rstrip_app.
  - now rewrite <- app_assoc.
  - now destruct X.
  - rewrite ends_space_app by discriminate.
    unfold ends_space. simpl. exact Hc.
Qed.

(** ** The pattern of [from_text], piece by piece *)

Definition re_tail : regex :=
  Seq (Chr is_colon) (Seq (Group "content" (Star not_newline)) Eos).

Definition re_reply : regex :=
  Seq (Lit (u "回复"))
 (Seq (Star isspace)
 (Seq (Group "reply" (PlusLazy not_colon)) (Star isspace))).

Definition finish : ustr -> groups -> option groups := fun _ g => Some g.

Lemma comment_re_pieces :
  comment_re =
  Seq (Group "author" (PlusLazy not_colon))
      (Seq (Star isspace) (Seq (Opt re_reply) re_tail)).
Proof. reflexivity. Qed.

Lemma colon_not_space (c : char) : is_colon c = true -> isspace c = false.
Proof.
  unfold is_colon. simpl. rewrite !orb_true_iff.
  intros [H | [H | H]]; try discriminate;
    apply N.eqb_eq in H; subst; reflexivity.
Qed.

Lemma colon_not_marker (c : char) (s : ustr) :
  is_colon c = true -> startswith (u "回复") (c :: s) = false.
Proof.
  unfold is_colon. simpl. rewrite !orb_true_iff.
  intros [H | [H | H]]; try discriminate;
    apply N.eqb_eq in H; subst; reflexivity.
Qed.

Lemma tail_ok (c : char) (C : ustr) (g : groups) :
  is_colon c = true -> one_line C = true ->
  rmatch re_tail (c :: C) g finish = Some (("content"%string, C) :: g).
Proof.
  intros Hc HC. unfold re_tail. cbn [rmatch]. rewrite Hc.
  pose proof (@star_greedy_all not_newline C []
    (fun s' => match s' with
               | [] => finish s' (("content"%string, firstn (length C - length s') C) :: g)
               | [c0] => if (c0 =? NL)%N
                         then finish s' (("content"%string, firstn (length C - length s') C) :: g)
                         else None
               | _ => None
               end)
    (("content"%string, C) :: g) HC eq_refl) as H.
  rewrite app_nil_r in H. apply H.
  unfold finish. simpl. now rewrite Nat.sub_0_r, firstn_all.
Qed.

Lemma tail_fail (x : char) (s : ustr) (g : groups)
  (k : ustr -> groups -> option groups) :
  is_colon x = false -> rmatch re_tail (x :: s) g k = None.
Proof. intros H. unfold re_tail. cbn [rmatch]. now rewrite H. Qed.

(** White space taken from the front of a name that does not end in white
    space leaves a non-empty part of the name. *)
Lemma stuck_in_name (w1 : ustr) :
  forall (b2 Y w2 : ustr),
    b2 <> [] -> ends_space b2 = false ->
    b2 ++ Y = w1 ++ w2 -> forallb isspace w1 = true ->
    exists b3, b3 <> [] /\ suffix b3 b2 /\ w2 = b3 ++ Y.
Proof.
  induction w1 as [| x w1 IH]; intros b2 Y w2 Hne Hend E Hw.
  - exists b2. repeat split; [assumption | apply suffix_refl | now symmetry].
  - destruct b2 as [| y b2]; [congruence |].
    simpl in E. injection E as -> E.
    simpl in Hw. apply andb_true_iff in Hw as [Hx Hw].
    destruct b2 as [| z b2].
    + unfold ends_space in Hend. simpl in Hend. congruence.
    + assert (Hend' : ends_space (z :: b2) = false).
      { change (x :: z :: b2) with ([x] ++ z :: b2) in Hend.
        rewrite ends_space_app in Hend; [assumption | discriminate]. }
      destruct (IH (z :: b2) Y w2) as [b3 [H1 [H2 H3]]];
        try assumption; try discriminate.
      exists b3. repeat split; try assumption. now apply suffix_cons.
Qed.

Lemma suffix_nonempty_ends (a1 a2 : ustr) :
  a2 <> [] -> ends_space (a1 ++ a2) = false -> ends_space a2 = false.
Proof. intros H. now rewrite ends_space_app. Qed.

Lemma name_ok_inv (s : ustr) :
  name_ok s = true ->
  s <> [] /\ starts_space s = false /\ ends_space s = false /\
  colon_free s = true.
Proof.
  unfold name_ok. rewrite !andb_true_iff, !negb_true_iff.
  intros [[[H1 H2] H3] H4]. repeat split; try assumption.
  destruct s; [discriminate | discriminate].
Qed.

Lemma colon_free_head (x : char) (s s0 : ustr) :
  colon_free s0 = true -> suffix (x :: s) s0 -> is_colon x = false.
Proof.
  intros H Hs. apply (@forallb_suffix not_colon _ _ Hs) in H.
  simpl in H. apply andb_true_iff in H as [H _].
  unfold not_colon in H. now apply negb_true_iff in H.
Qed.

Lemma reply_ok (B ws2 ws3 C : ustr) (c : char) (g : groups) :
  name_ok B = true ->
  forallb isspace ws2 = true -> forallb isspace ws3 = true ->
  is_colon c = true -> one_line C = true ->
  rmatch re_reply (u "回复" ++ ws2 ++ B ++ ws3 ++ c :: C) g
         (fun s g => rmatch re_tail s g finish)
  = Some (("content"%string, C) :: ("reply"%string, B) :: g).
Proof.
  intros HB H2 H3 Hc HC.
  apply name_ok_inv in HB as [Bne [Bs [Be Bc]]].
  unfold re_reply.
  rewrite rmatch_seq, rmatch_lit_app, rmatch_seq.
  apply rmatch_star_all; [assumption | |].
  { destruct B as [| y B]; [congruence |]. simpl in *. now rewrite Bs. }
  rewrite rmatch_seq, rmatch_group.
  apply rmatch_pluslazy_stop; try assumption.
  - intros b1 b2 -> Hb1 Hb2.
    apply rmatch_star_none. intros w1 w2 E Hw.
    destruct (@stuck_in_name w1 b2 (ws3 ++ c :: C) w2) as [b3 [N3 [S3 ->]]];
      try assumption.
    { eapply suffix_nonempty_ends; eassumption. }
    destruct b3 as [| x b3]; [congruence |].
    apply tail_fail. eapply colon_free_head; [exact Bc |].
    eapply suffix_trans; [exact S3 |]. now exists b1.
  - rewrite firstn_app_exact.
    apply rmatch_star_all; [assumption | |].
    + simpl. now rewrite (colon_not_space _ Hc).
    + now apply tail_ok.
Qed.

Lemma contains_false_suffix (sub s' s : ustr) :
  contains sub s = false -> suffix s' s -> startswith sub s' = false.
Proof.
  intros H [pre ->]. induction pre as [| x pre IH].
  - destruct s'; simpl in H; now apply orb_false_iff in H.
  - apply IH. simpl in H. now apply orb_false_iff in H.
Qed.

(** The first character of what follows a name is white space, the start
    of the marker or a colon; it is never the marker's second character. *)
Definition not_marker_tail (Z : ustr) : bool :=
  match Z with [] => true | c :: _ => negb (c =? 22797)%N end.

Lemma marker_codes : u "回复" = [22238%N; 22797%N].
Proof. reflexivity. Qed.

Lemma marker_not_inside (a3 Z : ustr) :
  a3 <> [] -> startswith (u "回复") a3 = false -> not_marker_tail Z = true ->
  startswith (u "回复") (a3 ++ Z) = false.
Proof.
  rewrite marker_codes. intros Hne Hs HZ.
  destruct a3 as [| x [| y a3]]; [congruence | |]; cbn [startswith app] in *.
  - destruct (22238 =? x)%N; [| reflexivity]. cbn [andb].
    destruct Z as [| z Z]; [reflexivity |]. cbn [not_marker_tail] in HZ.
    apply negb_true_iff in HZ. rewrite N.eqb_sym in HZ. now rewrite HZ.
  - destruct (22238 =? x)%N; [| reflexivity].
    destruct (22797 =? y)%N; [discriminate | reflexivity].
Qed.

Lemma contains_intro (sub pre s : ustr) :
  startswith sub s = true -> contains sub (pre ++ s) = true.
Proof.
  intros H. induction pre as [| x pre IH]; simpl.
  - destruct s; simpl; now rewrite H.
  - rewrite IH. apply orb_true_r.
Qed.

Lemma marker_inside_intro (p rest : ustr) :
  p <> [] -> rest <> [] -> marker_inside (p ++ u "回复" ++ rest) = true.
Proof.
  intros Hp Hr. destruct p as [| x p]; [congruence |].
  destruct (exists_last Hr) as [rest' [y ->]].
  unfold marker_inside.
  replace ((x :: p) ++ u "回复" ++ rest' ++ [y])
    with ((x :: p ++ u "回复" ++ rest') ++ [y])
    by (simpl; now rewrite <- !app_assoc).
  rewrite removelast_last. cbn [tl].
  apply contains_intro. apply startswith_app.
Qed.

Lemma marker_start (s : ustr) :
  startswith (u "回复") s = true -> exists rest, s = u "回复" ++ rest.
Proof.
  rewrite marker_codes. destruct s as [| x [| y s]]; cbn [startswith];
    try discriminate.
  - now rewrite andb_false_r.
  - intros H. apply andb_true_iff in H as [Hx H].
    apply andb_true_iff in H as [Hy _].
    apply N.eqb_eq in Hx, Hy. subst. now exists s.
Qed.

(** After the marker, a colon at once: no reply can be read. *)
Lemma reply_stuck (c : char) (C : ustr) (g : groups)
  (k : ustr -> groups -> option groups) :
  is_colon c = true -> rmatch re_reply (u "回复" ++ c :: C) g k = None.
Proof.
  intros Hc. unfold re_reply.
  rewrite rmatch_seq, rmatch_lit_app, rmatch_seq.
  apply rmatch_star_none. intros w1 w2 E Hw.
  destruct w1 as [| x w1].
  - simpl in E. subst w2. rewrite rmatch_seq, rmatch_group.
    cbn [rmatch]. unfold not_colon. now rewrite Hc.
  - injection E as <- _. simpl in Hw. apply andb_true_iff in Hw as [Hx _].
    rewrite (colon_not_space _ Hc) in Hx. discriminate.
Qed.

(** While the author is being read, no place inside the name lets the rest
    of the pattern match, as long as no reply can be read there. *)
Lemma author_not_shorter (A a1 a2 Z : ustr) (g : groups) :
  A = a1 ++ a2 -> a2 <> [] ->
  ends_space A = false -> colon_free A = true ->
  (forall a3, a3 <> [] -> suffix a3 a2 ->
     rmatch re_reply (a3 ++ Z) g (fun s g' => rmatch re_tail s g' finish)
     = None) ->
  rmatch (Seq (Star isspace) (Seq (Opt re_reply) re_tail)) (a2 ++ Z) g finish
  = None.
Proof.
  intros -> Hne He Hc Hr.
  rewrite rmatch_seq. apply rmatch_star_none. intros w1 w2 E Hw.
  destruct (@stuck_in_name w1 a2 Z w2) as [a3 [N3 [S3 ->]]]; try assumption.
  { eapply suffix_nonempty_ends; eassumption. }
  assert (S : suffix a3 (a1 ++ a2)).
  { eapply suffix_trans; [exact S3 |]. now exists a1. }
  rewrite rmatch_seq, rmatch_opt_none by now apply Hr.
  destruct a3 as [| x a3]; [congruence |].
  apply tail_fail. eapply colon_free_head; [exact Hc | exact S].
Qed.

Lemma space_not_marker_tail (ws Z : ustr) :
  forallb isspace ws = true -> not_marker_tail Z = true ->
  not_marker_tail (ws ++ Z) = true.
Proof.
  intros Hw HZ. destruct ws as [| w ws]; [exact HZ |].
  simpl in Hw. apply andb_true_iff in Hw as [Hw _].
  simpl. destruct (w =? 22797)%N eqn:E'; [| reflexivity].
  apply N.eqb_eq in E'. subst. discriminate.
Qed.

Lemma comment_match_reply (A B C ws1 ws2 ws3 : ustr) (c : char) :
  name_ok A = true -> marker_after_first A = false -> name_ok B = true ->
  forallb isspace ws1 = true -> forallb isspace ws2 = true ->
  forallb isspace ws3 = true ->
  is_colon c = true -> one_line C = true ->
  re_match comment_re (A ++ ws1 ++ u "回复" ++ ws2 ++ B ++ ws3 ++ c :: C)
  = Some [("content"%string, C); ("reply"%string, B); ("author"%string, A)].
Proof.
  intros HA Hm HB H1 H2 H3 Hc HC.
  apply name_ok_inv in HA as [Ane [As [Ae Ac]]].
  unfold re_match. fold finish.
  rewrite comment_re_pieces, rmatch_seq, rmatch_group.
  apply rmatch_pluslazy_stop; try assumption.
  - intros a1 a2 E Hne1 Hne. eapply author_not_shorter; try eassumption.
    intros a3 N3 S3. unfold re_reply. rewrite rmatch_seq.
    apply rmatch_lit_fail. apply marker_not_inside; [assumption | |].
    + unfold marker_after_first in Hm.
      eapply contains_false_suffix; [exact Hm |].
      destruct a1 as [| x a1]; [congruence |]. subst A. cbn [app tl].
      eapply suffix_trans; [exact S3 |]. now exists a1.
    + now apply space_not_marker_tail.
  - rewrite firstn_app_exact, rmatch_seq.
    apply rmatch_star_all; [assumption | reflexivity |].
    rewrite rmatch_seq. apply rmatch_opt_some. now apply reply_ok.
Qed.

Lemma comment_match_plain (A C ws : ustr) (c : char) :
  name_ok A = true -> marker_inside (A ++ ws) = false ->
  forallb isspace ws = true ->
  is_colon c = true -> one_line C = true ->
  re_match comment_re (A ++ ws ++ c :: C)
  = Some [("content"%string, C); ("author"%string, A)].
Proof.
  intros HA Hm Hw Hc HC.
  apply name_ok_inv in HA as [Ane [As [Ae Ac]]].
  unfold re_match. fold finish.
  rewrite comment_re_pieces, rmatch_seq, rmatch_group.
  assert (HZ : not_marker_tail (ws ++ c :: C) = true).
  { apply space_not_marker_tail; [assumption |].
    simpl. destruct (c =? 22797)%N eqn:E'; [| reflexivity].
    apply N.eqb_eq in E'. subst. discriminate. }
  apply rmatch_pluslazy_stop; try assumption.
  - intros a1 a2 E Hne1 Hne. eapply author_not_shorter; try eassumption.
    intros a3 N3 [pre S3].
    destruct (startswith (u "回复") a3) eqn:Es.
    + apply marker_start in Es as [rest ->].
      destruct rest as [| r rest].
      * destruct ws as [| w ws]; [now apply reply_stuck |].
        exfalso. subst A a2.
        replace ((a1 ++ pre ++ u "回复" ++ []) ++ w :: ws)
          with ((a1 ++ pre) ++ u "回复" ++ w :: ws) in Hm
          by (now rewrite <- !app_assoc).
        rewrite marker_inside_intro in Hm; try discriminate.
        now destruct a1.
      * exfalso. subst A a2.
        replace ((a1 ++ pre ++ u "回复" ++ r :: rest) ++ ws)
          with ((a1 ++ pre) ++ u "回复" ++ (r :: rest) ++ ws) in Hm
          by (now rewrite <- !app_assoc).
        rewrite marker_inside_intro in Hm; try discriminate.
        now destruct a1.
    + unfold re_reply. rewrite rmatch_seq.
      apply rmatch_lit_fail. now apply marker_not_inside.
  - rewrite firstn_app_exact, rmatch_seq.
    apply rmatch_star_all; [assumption | |].
    { simpl. now rewrite (colon_not_space _ Hc). }
    rewrite rmatch_seq, rmatch_opt_none.
    + now apply tail_ok.
    + unfold re_reply. rewrite rmatch_seq. apply rmatch_lit_fail.
      now apply colon_not_marker.
Qed.

(** Without a colon in the text the pattern does not match. *)
Lemma comment_no_colon (T : ustr) :
  colon_free T = true -> re_match comment_re T = None.
Proof.
  intros HT. unfold re_match.
  rewrite comment_re_pieces, rmatch_seq.
  apply rmatch_none_suffix. intros s1 g1 S1.
  rewrite rmatch_seq. apply rmatch_none_suffix. intros s2 g2 S2.
  rewrite rmatch_seq. apply rmatch_none_suffix. intros s3 g3 S3.
  assert (S : suffix s3 T).
  { eapply suffix_trans; [exact S3 |]. eapply suffix_trans; eassumption. }
  destruct s3 as [| x s3]; [reflexivity |].
  apply tail_fail. eapply colon_free_head; eassumption.
Qed.

(** C2, as the code has it.  Let [A] and [B] be names (not empty, without a
    colon, without white space around them), [c] one of the two colons and
    [C] a text that is a single line once the white space at its end is
    taken away.  Then [A 回复 B c C], with any white space (or none) before
    [A], around the marker and before the colon, parses to author [A],
    reply_to [B] and content [C] stripped, provided the marker does not
    occur in [A] after its first character; [A c C] parses to author [A],
    no reply_to and content [C] stripped, provided the marker does not
    occur in what stands before the colon, after the first character and
    before the last one; in both cases the raw text is the text stripped.
    A text without any colon parses to an empty author, no reply_to and the
    stripped text as content. *)
Theorem from_text_shapes :
  forall (A B C ws0 ws1 ws2 ws3 : ustr) (c : char),
    name_ok A = true -> is_colon c = true -> one_line (rstrip C) = true ->
    forallb isspace ws0 = true -> forallb isspace ws1 = true ->
    forallb isspace ws2 = true -> forallb isspace ws3 = true ->
    (name_ok B = true -> marker_after_first A = false ->
     from_text (ws0 ++ A ++ ws1 ++ u "回复" ++ ws2 ++ B ++ ws3 ++ c :: C) =
     mkMomentComment A (strip C) (Some B)
       (A ++ ws1 ++ u "回复" ++ ws2 ++ B ++ ws3 ++ c :: rstrip C)) /\
    (marker_inside (A ++ ws3) = false ->
     from_text (ws0 ++ A ++ ws3 ++ c :: C) =
       mkMomentComment A (strip C) None (A ++ ws3 ++ c :: rstrip C)) /\
    (forall T, colon_free T = true ->
       from_text T = mkMomentComment [] (strip T) None (strip T)).
Proof.
  intros A B C ws0 ws1 ws2 ws3 c HA Hc HC H0 H1 H2 H3.
  pose proof (name_ok_inv _ HA) as [Ane [As [Ae _]]].
  pose proof (colon_not_space _ Hc) as Hcs.
  repeat split.
  - intros HB Hm. pose proof (name_ok_inv _ HB) as [Bne [Bs [Be _]]].
    unfold from_text.
    assert (E : strip (ws0 ++ A ++ ws1 ++ u "回复" ++ ws2 ++ B ++ ws3 ++
                       c :: C)
                = A ++ ws1 ++ u "回复" ++ ws2 ++ B ++ ws3 ++ c :: rstrip C).
    { replace (A ++ ws1 ++ u "回复" ++ ws2 ++ B ++ ws3 ++ c :: C)
        with ((A ++ ws1 ++ u "回复" ++ ws2 ++ B ++ ws3) ++ c :: C)
        by (now rewrite <- !app_assoc).
      rewrite strip_shape; try assumption.
      - now rewrite <- !app_assoc.
      - destruct A; [congruence | discriminate].
      - now rewrite starts_space_app. }
    rewrite E, comment_match_reply by assumption.
    cbv beta iota zeta. unfold group_or_empty.
    cbn [group String.eqb Ascii.eqb Bool.eqb]. cbv beta iota.
    rewrite (strip_id _ As Ae), (strip_id _ Bs Be), strip_rstrip.
    destruct B; [congruence | reflexivity].
  - intros Hm. unfold from_text.
    assert (E : strip (ws0 ++ A ++ ws3 ++ c :: C)
                = A ++ ws3 ++ c :: rstrip C).
    { replace (A ++ ws3 ++ c :: C) with ((A ++ ws3) ++ c :: C)
        by (now rewrite <- app_assoc).
      rewrite strip_shape; try assumption.
      - now rewrite <- !app_assoc.
      - destruct A; [congruence | discriminate].
      - now rewrite starts_space_app. }
    rewrite E, comment_match_plain by assumption.
    cbv beta iota zeta. unfold group_or_empty.
    cbn [group String.eqb Ascii.eqb Bool.eqb]. cbv beta iota.
    now rewrite (strip_id _ As Ae), strip_rstrip.
  - intros T HT. unfold from_text.
    rewrite comment_no_colon by now apply forallb_strip.
    now rewrite strip_idempotent.
Qed.

Lemma from_text_shapes_witness :
  from_text (u " 回复达人 回复 李四：你好 ") =
    mkMomentComment (u "回复达人") (u "你好") (Some (u "李四"))
      (u "回复达人 回复 李四：你好") /\
  from_text (u " 回复达人：你好 ") =
    mkMomentComment (u "回复达人") (u "你好") None (u "回复达人：你好").
Proof.
  destruct (@from_text_shapes (u "回复达人") (u "李四") (u "你好 ")
              [SPACE] [SPACE] [SPACE] [] 65306%N)
    as [H1 [H2 _]]; try reflexivity.
  split; [apply H1; reflexivity | apply H2; reflexivity].
Defined.

(** A name may end with the marker when the colon follows at once. *)
Lemma from_text_marker_at_end :
  marker_inside (u "自动回复") = false /\
  from_text (u "自动回复：你好") =
    mkMomentComment (u "自动回复") (u "你好") None (u "自动回复：你好").
Proof. split; reflexivity. Qed.

(** C2, as stated, fails: a name that contains the reply marker is cut at
    the marker, although the text has the shape [A：C] with a name [A]
    that has no colon and no white space around it. *)
Lemma from_text_marker_in_author :
  name_ok (u "自动回复机器人") = true /\
  from_text (u "自动回复机器人" ++ u "：" ++ u "你好") =
    mkMomentComment (u "自动") (u "你好") (Some (u "机器人"))
      (u "自动回复机器人：你好") /\
  mkMomentComment (u "自动") (u "你好") (Some (u "机器人"))
      (u "自动回复机器人：你好") <>
  mkMomentComment (u "自动回复机器人") (u "你好") None
      (u "自动回复机器人：你好").
Proof.
  repeat split. discriminate.
Qed.

End MomentsFacts.

(* ===================================================================== *)
(** * Properties of the parsing of likes *)
(* ===================================================================== *)

Module LikesFacts.
Import PyStr Param Regex Moments RegexFacts MomentsFacts.

Definition KEY_LIKE : ustr := u "赞".
Definition KEY_SEPARATOR : ustr := u "分隔符_点赞".

(** A key that the table does not have is returned as it is. *)
Lemma lang_missing_key (M : lang_table) (P : WxParam) (key : ustr) :
  lookup ustr_eqb key M = None -> _lang M P key = key.
Proof. unfold _lang. now intros ->. Qed.

(** So is a key whose entry has neither the language in use nor [cn]. *)
Lemma lang_missing_language (M : lang_table) (P : WxParam) (key : ustr)
  (data : list (string * ustr)) :
  lookup ustr_eqb key M = Some data ->
  lookup String.eqb (LANGUAGE P) data = None ->
  lookup String.eqb "cn"%string data = None ->
  _lang M P key = key.
Proof.
  unfold _lang. intros -> -> ->. now destruct data.
Qed.

(** A likes line with nothing after the like keyword but colons and blanks
    yields no name, whatever separator the table gives. *)
Lemma split_like_names_keyword_only (M : lang_table) (P : WxParam)
  (rest : ustr) :
  _lang M P KEY_LIKE <> [] ->
  starts_space (_lang M P KEY_LIKE) = false ->
  ends_space (_lang M P KEY_LIKE) = false ->
  forallb (fun c => mem c (u "：: ")) rest = true ->
  _split_like_names M P (_lang M P KEY_LIKE ++ rest) = [].
Proof.
  intros Hne Hs He Hrest. unfold _split_like_names. fold KEY_LIKE.
  set (L := _lang M P KEY_LIKE) in *.
  assert (Hn : nonempty (L ++ rest) = true).
  { destruct L; [congruence | reflexivity]. }
  rewrite Hn. cbn [negb].
  assert (E : strip (L ++ rest) = L ++ rstrip rest).
  { unfold strip. rewrite lstrip_id by now rewrite starts_space_app.
    now apply rstrip_app. }
  rewrite E, startswith_app, skipn_app_exact.
  unfold lstrip_chars. rewrite dropWhile_all by now apply forallb_rstrip.
  cbv zeta. now destruct (nonempty (_lang M P (u "分隔符_点赞"))).
Qed.

(** With the empty string configured as separator the names are split at
    commas and colons. *)
Lemma split_like_names_fallback (M : lang_table) (P : WxParam) :
  _lang M P KEY_LIKE = u "赞" -> _lang M P KEY_SEPARATOR = [] ->
  _split_like_names M P (u "赞: 张三, 李四") = [u "张三"; u "李四"].
Proof.
  intros H1 H2. unfold _split_like_names. fold KEY_LIKE KEY_SEPARATOR.
  rewrite H1, H2. reflexivity.
Qed.

(** With a comma configured as separator too. *)
Lemma split_like_names_comma (M : lang_table) (P : WxParam) :
  _lang M P KEY_LIKE = u "赞" -> _lang M P KEY_SEPARATOR = u "," ->
  _split_like_names M P (u "赞: 张三, 李四") = [u "张三"; u "李四"].
Proof.
  intros H1 H2. unfold _split_like_names. fold KEY_LIKE KEY_SEPARATOR.
  rewrite H1, H2. reflexivity.
Qed.

(** C9 where it fails.  When the table has no entry for the separator of
    likes, [_lang] returns the key itself, which is a non-empty string: the
    line is split at occurrences of the key's own text, the fallback on
    commas and colons is not taken, and the two names come back as one. *)
Theorem split_like_names_separator_missing :
  forall (M : lang_table) (P : WxParam),
    lookup ustr_eqb KEY_SEPARATOR M = None ->
    _lang M P KEY_LIKE = u "赞" ->
    _lang M P KEY_SEPARATOR = u "分隔符_点赞" /\
    _split_like_names M P (u "赞: 张三, 李四") = [u "张三, 李四"].
Proof.
  intros M P Hsep Hlike.
  pose proof (lang_missing_key M P KEY_SEPARATOR Hsep) as E.
  split; [exact E |].
  unfold _split_like_names. fold KEY_LIKE KEY_SEPARATOR.
  rewrite Hlike, E. reflexivity.
Qed.

Definition cn : WxParam := mkWxParam false "cn" 5.

Lemma split_like_names_separator_missing_witness :
  _lang [] cn KEY_SEPARATOR = u "分隔符_点赞" /\
  _split_like_names [] cn (u "赞: 张三, 李四") = [u "张三, 李四"].
Proof.
  apply (@split_like_names_separator_missing [] cn); reflexivity.
Defined.

End LikesFacts.

(* ===================================================================== *)
(** * Properties of the session list *)
(* ===================================================================== *)

Module SessionFacts.
Import PyStr PyText Param Regex Session RegexFacts.

(** ** Reading a successful match backwards *)

Lemma star_greedy_some (p : char -> bool) (s : ustr)
  (k : ustr -> option groups) (g : groups) :
  star_greedy p s k = Some g ->
  exists w1 w2, s = w1 ++ w2 /\ forallb p w1 = true /\ k w2 = Some g.
Proof.
  induction s as [| c s IH]; simpl; intros H.
  - exists [], []. auto.
  - destruct (p c) eqn:Hc.
    + destruct (star_greedy p s k) as [g0 |] eqn:E.
      * injection H as ->. destruct (IH eq_refl) as [w1 [w2 [-> [Hw Hk]]]].
        exists (c :: w1), w2. simpl. rewrite Hc, Hw. auto.
      * exists [], (c :: s). auto.
    + exists [], (c :: s). auto.
Qed.

Lemma startswith_true (l s : ustr) :
  startswith l s = true -> s = l ++ skipn (length l) s.
Proof.
  revert s. induction l as [| a l IH]; intros s H; [reflexivity |].
  destruct s as [| b s]; [discriminate |].
  simpl in H. apply andb_true_iff in H as [Hab Hl].
  apply N.eqb_eq in Hab. subst. simpl. f_equal. now apply IH.
Qed.

Lemma rmatch_plus_all (p : char -> bool) (a rest : ustr) (g g' : groups)
  (k : ustr -> groups -> option groups) :
  a <> [] -> forallb p a = true -> head_not p rest = true ->
  k rest g = Some g' ->
  rmatch (Plus p) (a ++ rest) g k = Some g'.
Proof.
  intros Hne Ha Hr Hk. destruct a as [| x a]; [congruence |].
  simpl in Ha. apply andb_true_iff in Ha as [Hx Ha].
  simpl. rewrite Hx. now apply star_greedy_all.
Qed.

Lemma rmatch_plus_some (p : char -> bool) (s : ustr) (g g' : groups)
  (k : ustr -> groups -> option groups) :
  rmatch (Plus p) s g k = Some g' ->
  exists a rest, s = a ++ rest /\ a <> [] /\ forallb p a = true /\
                 k rest g = Some g'.
Proof.
  simpl. destruct s as [| c s]; [discriminate |].
  destruct (p c) eqn:Hc; [| discriminate].
  intros H. apply star_greedy_some in H as [w1 [w2 [-> [Hw Hk]]]].
  exists (c :: w1), w2. simpl. rewrite Hc, Hw.
  repeat split; auto. discriminate.
Qed.

(** ** The unread-count pattern *)

Definition BRACKET : char := 91%N.
Definition UNREAD_TAIL : ustr := u "条]".

(** [line] has, after [pre], an opening bracket, the digits [ds], and the
    closing text. *)
Definition occurrence (line pre ds post : ustr) : Prop :=
  line = pre ++ BRACKET :: ds ++ UNREAD_TAIL ++ post /\
  ds <> [] /\ forallb isdigit ds = true.

Definition has_unread (line : ustr) : Prop :=
  exists pre ds post, occurrence line pre ds post.

(** The occurrence that starts first in the line. *)
Definition first_occurrence (line pre ds post : ustr) : Prop :=
  occurrence line pre ds post /\
  forall pre' ds' post',
    occurrence line pre' ds' post' -> length pre <= length pre'.

Lemma unread_match_intro (ds post : ustr) :
  ds <> [] -> forallb isdigit ds = true ->
  re_match unread_pattern (BRACKET :: ds ++ UNREAD_TAIL ++ post)
  = Some [("1"%string, ds)].
Proof.
  intros Hne Hd. unfold re_match, unread_pattern.
  rewrite rmatch_seq. cbn [rmatch]. change (91 =? BRACKET)%N with true.
  cbv iota.
  change (rmatch (Seq (Group "1" (Plus isdigit)) (Lit (u "条]")))
            (ds ++ UNREAD_TAIL ++ post) []
            (fun _ g => Some g) = Some [("1"%string, ds)]).
  rewrite rmatch_seq, rmatch_group.
  apply rmatch_plus_all; [assumption | assumption | reflexivity |].
  rewrite firstn_app_exact. now rewrite rmatch_lit_app.
Qed.

Lemma unread_match_elim (s : ustr) (g : groups) :
  re_match unread_pattern s = Some g ->
  exists ds post,
    s = BRACKET :: ds ++ UNREAD_TAIL ++ post /\ ds <> [] /\
    forallb isdigit ds = true /\ g = [("1"%string, ds)].
Proof.
  unfold re_match, unread_pattern. rewrite rmatch_seq.
  destruct s as [| c s]; [discriminate |].
  cbn [rmatch]. destruct (91 =? c)%N eqn:Hc; [| discriminate].
  apply N.eqb_eq in Hc. subst c.
  change (rmatch (Seq (Group "1" (Plus isdigit)) (Lit (u "条]"))) s []
            (fun _ g => Some g) = Some g -> 
          exists ds post,
            BRACKET :: s = BRACKET :: ds ++ UNREAD_TAIL ++ post /\ ds <> [] /\
            forallb isdigit ds = true /\ g = [("1"%string, ds)]).
  rewrite rmatch_seq, rmatch_group. intros H.
  apply rmatch_plus_some in H as [a [rest [-> [Hne [Ha H]]]]].
  rewrite firstn_app_exact in H.
  cbn [rmatch] in H.
  destruct (startswith (u "条]") rest) eqn:E; [| discriminate].
  injection H as <-. apply startswith_true in E.
  exists a, (skipn (length (u "条]")) rest).
  repeat split; try assumption. unfold UNREAD_TAIL. now rewrite <- E.
Qed.

(** ** Search: the leftmost match *)

Lemma re_search_intro (r : regex) (pre s : ustr) (g : groups) :
  (forall p1 p2, pre = p1 ++ p2 -> p2 <> [] ->
     re_match r (p2 ++ s) = None) ->
  re_match r s = Some g ->
  re_search r (pre ++ s) = Some g.
Proof.
  induction pre as [| c pre IH]; intros Hfail Hok.
  - destruct s; simpl; now rewrite Hok.
  - assert (H0 : re_match r ((c :: pre) ++ s) = None)
      by (apply (Hfail [] (c :: pre)); [reflexivity | discriminate]).
    simpl in *. rewrite H0. apply IH; [| assumption].
    intros p1 p2 -> Hne. now apply (Hfail (c :: p1) p2).
Qed.

Lemma re_search_some (r : regex) (s : ustr) (g : groups) :
  re_search r s = Some g ->
  exists pre s', s = pre ++ s' /\ re_match r s' = Some g.
Proof.
  induction s as [| c s IH]; simpl.
  - destruct (re_match r []) eqn:E; [| discriminate].
    intros [= <-]. exists [], []. auto.
  - destruct (re_match r (c :: s)) eqn:E.
    + intros [= <-]. exists [], (c :: s). auto.
    + intros H. destruct (IH H) as [pre [s' [-> Hm]]].
      exists (c :: pre), s'. auto.
Qed.

Lemma re_search_none (r : regex) (s : ustr) :
  (forall pre s', s = pre ++ s' -> re_match r s' = None) ->
  re_search r s = None.
Proof.
  induction s as [| c s IH]; intros H; simpl.
  - now rewrite (H [] [] eq_refl).
  - rewrite (H [] (c :: s) eq_refl). apply IH.
    intros pre s' ->. now apply (H (c :: pre) s').
Qed.

Lemma search_no_unread (line : ustr) :
  ~ has_unread line -> re_search unread_pattern line = None.
Proof.
  intros Hno. apply re_search_none. intros pre s' ->.
  destruct (re_match unread_pattern s') as [g |] eqn:E; [| reflexivity].
  exfalso. apply Hno.
  apply unread_match_elim in E as [ds [post [-> [Hne [Hd _]]]]].
  exists pre, ds, post. repeat split; assumption.
Qed.

Lemma search_first_occurrence (line pre ds post : ustr) :
  first_occurrence line pre ds post ->
  re_search unread_pattern line = Some [("1"%string, ds)].
Proof.
  intros [[-> [Hne Hd]] Hfirst].
  apply re_search_intro; [| now apply unread_match_intro].
  intros p1 p2 -> Hp2.
  destruct (re_match unread_pattern
              (p2 ++ BRACKET :: ds ++ UNREAD_TAIL ++ post)) as [g |] eqn:E;
    [| reflexivity].
  exfalso.
  apply unread_match_elim in E as [ds' [post' [E' [Hne' [Hd' _]]]]].
  assert (Hocc : occurrence ((p1 ++ p2) ++ BRACKET :: ds ++ UNREAD_TAIL ++ post)
                            p1 ds' post').
  { repeat split; try assumption. rewrite <- app_assoc. now rewrite E'. }
  apply Hfirst in Hocc. rewrite length_app in Hocc.
  destruct p2; [congruence | simpl in Hocc; lia].
Qed.

(** [int] accepts every non-empty string of digits. *)
Lemma int_go_digits (ds : ustr) :
  forall acc, forallb isdigit ds = true -> exists n, int_go ds acc = Some n.
Proof.
  induction ds as [| d ds IH]; intros acc H; simpl.
  - eauto.
  - simpl in H. apply andb_true_iff in H as [Hd Hds].
    unfold isdigit in Hd. destruct (digit_value d); [| discriminate].
    now apply IH.
Qed.

Lemma int_of_digits (ds : ustr) :
  ds <> [] -> forallb isdigit ds = true -> exists n, int_of ds = Some n.
Proof.
  intros Hne H. destruct ds as [| d ds]; [congruence |].
  unfold int_of. now apply int_go_digits.
Qed.

Lemma unread_scan_none (lines : list ustr) :
  (forall line, In line lines -> ~ has_unread line) ->
  unread_scan lines = Some 0%N.
Proof.
  induction lines as [| l lines IH]; intros H; simpl; [reflexivity |].
  rewrite search_no_unread by (apply H; now left).
  apply IH. intros line Hin. apply H. now right.
Qed.

Lemma unread_scan_first (before after : list ustr) (line pre ds post : ustr) :
  (forall l, In l before -> ~ has_unread l) ->
  first_occurrence line pre ds post ->
  unread_scan (before ++ line :: after) = int_of ds.
Proof.
  intros Hb Hf. induction before as [| l before IH]; simpl.
  - now rewrite (search_first_occurrence Hf).
  - rewrite search_no_unread by (apply Hb; now left).
    apply IH. intros l' Hin. apply Hb. now right.
Qed.

(** ** Pieces of a split *)

Lemma startswith_length (l s : ustr) :
  startswith l s = true -> length l <= length s.
Proof.
  intros H. apply startswith_true in H.
  apply (f_equal (@length char)) in H. rewrite length_app in H. lia.
Qed.

Lemma split_go_skip (sep : ustr) (k : nat) :
  forall s cur, k <= length s ->
    split_go sep s k cur = split_go sep (skipn k s) 0 cur.
Proof.
  induction k as [| k IH]; intros s cur Hk; [reflexivity |].
  destruct s as [| c s]; simpl in *; [lia |]. apply IH. lia.
Qed.

(** The loop of [split], one character or one separator at a time. *)
Lemma split_go_cons (sep : ustr) (c : char) (s cur : ustr) :
  sep <> [] ->
  split_go sep (c :: s) 0 cur =
  if startswith sep (c :: s)
  then rev cur :: split_go sep (skipn (length sep) (c :: s)) 0 []
  else split_go sep s 0 (c :: cur).
Proof.
  intros Hsep.
  cbn [split_go]. destruct (startswith sep (c :: s)) eqn:E; [| reflexivity].
  f_equal. destruct sep as [| a sep]; [congruence |].
  apply startswith_length in E. simpl in E.
  rewrite split_go_skip by (simpl; lia).
  simpl. now rewrite Nat.sub_0_r.
Qed.

Lemma split_go_nonempty (sep : ustr) (n : nat) :
  sep <> [] ->
  forall s cur, length s <= n -> split_go sep s 0 cur <> [].
Proof.
  intros Hsep. induction n as [| n IH]; intros s cur Hn.
  - destruct s; simpl in *; [discriminate | lia].
  - destruct s as [| c s]; [discriminate |].
    rewrite split_go_cons by assumption. destruct (startswith sep (c :: s)); [discriminate |].
    apply IH. simpl in Hn. lia.
Qed.

(** No occurrence of [sep] starts in the piece read so far. *)
Definition clean (sep cur s : ustr) : Prop :=
  forall c1 c2, rev cur = c1 ++ c2 -> c2 <> [] ->
                startswith sep (c2 ++ s) = false.

Lemma clean_contains (sep cur : ustr) :
  sep <> [] -> clean sep cur [] -> contains sep (rev cur) = false.
Proof.
  intros Hsep H. unfold clean in H.
  assert (G : forall c1 c2, rev cur = c1 ++ c2 -> contains sep c2 = false).
  { intros c1 c2. revert c1. induction c2 as [| x c2 IH]; intros c1 E.
    - destruct sep; [congruence | reflexivity].
    - simpl. rewrite (IH (c1 ++ [x])) by (now rewrite <- app_assoc).
      specialize (H c1 (x :: c2) E). rewrite app_nil_r in H.
      rewrite H by discriminate. reflexivity. }
  now apply (G []).
Qed.

Lemma clean_push (sep cur s : ustr) (c : char) :
  clean sep cur (c :: s) -> startswith sep (c :: s) = false ->
  clean sep (c :: cur) s.
Proof.
  intros H Hs c1 c2 E Hne. simpl in E.
  destruct (rev c2) as [| y r] eqn:Er.
  { apply (f_equal (@rev char)) in Er. rewrite rev_involutive in Er.
    simpl in Er. congruence. }
  apply (f_equal (@rev char)) in Er. rewrite rev_involutive in Er.
  simpl in Er. subst c2. rewrite app_assoc in E.
  apply app_inj_tail in E as [E ->].
  rewrite <- app_assoc. simpl.
  destruct (rev r) as [| z r'] eqn:Er'; [exact Hs |].
  apply (H c1 (z :: r')); [assumption | discriminate].
Qed.

(** The last piece of a split: the text ends with it, nothing of the
    separator is in it, and what comes before it, if anything, ends with the
    separator. *)
Lemma split_go_last (sep : ustr) (n : nat) :
  sep <> [] ->
  forall s cur, length s <= n -> clean sep cur s ->
    exists pre,
      rev cur ++ s = pre ++ last (split_go sep s 0 cur) [] /\
      contains sep (last (split_go sep s 0 cur) []) = false /\
      (pre = [] \/ exists pre', pre = pre' ++ sep).
Proof.
  intros Hsep. induction n as [| n IH]; intros s cur Hn Hclean.
  - destruct s; simpl in Hn; [| lia]. exists []. simpl.
    rewrite app_nil_r. repeat split; auto. now apply clean_contains.
  - destruct s as [| c s].
    { exists []. simpl. rewrite app_nil_r. repeat split; auto.
      now apply clean_contains. }
    rewrite split_go_cons by assumption.
    destruct (startswith sep (c :: s)) eqn:E; cbv iota.
    + pose proof (startswith_true _ _ E) as Es.
      set (rest := skipn (length sep) (c :: s)) in *.
      assert (Hlen : length rest <= n).
      { apply (f_equal (@length char)) in Es. rewrite length_app in Es.
        simpl in Es, Hn. destruct sep; [congruence | simpl in Es; lia]. }
      destruct (IH rest [] Hlen) as [pre0 [E0 [Hc Hp]]].
      { intros c1 c2 E' Hne. destruct c1; destruct c2; simpl in E'; congruence. }
      pose proof (@split_go_nonempty sep n Hsep rest [] Hlen) as Hne.
      remember (split_go sep rest 0 []) as parts eqn:Eparts.
      destruct parts as [| part parts]; [congruence |].
      change (last (rev cur :: part :: parts) [])
        with (last (part :: parts) (@nil char)).
      exists (rev cur ++ sep ++ pre0).
      split; [| split; [assumption |]].
      * rewrite Es. simpl in E0. rewrite E0 at 1.
        now rewrite <- !app_assoc.
      * right. destruct Hp as [-> | [pre' ->]].
        -- exists (rev cur). now rewrite app_nil_r.
        -- exists (rev cur ++ sep ++ pre'). now rewrite <- !app_assoc.
    + destruct (IH s (c :: cur)) as [pre0 [E0 [Hc Hp]]].
      * simpl in Hn. lia.
      * now apply clean_push.
      * exists pre0. simpl in E0. rewrite <- app_assoc in E0. simpl in E0.
        auto.
Qed.

(** The first piece of a split: the text starts with it, and what comes
    after it, if anything, starts with the separator. *)
Lemma split_go_first (sep : ustr) (n : nat) :
  sep <> [] ->
  forall s cur, length s <= n ->
    exists p r,
      s = p ++ r /\ hd [] (split_go sep s 0 cur) = rev cur ++ p /\
      (r = [] \/ startswith sep r = true).
Proof.
  intros Hsep. induction n as [| n IH]; intros s cur Hn.
  - destruct s; simpl in Hn; [| lia]. exists [], []. simpl.
    rewrite app_nil_r. auto.
  - destruct s as [| c s].
    { exists [], []. simpl. rewrite app_nil_r. auto. }
    rewrite split_go_cons by assumption.
    destruct (startswith sep (c :: s)) eqn:E; cbv iota.
    + exists [], (c :: s). simpl. rewrite app_nil_r. auto.
    + destruct (IH s (c :: cur)) as [p [r [-> [Eh Hr]]]].
      { simpl in Hn. lia. }
      exists (c :: p), r. simpl in Eh. rewrite <- app_assoc in Eh.
      simpl in Eh. auto.
Qed.

(** [parts[-1]] and [parts[0]] of [text.split(label)]. *)
Lemma split_parts (sep text : ustr) :
  sep <> [] ->
  (exists pre,
     text = pre ++ last (split sep text) [] /\
     contains sep (last (split sep text) []) = false /\
     (pre = [] \/ exists pre', pre = pre' ++ sep)) /\
  (exists rest,
     text = hd [] (split sep text) ++ rest /\
     (rest = [] \/ startswith sep rest = true)).
Proof.
  intros Hsep. split.
  - destruct (@split_go_last sep (length text) Hsep text []) as [pre H];
      [lia | | exists pre; exact H].
    intros c1 c2 E Hne. destruct c1; destruct c2; simpl in E; congruence.
  - destruct (@split_go_first sep (length text) Hsep text [])
      as [p [r [E [Eh Hr]]]];
      [lia |].
    exists r. unfold split. rewrite Eh. simpl. auto.
Qed.

(** ** Splitting and joining *)

(** A part that does not hold the first character of the separator is read
    through without a cut. *)
Lemma split_go_part (a : char) (sep' part : ustr) :
  mem a part = false ->
  forall rest cur,
    split_go (a :: sep') (part ++ rest) 0 cur =
    split_go (a :: sep') rest 0 (rev part ++ cur).
Proof.
  intros Hm. induction part as [| c part IH]; intros rest cur;
    [reflexivity |].
  simpl in Hm. apply orb_false_iff in Hm as [Hc Hm].
  change ((c :: part) ++ rest) with (c :: part ++ rest).
  rewrite split_go_cons by discriminate.
  cbn [startswith]. rewrite Hc. cbn [andb].
  rewrite (IH Hm). cbn [rev]. now rewrite <- app_assoc.
Qed.

Lemma split_go_join (a : char) (sep' : ustr) (parts : list ustr) :
  Forall (fun part => mem a part = false) parts ->
  forall first cur,
    mem a first = false ->
    split_go (a :: sep') (join (a :: sep') (first :: parts)) 0 cur =
    (rev cur ++ first) :: parts.
Proof.
  induction parts as [| p parts IH]; intros Hall first cur Hf.
  - cbn [join]. rewrite <- (app_nil_r first) at 1.
    rewrite split_go_part by assumption. simpl.
    now rewrite rev_app_distr, rev_involutive.
  - inversion Hall as [| ? ? Hp Hps]; subst.
    change (join (a :: sep') (first :: p :: parts))
      with (first ++ (a :: sep') ++ join (a :: sep') (p :: parts)).
    rewrite split_go_part by assumption.
    change ((a :: sep') ++ join (a :: sep') (p :: parts))
      with (a :: sep' ++ join (a :: sep') (p :: parts)).
    rewrite split_go_cons by discriminate.
    change (a :: sep' ++ join (a :: sep') (p :: parts))
      with ((a :: sep') ++ join (a :: sep') (p :: parts)).
    rewrite startswith_app, skipn_app_exact.
    rewrite (IH Hps p [] Hp). simpl.
    now rewrite rev_app_distr, rev_involutive.
Qed.

(** Joining parts that do not hold the first character of the separator,
    then splitting, gives the parts back. *)
Lemma split_join (a : char) (sep' : ustr) (parts : list ustr) :
  parts <> [] ->
  Forall (fun part => mem a part = false) parts ->
  split (a :: sep') (join (a :: sep') parts) = parts.
Proof.
  intros Hne Hall. destruct parts as [| first parts]; [congruence |].
  inversion Hall; subst. unfold split.
  now rewrite split_go_join.
Qed.

(** The pieces of a split at one character do not hold the character. *)
Lemma split_go_char_free (a : char) (s : ustr) :
  forall cur, mem a cur = false ->
    Forall (fun part => mem a part = false) (split_go [a] s 0 cur).
Proof.
  assert (R : forall cur, mem a cur = false -> mem a (rev cur) = false).
  { intros cur H. unfold mem in *.
    destruct (existsb (N.eqb a) (rev cur)) eqn:E; [| reflexivity].
    apply existsb_exists in E as [x [Hin Hx]]. apply in_rev in Hin.
    assert (T : existsb (N.eqb a) cur = true)
      by (apply existsb_exists; eauto).
    congruence. }
  induction s as [| c s IH]; intros cur Hcur.
  - simpl. constructor; [now apply R | constructor].
  - rewrite split_go_cons by discriminate.
    cbn [startswith length skipn]. rewrite andb_true_r.
    destruct (a =? c)%N eqn:E.
    + constructor; [now apply R | now apply IH].
    + apply IH. simpl. now rewrite E.
Qed.

(** A piece that is more than white space. *)
Definition not_blank (piece : ustr) : bool := nonempty (strip piece).

Lemma join_cons (sep part : ustr) (parts : list ustr) :
  parts <> [] -> join sep (part :: parts) = part ++ sep ++ join sep parts.
Proof. destruct parts; [congruence | reflexivity]. Qed.

(** Joining the pieces of a split at one character gives the text back. *)
Lemma join_split_go (a : char) (s : ustr) :
  forall cur, join [a] (split_go [a] s 0 cur) = rev cur ++ s.
Proof.
  induction s as [| c s IH]; intros cur.
  - simpl. now rewrite app_nil_r.
  - rewrite split_go_cons by discriminate.
    cbn [startswith length skipn]. rewrite andb_true_r.
    destruct (a =? c)%N eqn:E.
    + apply N.eqb_eq in E. subst c.
      rewrite join_cons by (apply split_go_nonempty with (n := length s);
                            [discriminate | lia]).
      rewrite IH. reflexivity.
    + rewrite IH. cbn [rev]. now rewrite <- app_assoc.
Qed.

Lemma join_split (a : char) (s : ustr) : join [a] (split [a] s) = s.
Proof. unfold split. now rewrite join_split_go. Qed.

Lemma texts_join (pieces : list ustr) :
  Forall (fun piece => mem NL piece = false) pieces ->
  texts (join [NL] pieces) = filter not_blank pieces.
Proof.
  intros H. unfold texts.
  assert (F : forall l : list ustr,
            filter (fun line => nonempty line && nonempty (strip line)) l =
            filter not_blank l).
  { intros l. apply filter_ext. intros line. unfold not_blank.
    destruct line; reflexivity. }
  rewrite F. destruct pieces as [| p ps]; [reflexivity |].
  rewrite split_join; [reflexivity | discriminate | exact H].
Qed.

(** C6, as the code has it.  Take a control text as its pieces between
    line breaks.  The lines of the session element are the pieces that are
    more than white space, as they are and in their order; the name is the
    first of them; the unread count is the number in the first bracketed
    unread-count text found when the lines are scanned in order, line 0
    included (in a line, the occurrence that starts first), and 0 when no
    line has one.  Every control text is made of such pieces. *)
Theorem unread_count_scans_all_lines :
  forall pieces : list ustr,
    Forall (fun piece => mem NL piece = false) pieces ->
    texts (join [NL] pieces) = filter not_blank pieces /\
    name (join [NL] pieces) = hd [] (filter not_blank pieces) /\
    ((forall line, In line (filter not_blank pieces) -> ~ has_unread line) ->
     unread_count (join [NL] pieces) = Some 0%N) /\
    (forall before line after pre ds post,
       filter not_blank pieces = before ++ line :: after ->
       (forall l, In l before -> ~ has_unread l) ->
       first_occurrence line pre ds post ->
       exists n, int_of ds = Some n /\
                 unread_count (join [NL] pieces) = Some n) /\
    (forall content : ustr,
       exists pieces',
         content = join [NL] pieces' /\
         Forall (fun piece => mem NL piece = false) pieces').
Proof.
  intros pieces Hp. pose proof (texts_join Hp) as T.
  split; [exact T |].
  split.
  { unfold name. rewrite T. now destruct (filter not_blank pieces). }
  split.
  { intros H. unfold unread_count. rewrite T. now apply unread_scan_none. }
  split.
  { intros before line after pre ds post Ht Hb Hf.
    destruct Hf as [[E [Hne Hd]] Hfirst] eqn:Hf'. clear Hf'.
    destruct (int_of_digits Hne Hd) as [n Hn].
    exists n. split; [assumption |].
    unfold unread_count. rewrite T, Ht, <- Hn.
    apply unread_scan_first with (pre := pre) (post := post);
      [assumption |].
    repeat split; assumption. }
  intros content. exists (split [NL] content).
  split; [now rewrite join_split |].
  unfold split. now apply split_go_char_free.
Qed.

Lemma unread_count_scans_all_lines_witness :
  texts (u "张三" ++ [NL] ++ u " " ++ [NL] ++ u "[5条]你好") =
    [u "张三"; u "[5条]你好"] /\
  name (u "张三" ++ [NL] ++ u " " ++ [NL] ++ u "[5条]你好") = u "张三".
Proof.
  destruct (@unread_count_scans_all_lines
              [u "张三"; u " "; u "[5条]你好"])
    as [H1 [H2 _]].
  - repeat constructor.
  - split; [exact H1 | exact H2].
Defined.

(** C6, as stated, fails: the scan does not start after line 0.  A name
    line that carries the bracketed text gives the unread count, where a
    scan of the remaining lines alone finds none. *)
Lemma unread_count_reads_name_line :
  name (u "[5条]" ++ [NL] ++ u "hello") = u "[5条]" /\
  unread_count (u "[5条]" ++ [NL] ++ u "hello") = Some 5%N /\
  unread_scan (tl (texts (u "[5条]" ++ [NL] ++ u "hello"))) = Some 0%N.
Proof. repeat split. Qed.

(** ** [switch_chat] *)

Lemma ustr_eqb_eq (a b : ustr) : ustr_eqb a b = true <-> a = b.
Proof.
  unfold ustr_eqb. destruct (list_eq_dec N.eq_dec a b); split; congruence.
Qed.

Section SwitchChatFacts.

Variable lower : ustr -> ustr.

(** What makes a search result the one to select in exact mode: the text
    is the keyword, or the part of the text after a label is the keyword up
    to case. *)
Definition exact_criterion (keywords text : ustr) : Prop :=
  text = keywords \/
  (contains LABEL_WXID text = true /\
   lower (last_part (split LABEL_WXID text)) = lower keywords) \/
  (contains LABEL_NICKNAME text = true /\
   lower (last_part (split LABEL_NICKNAME text)) = lower keywords).

Lemma match_item_exact (keywords text : ustr) :
  match_item lower true keywords text <> None <->
  exact_criterion keywords text.
Proof.
  unfold match_item, exact_criterion.
  destruct (ustr_eqb text keywords) eqn:E1.
  { apply ustr_eqb_eq in E1. split; [now left | discriminate]. }
  assert (N1 : text <> keywords).
  { intro H. apply ustr_eqb_eq in H. congruence. }
  destruct (contains LABEL_WXID text &&
            ustr_eqb (lower (last_part (split LABEL_WXID text)))
                     (lower keywords)) eqn:E2.
  { apply andb_true_iff in E2 as [Ha Hb]. apply ustr_eqb_eq in Hb.
    split; [intros _; right; left; now split | discriminate]. }
  destruct (contains LABEL_NICKNAME text &&
            ustr_eqb (lower (last_part (split LABEL_NICKNAME text)))
                     (lower keywords)) eqn:E3.
  { apply andb_true_iff in E3 as [Ha Hb]. apply ustr_eqb_eq in Hb.
    split; [intros _; right; right; now split | discriminate]. }
  split; [congruence |].
  intros [H | [[Ha Hb] | [Ha Hb]]].
  - contradiction.
  - apply ustr_eqb_eq in Hb. rewrite Ha, Hb in E2. discriminate.
  - apply ustr_eqb_eq in Hb. rewrite Ha, Hb in E3. discriminate.
Qed.

Lemma match_item_substring (keywords text : ustr) :
  match_item lower false keywords text <> None <->
  contains keywords text = true.
Proof.
  unfold match_item. destruct (contains keywords text); split;
    congruence.
Qed.

Lemma scan_items_some (exact : bool) (keywords : ustr) (items : list ustr) :
  forall i0 i r,
    scan_items lower exact keywords items i0 = Some (i, r) ->
    exists k text,
      i = i0 + k /\ nth_error items k = Some text /\
      match_item lower exact keywords text = Some r /\
      forall j t, j < k -> nth_error items j = Some t ->
                  match_item lower exact keywords t = None.
Proof.
  induction items as [| text items IH]; intros i0 i r; simpl; [discriminate |].
  destruct (match_item lower exact keywords text) as [r0 |] eqn:E.
  - intros [= <- <-]. exists 0, text.
    split; [lia | split; [reflexivity | split; [assumption |]]].
    intros j t Hj. lia.
  - intros H. destruct (IH _ _ _ H) as [k [t [-> [Hn [Hm Hbefore]]]]].
    exists (S k), t.
    split; [lia | split; [assumption | split; [assumption |]]].
    intros j t' Hj. destruct j as [| j]; simpl.
    + now intros [= <-].
    + apply Hbefore. lia.
Qed.

Lemma scan_items_none (exact : bool) (keywords : ustr) (items : list ustr) :
  forall i0,
    (forall t, In t items -> match_item lower exact keywords t = None) ->
    scan_items lower exact keywords items i0 = None.
Proof.
  induction items as [| text items IH]; intros i0 H; simpl; [reflexivity |].
  rewrite (H text) by now left. apply IH. intros t Ht. apply H. now right.
Qed.

Lemma scan_items_none_inv (exact : bool) (keywords : ustr)
  (items : list ustr) :
  forall i0,
    scan_items lower exact keywords items i0 = None ->
    forall t, In t items -> match_item lower exact keywords t = None.
Proof.
  induction items as [| text items IH]; intros i0 H t; simpl; [contradiction |].
  simpl in H.
  destruct (match_item lower exact keywords text) as [r0 |] eqn:E;
    [discriminate |].
  intros [<- | Ht]; [assumption | eauto].
Qed.

Lemma poll_loop_selected (P : WxParam) (exact : bool) (keywords : ustr)
  (t0 : Z) (polls : list poll) :
  forall n0 n i r,
    poll_loop lower P exact keywords t0 polls n0 = Some (Some (n, i, r)) ->
    exists k now items text,
      n = n0 + k /\ nth_error polls k = Some (now, items) /\
      (now - t0 < SEARCH_CHAT_TIMEOUT P)%Z /\
      nth_error items i = Some text /\
      match_item lower exact keywords text = Some r /\
      (forall j t, j < i -> nth_error items j = Some t ->
                   match_item lower exact keywords t = None) /\
      (forall m now' items' t,
         m < k -> nth_error polls m = Some (now', items') -> In t items' ->
         match_item lower exact keywords t = None).
Proof.
  induction polls as [| [now items] polls IH]; intros n0 n i r; simpl;
    [discriminate |].
  destruct (now - t0 <? SEARCH_CHAT_TIMEOUT P)%Z eqn:Ht; [| discriminate].
  apply Z.ltb_lt in Ht.
  destruct (scan_items lower exact keywords items 0) as [[i1 r1] |] eqn:Es.
  - intros [= <- <- <-].
    destruct (scan_items_some _ _ _ _ Es) as [k [text [-> [Hn [Hm Hb]]]]].
    exists 0, now, items, text. simpl.
    split; [lia |]. split; [reflexivity |]. split; [assumption |].
    split; [assumption |]. split; [assumption |]. split; [assumption |].
    intros m now' items' t Hm'. lia.
  - intros H.
    destruct (IH _ _ _ _ H) as
      [k [now1 [items1 [text [-> [Hn [Hlt [Hi [Hm [Hb Hp]]]]]]]]]].
    exists (S k), now1, items1, text.
    split; [lia |]. split; [assumption |]. split; [assumption |].
    split; [assumption |]. split; [assumption |]. split; [assumption |].
    intros m now' items' t Hm'. destruct m as [| m]; simpl.
    + intros [= <- <-]. now apply (scan_items_none_inv _ _ _ _ Es).
    + apply Hp. lia.
Qed.

Lemma poll_loop_timeout (P : WxParam) (exact : bool) (keywords : ustr)
  (t0 : Z) (polls : list poll) :
  forall n0 k now items,
    nth_error polls k = Some (now, items) ->
    (SEARCH_CHAT_TIMEOUT P <= now - t0)%Z ->
    (forall m now' items' t,
       m < k -> nth_error polls m = Some (now', items') -> In t items' ->
       match_item lower exact keywords t = None) ->
    poll_loop lower P exact keywords t0 polls n0 = Some None.
Proof.
  induction polls as [| [now1 items1] polls IH]; intros n0 k now items.
  - destruct k; discriminate.
  - simpl. destruct k as [| k]; simpl.
    + intros [= -> ->] Hge _.
      apply Z.ltb_ge in Hge. now rewrite Hge.
    + intros Hn Hge Hnone.
      destruct (now1 - t0 <? SEARCH_CHAT_TIMEOUT P)%Z; [| reflexivity].
      rewrite scan_items_none.
      * apply (IH _ k now items); auto.
        intros m now' items' t Hm. apply (Hnone (S m)). lia.
      * intros t Ht. apply (Hnone 0 now1 items1 t); auto. lia.
Qed.

Lemma scan_items_found (exact : bool) (keywords : ustr) (items : list ustr) :
  forall i0 i text r,
    nth_error items i = Some text ->
    match_item lower exact keywords text = Some r ->
    (forall j t, j < i -> nth_error items j = Some t ->
                 match_item lower exact keywords t = None) ->
    scan_items lower exact keywords items i0 = Some (i0 + i, r).
Proof.
  induction items as [| t0 items IH]; intros i0 i text r Hn Hm Hb.
  - destruct i; discriminate.
  - destruct i as [| i]; simpl in *.
    + injection Hn as ->. rewrite Hm. now rewrite Nat.add_0_r.
    + rewrite (Hb 0 t0) by (lia || reflexivity).
      rewrite (IH (S i0) i text r Hn Hm).
      * f_equal. f_equal. lia.
      * intros j t Hj Ht. apply (Hb (S j) t); [lia | exact Ht].
Qed.

Lemma poll_loop_found (P : WxParam) (exact : bool) (keywords : ustr)
  (t0 : Z) (polls : list poll) :
  forall n0 k now items i text r,
    nth_error polls k = Some (now, items) ->
    (forall m now' items',
       m <= k -> nth_error polls m = Some (now', items') ->
       (now' - t0 < SEARCH_CHAT_TIMEOUT P)%Z) ->
    (forall m now' items' t,
       m < k -> nth_error polls m = Some (now', items') -> In t items' ->
       match_item lower exact keywords t = None) ->
    nth_error items i = Some text ->
    match_item lower exact keywords text = Some r ->
    (forall j t, j < i -> nth_error items j = Some t ->
                 match_item lower exact keywords t = None) ->
    poll_loop lower P exact keywords t0 polls n0 = Some (Some (n0 + k, i, r)).
Proof.
  induction polls as [| [now1 items1] polls IH];
    intros n0 k now items i text r Hn Ht Hnone Hi Hm Hb.
  - destruct k; discriminate.
  - assert (T1 : (now1 - t0 <? SEARCH_CHAT_TIMEOUT P)%Z = true).
    { apply Z.ltb_lt. apply (Ht 0 now1 items1); [lia | reflexivity]. }
    simpl. rewrite T1. destruct k as [| k]; simpl in Hn.
    + injection Hn as -> ->.
      rewrite (@scan_items_found exact keywords items 0 i text r Hi Hm Hb).
      simpl. now rewrite Nat.add_0_r.
    + rewrite scan_items_none.
      * rewrite (IH (S n0) k now items i text r); auto.
        -- f_equal. f_equal. f_equal. f_equal. lia.
        -- intros m now' items' Hle. apply (Ht (S m)). lia.
        -- intros m now' items' t Hlt. apply (Hnone (S m)). lia.
      * intros t Hin. apply (Hnone 0 now1 items1 t); auto. lia.
Qed.

Lemma poll_loop_runs_out (P : WxParam) (exact : bool) (keywords : ustr)
  (t0 : Z) (polls : list poll) :
  forall n0,
    (forall now items, In (now, items) polls ->
       (now - t0 < SEARCH_CHAT_TIMEOUT P)%Z /\
       forall t, In t items -> match_item lower exact keywords t = None) ->
    poll_loop lower P exact keywords t0 polls n0 = None.
Proof.
  induction polls as [| [now1 items1] polls IH]; intros n0 H; simpl;
    [reflexivity |].
  destruct (H now1 items1) as [Hlt Hnone]; [now left |].
  apply Z.ltb_lt in Hlt. rewrite Hlt.
  rewrite scan_items_none by assumption.
  apply IH. intros now items Hin. apply H. now right.
Qed.

End SwitchChatFacts.

(** The part of a text after a label: what follows an occurrence of the
    label and has no further occurrence in it. *)
Lemma labelled_suffix (label text : ustr) :
  label <> [] -> contains label text = true ->
  exists pre,
    text = pre ++ label ++ last_part (split label text) /\
    contains label (last_part (split label text)) = false.
Proof.
  intros Hl Hc. destruct (split_parts text Hl) as [[pre [E [Hn Hp]]] _].
  unfold last_part. destruct Hp as [-> | [pre' ->]].
  - simpl in E. rewrite <- E in Hn. congruence.
  - exists pre'. split; [| assumption]. now rewrite <- app_assoc in E.
Qed.

(** C8, as the code has it.  In exact mode an item is selected iff its text
    is the keyword, character for character, or the part of its text after
    the label 微信号 or 昵称 equals the keyword up to case; in substring mode
    iff the keyword occurs in its text.  When a round of polling that begins
    before the time is up shows such an item, and no earlier round did, the
    call clicks the first such item of that round and returns; every
    selection arises this way.  When the time is up before any round shows
    one, the call answers None, with no item clicked. *)
Theorem switch_chat_selects :
  forall (lower : ustr -> ustr) (P : WxParam) (keywords : ustr)
         (exact : bool) (t0 : Z) (polls : list poll) (popover : bool),
    (forall text, match_item lower true keywords text <> None <->
                  exact_criterion lower keywords text) /\
    (forall text, match_item lower false keywords text <> None <->
                  contains keywords text = true) /\
    (forall label text,
       label = LABEL_WXID \/ label = LABEL_NICKNAME ->
       contains label text = true ->
       exists pre,
         text = pre ++ label ++ last_part (split label text) /\
         contains label (last_part (split label text)) = false) /\
    (forall n i now items text r,
       nth_error polls n = Some (now, items) ->
       (forall m now' items',
          m <= n -> nth_error polls m = Some (now', items') ->
          (now' - t0 < SEARCH_CHAT_TIMEOUT P)%Z) ->
       (forall m now' items' t,
          m < n -> nth_error polls m = Some (now', items') ->
          In t items' -> match_item lower exact keywords t = None) ->
       nth_error items i = Some text ->
       match_item lower exact keywords text = Some r ->
       (forall j t, j < i -> nth_error items j = Some t ->
                    match_item lower exact keywords t = None) ->
       switch_chat lower P keywords exact t0 polls popover
         = Some (Some r, search keywords ++ [ItemClick n i])) /\
    (forall r acts,
       switch_chat lower P keywords exact t0 polls popover
         = Some (Some r, acts) ->
       exists n i now items text,
         nth_error polls n = Some (now, items) /\
         (now - t0 < SEARCH_CHAT_TIMEOUT P)%Z /\
         nth_error items i = Some text /\
         match_item lower exact keywords text = Some r /\
         (forall j t, j < i -> nth_error items j = Some t ->
                      match_item lower exact keywords t = None) /\
         (forall m now' items' t,
            m < n -> nth_error polls m = Some (now', items') ->
            In t items' -> match_item lower exact keywords t = None) /\
         acts = search keywords ++ [ItemClick n i]) /\
    (forall n now items,
       nth_error polls n = Some (now, items) ->
       (SEARCH_CHAT_TIMEOUT P <= now - t0)%Z ->
       (forall m now' items' t,
          m < n -> nth_error polls m = Some (now', items') ->
          In t items' -> match_item lower exact keywords t = None) ->
       switch_chat lower P keywords exact t0 polls popover
         = Some (None,
                 search keywords ++
                 (if popover then [ControlMiddleClick] else []))) /\
    ((forall now items, In (now, items) polls ->
        (now - t0 < SEARCH_CHAT_TIMEOUT P)%Z /\
        forall t, In t items -> match_item lower exact keywords t = None) ->
     switch_chat lower P keywords exact t0 polls popover = None).
Proof.
  intros lower P keywords exact t0 polls popover.
  split; [intros text; apply match_item_exact |].
  split; [intros text; apply match_item_substring |].
  split.
  { intros label text [-> | ->]; apply labelled_suffix; discriminate. }
  split.
  { intros n i now items text r Hn Ht Hnone Hi Hm Hb. unfold switch_chat.
    now rewrite (@poll_loop_found lower P exact keywords t0 polls 0
                   n now items i text r Hn Ht Hnone Hi Hm Hb). }
  split.
  { intros r acts. unfold switch_chat.
    destruct (poll_loop lower P exact keywords t0 polls 0)
      as [[[[n i] r0] |] |] eqn:E; try discriminate.
    intros [= <- <-].
    apply poll_loop_selected in E.
    destruct E as [k [now [items [text [-> [Hn [Hlt [Hi [Hm [Hb Hp]]]]]]]]]].
    exists k, i, now, items, text. simpl.
    split; [assumption |]. split; [assumption |]. split; [assumption |].
    split; [assumption |]. split; [assumption |]. split; [assumption |].
    reflexivity. }
  split.
  { intros n now items Hn Hge Hnone. unfold switch_chat.
    now rewrite (@poll_loop_timeout lower P exact keywords t0 polls 0
                   n now items Hn Hge Hnone). }
  intros H. unfold switch_chat.
  now rewrite (@poll_loop_runs_out lower P exact keywords t0 polls 0 H).
Qed.

(** [str.lower] on strings of ASCII characters. *)
Definition ascii_lower (s : ustr) : ustr :=
  map (fun c => if (65 <=? c) && (c <=? 90) then c + 32 else c)%N s.

(** C8, as stated, fails: in exact mode the comparison of the whole text
    with the keyword is sensitive to case.  An item that equals the keyword
    up to case is not selected, and the call ends without a selection. *)
Lemma switch_chat_exact_is_case_sensitive :
  ascii_lower (u "Alice") = ascii_lower (u "alice") /\
  match_item ascii_lower true (u "alice") (u "Alice") = None /\
  switch_chat ascii_lower (mkWxParam false "cn" 5) (u "alice") true 0
    [(0%Z, [u "Alice"]); (5%Z, [u "Alice"])] false
  = Some (None, search (u "alice") ++ []).
Proof. repeat split. Qed.

End SessionFacts.

(* ===================================================================== *)
(** * Properties of the UI lock *)
(* ===================================================================== *)

Module LockFacts.
Import Lock.

(** ** Callers that share one semaphore *)

(** A caller holds the process lock from the moment it has taken it until
    it gives it back, and is in the section between [Enter] and [Leave]. *)
Definition holds (c : caller) : bool :=
  match prog c with
  | AcquireThread :: _ | Enter :: _ | Leave :: _
  | ReleaseThread :: _ | ReleaseProcess :: _ => true
  | _ => false
  end.

Definition inside (c : caller) : bool :=
  match prog c with Leave :: _ => true | _ => false end.

Fixpoint tails (A : Type) (l : list A) : list (list A) :=
  match l with
  | [] => [[]]
  | _ :: l' => l :: tails l'
  end.

(** What is left of a call of [acquire] or [acquire_async] around the
    section, at any moment. *)
Definition plain (c : caller) : Prop :=
  In (prog c) (tails (acquire section) ++ tails (acquire_async section)).

Definition count (f : caller -> bool) (cs : list caller) : nat :=
  length (filter f cs).

Definition b2n (b : bool) : nat := if b then 1 else 0.

Record inv (cfg : config) (s0 : nat) (st : state) : Prop := mkInv {
  inv_shared : Forall (fun c => cfg (c_pid c) = s0) (callers st);
  inv_plain : Forall plain (callers st);
  inv_sem : count holds (callers st) = b2n (sem st s0);
  inv_counter : counter st = count inside (callers st)
}.

Lemma count_set_nth (f : caller -> bool) (l : list caller) :
  forall i c c',
    nth_error l i = Some c ->
    count f (set_nth i c' l) + b2n (f c) = count f l + b2n (f c').
Proof.
  unfold count. induction l as [| a l IH]; intros i c c' H.
  - destruct i; discriminate.
  - destruct i as [| i]; simpl in *.
    + injection H as ->. destruct (f c), (f c'); simpl; lia.
    + specialize (IH _ _ c' H). destruct (f a); simpl; lia.
Qed.

Lemma count_ge (f : caller -> bool) (l : list caller) :
  forall i c, nth_error l i = Some c -> b2n (f c) <= count f l.
Proof.
  unfold count. induction l as [| a l IH]; intros i c H.
  - destruct i; discriminate.
  - destruct i as [| i]; simpl in *.
    + injection H as ->. destruct (f c); simpl; lia.
    + specialize (IH _ _ H). destruct (f a); simpl; lia.
Qed.

Lemma Forall_set_nth (Q : caller -> Prop) (l : list caller) :
  forall i c', Forall Q l -> Q c' -> Forall Q (set_nth i c' l).
Proof.
  induction l as [| a l IH]; intros i c' H Hc; simpl.
  - destruct i; constructor.
  - inversion H; subst. destruct i; constructor; auto.
Qed.

Lemma Forall_nth_error (Q : caller -> Prop) (l : list caller) (i : nat)
  (c : caller) :
  Forall Q l -> nth_error l i = Some c -> Q c.
Proof.
  intros H Hn. rewrite Forall_forall in H. apply H.
  eapply nth_error_In; eassumption.
Qed.

Lemma count_le (f g : caller -> bool) (l : list caller) :
  (forall c, f c = true -> g c = true) -> count f l <= count g l.
Proof.
  intros H. unfold count. induction l as [| a l IH]; simpl; [lia |].
  destruct (f a) eqn:E.
  - rewrite (H _ E). simpl. lia.
  - destruct (g a); simpl; lia.
Qed.

Lemma upd_same (A : Type) (f : nat -> A) (k : nat) (v : A) : upd f k v k = v.
Proof. unfold upd. now rewrite Nat.eqb_refl. Qed.

Lemma inv_init (cfg : config) (s0 : nat) (cs : list caller) :
  Forall (fun c => cfg (c_pid c) = s0) cs ->
  Forall (fun c => exists b, prog c = uilock b section) cs ->
  inv cfg s0 (init cs).
Proof.
  intros Hs Hp. constructor; simpl.
  - assumption.
  - eapply Forall_impl; [| exact Hp]. intros c [[|] E]; unfold plain;
      rewrite E; simpl; auto 20.
  - induction Hp as [| c l [b E] _ IH]; [reflexivity |].
    inversion Hs; subst. unfold count in *. simpl.
    unfold holds at 1. rewrite E. destruct b; simpl; auto.
  - induction Hp as [| c l [b E] _ IH]; [reflexivity |].
    inversion Hs; subst. unfold count in *. simpl.
    unfold inside at 1. rewrite E. destruct b; simpl; auto.
Qed.

(** One caller moves on to [c'] while the locks and the counter change in
    step with what the caller holds. *)
Lemma inv_update (cfg : config) (s0 i : nat) (st : state) (c c' : caller)
  (sm : nat -> bool) (rl : nat -> option (nat * nat)) (n : nat) :
  inv cfg s0 st ->
  nth_error (callers st) i = Some c ->
  cfg (c_pid c') = s0 -> plain c' ->
  (b2n (holds c) <= b2n (sem st s0) ->
   b2n (sm s0) + b2n (holds c) = b2n (sem st s0) + b2n (holds c')) ->
  (b2n (inside c) <= counter st ->
   n + b2n (inside c) = counter st + b2n (inside c')) ->
  inv cfg s0 (mkState sm rl n (set_nth i c' (callers st))).
Proof.
  intros [Hsh Hpl Hsem Hcnt] Hn Hcfg Hplain H1 H2.
  pose proof (count_set_nth holds (callers st) i c' Hn) as Hh.
  pose proof (count_set_nth inside (callers st) i c' Hn) as Hi.
  pose proof (count_ge holds (callers st) i Hn) as Hh0.
  pose proof (count_ge inside (callers st) i Hn) as Hi0.
  constructor; simpl.
  - now apply Forall_set_nth.
  - now apply Forall_set_nth.
  - lia.
  - lia.
Qed.

Lemma inv_step (cfg : config) (s0 : nat) (i : nat) (st st' : state) :
  inv cfg s0 st -> step cfg i st = Some st' -> inv cfg s0 st'.
Proof.
  intros Hinv. unfold step.
  destruct (nth_error (callers st) i) as [c |] eqn:Hn; [| discriminate].
  pose proof (@Forall_nth_error _ _ i c (inv_shared Hinv) Hn) as Hc.
  pose proof (@Forall_nth_error _ _ i c (inv_plain Hinv) Hn) as Hp.
  simpl in Hc.
  destruct c as [p t pr]. simpl in *.
  unfold plain in Hp. simpl in Hp.
  repeat (destruct Hp as [Hp | Hp]; [| try contradiction]);
    try contradiction; subst pr; cbn [exec c_pid c_tid];
    rewrite ?Hc;
    repeat match goal with
           | |- context [if ?b then _ else _] => destruct b eqn:?
           | |- context [match rlock st p with _ => _ end] =>
               destruct (rlock st p) as [[? [| [| ?]]] |]
           end;
    intros E; try discriminate; injection E as <-; cbn [sem rlock counter callers];
    (eapply inv_update;
     [ exact Hinv | exact Hn | exact Hc
     | unfold plain; simpl; auto 30
     | unfold holds; cbn [prog]; rewrite ?upd_same;
       try match goal with H : sem st s0 = _ |- _ => rewrite H end;
       simpl; destruct (sem st s0); simpl; lia
     | unfold inside; cbn [prog]; simpl; lia ]).
Qed.

Lemma inv_run (cfg : config) (s0 : nat) (schedule : list nat) :
  forall st st',
    inv cfg s0 st -> run cfg schedule st = Some st' -> inv cfg s0 st'.
Proof.
  induction schedule as [| i schedule IH]; intros st st' Hinv; simpl.
  - now intros [= <-].
  - destruct (step cfg i st) as [st1 |] eqn:E; [| discriminate].
    apply IH. eapply inv_step; eassumption.
Qed.

Lemma inv_safe (cfg : config) (s0 : nat) (st : state) :
  inv cfg s0 st -> counter st <= 1.
Proof.
  intros [_ _ Hsem Hcnt]. rewrite Hcnt.
  transitivity (count holds (callers st)).
  - apply count_le. intros c. unfold inside, holds.
    destruct (prog c) as [| [] ?]; auto.
  - rewrite Hsem. destruct (sem st s0); simpl; lia.
Qed.

(** Callers whose processes share one semaphore as process lock (threads
    and tasks of one process, forked children of one parent) never overlap:
    whatever the schedule, the counter never exceeds 1. *)
Lemma shared_process_lock_excludes (cfg : config) (cs : list caller)
  (s0 : nat) (st : state) :
  Forall (fun c => cfg (c_pid c) = s0) cs ->
  Forall (fun c => exists is_coroutine, prog c = uilock is_coroutine section)
         cs ->
  reachable cfg cs st -> counter st <= 1.
Proof.
  intros Hs Hp [schedule Hrun].
  apply (@inv_safe cfg s0). eapply inv_run; [| exact Hrun].
  now apply inv_init.
Qed.

(** ** Separate processes *)

(** Every process with a semaphore of its own: what two interpreters get
    that each import the module. *)
Definition separate : config := fun p => p.

Definition two_processes : list caller :=
  [mkCaller 0 0 (acquire section); mkCaller 1 0 (acquire section)].

(** C1 where it fails.  Two processes that have each created their process
    lock both pass [acquire]; the second enters the section while the first
    is still in it, and the shared counter reaches 2. *)
Theorem separate_processes_overlap :
  option_map counter
    (run separate [0; 0; 0; 1; 1; 1] (init two_processes)) = Some 2 /\
  option_map (fun st => map prog (callers st))
    (run separate [0; 0; 0; 1; 1; 1] (init two_processes))
  = Some [[Leave; ReleaseThread; ReleaseProcess];
          [Leave; ReleaseThread; ReleaseProcess]].
Proof. split; reflexivity. Qed.

(** ** Re-entry *)

(** A thread that calls [acquire] inside the section of [acquire]. *)
Definition nested : list caller :=
  [mkCaller 0 0 (acquire (acquire section))].

(** The same nesting with the thread lock alone. *)
Definition nested_thread_lock : list caller :=
  [mkCaller 0 0
     [AcquireThread; AcquireThread; Enter; Leave; ReleaseThread;
      ReleaseThread]].

Lemma step_out_of_range (cfg : config) (i : nat) (st : state) :
  length (callers st) <= i -> step cfg i st = None.
Proof.
  intros H. unfold step.
  now rewrite (proj2 (nth_error_None (callers st) i) H).
Qed.

(** C3 where it fails.  After two steps the thread holds the process lock
    and the thread lock and is in the outer section; its next step is to take
    the process lock again, and that step is never enabled: on no schedule
    does the thread reach the inner section or finish.  The thread lock by
    itself is re-entrant: the same nesting on it alone runs to the end. *)
Theorem nested_acquire_blocks :
  forall cfg : config,
    (exists st,
       run cfg [0; 0] (init nested) = Some st /\
       map prog (callers st) =
         [acquire section ++ [ReleaseThread; ReleaseProcess]] /\
       sem st (cfg 0) = true /\ rlock st 0 = Some (0, 1) /\
       step cfg 0 st = None) /\
    (forall schedule st,
       run cfg schedule (init nested) = Some st ->
       counter st = 0 /\ finished st 0 = false /\ length schedule <= 2) /\
    option_map (fun st => finished st 0)
      (run cfg [0; 0; 0; 0; 0; 0] (init nested_thread_lock)) = Some true.
Proof.
  intros cfg.
  assert (S1 : step cfg 0 (init nested) =
    Some (mkState (upd (fun _ => false) (cfg 0) true) (fun _ => None) 0
            [mkCaller 0 0 (AcquireThread :: acquire section ++
                           [ReleaseThread; ReleaseProcess])])) by reflexivity.
  assert (S2 : step cfg 0
    (mkState (upd (fun _ => false) (cfg 0) true) (fun _ => None) 0
       [mkCaller 0 0 (AcquireThread :: acquire section ++
                      [ReleaseThread; ReleaseProcess])]) =
    Some (mkState (upd (fun _ => false) (cfg 0) true)
            (upd (fun _ => None) 0 (Some (0, 1))) 0
            [mkCaller 0 0 (acquire section ++
                           [ReleaseThread; ReleaseProcess])])) by reflexivity.
  assert (S3 : step cfg 0
    (mkState (upd (fun _ => false) (cfg 0) true)
       (upd (fun _ => None) 0 (Some (0, 1))) 0
       [mkCaller 0 0 (acquire section ++ [ReleaseThread; ReleaseProcess])])
    = None).
  { unfold step. simpl. now rewrite upd_same. }
  split; [| split].
  - eexists. cbn [run]. rewrite S1, S2.
    split; [reflexivity |]. split; [reflexivity |].
    split; [apply upd_same |]. split; [reflexivity | exact S3].
  - intros schedule st.
    destruct schedule as [| i schedule]; cbn [run].
    { intros [= <-]. repeat split; simpl; auto. }
    destruct i as [| i];
      [| rewrite step_out_of_range by (simpl; lia); discriminate].
    rewrite S1.
    destruct schedule as [| j schedule]; cbn [run].
    { intros [= <-]. repeat split; simpl; auto. }
    destruct j as [| j];
      [| rewrite step_out_of_range by (simpl; lia); discriminate].
    rewrite S2.
    destruct schedule as [| k schedule]; cbn [run].
    { intros [= <-]. repeat split; simpl; auto. }
    destruct k as [| k];
      [| rewrite step_out_of_range by (simpl; lia); discriminate].
    rewrite S3. discriminate.
  - reflexivity.
Qed.

End LockFacts.

(* ===================================================================== *)
(** * Properties of the comment flow *)
(* ===================================================================== *)

Module CommentFlowFacts.
Import PyStr Param Moments CommentFlow.

(** A step that returns a value came from steps that returned values. *)
Lemma bind_ret_inv (W A B : Type) (m : M W A) (k : A -> M W B)
  (s s' : state W) (r : B) :
  bind m k s = (Ret r, s') ->
  exists a s1, m s = (Ret a, s1) /\ k a s1 = (Ret r, s').
Proof.
  unfold bind. destruct (m s) as [[a |] s1]; [eauto | discriminate].
Qed.

(** Asking whether a control exists issues no action and does not raise. *)
Lemma control_exists_pure (W : Type) (Exists : W -> control -> option bool)
  (c : option control) (s : state W) :
  exists b, control_exists Exists c s = (Ret b, s).
Proof.
  destruct c as [c |]; simpl.
  - unfold try_except, ask_raising, ret.
    destruct (Exists (fst s) c) as [b |]; [exists b | exists false];
      reflexivity.
  - exists false. reflexivity.
Qed.





(** ** A moment with an action button *)








End CommentFlowFacts.

(* ===================================================================== *)
(** * Properties of the views and of the equality of messages *)
(* ===================================================================== *)

Module BaseFacts.
Import PyStr PyText Param Msg Base MsgFacts.
Local Open Scope string_scope.
Local Open Scope list_scope.

Lemma first_value_exists (k : string) (l : list (string * pyval)) :
  existsb (fun kv => String.eqb (fst kv) k) l = true <->
  exists v, first_value k l = Some v.
Proof.
  induction l as [| [k' v'] l IH]; simpl.
  - split; [discriminate | intros [v H]; discriminate].
  - destruct (String.eqb k' k); simpl.
    + split; eauto.
    + exact IH.
Qed.

(** X3. Membership, indexing, iteration and [get] agree on every message: a key
    is in the message exactly when indexing by it gives a value, and exactly
    when iteration yields it; indexing raises KeyError exactly when the key
    is not in the message; [get] gives the indexed value, which is then
    also among the items, and the default when indexing raises; an object
    that is no string is never in the message. *)
Theorem lookup_agrees_with_membership :
  forall (P : WxParam) (m : Message) (key : string),
    (__contains__ P m (KStr key) = true <->
       exists v, __getitem__ P m key = Ok v) /\
    (__contains__ P m (KStr key) = false <->
       __getitem__ P m key = KeyError key) /\
    (In key (__iter__ P m) <-> __contains__ P m (KStr key) = true) /\
    (forall v default, __getitem__ P m key = Ok v ->
       get P m key default = v /\ In (key, v) (items P m)) /\
    (forall default, __getitem__ P m key = KeyError key ->
       get P m key default = default) /\
    __contains__ P m KOther = false.
Proof.
  intros P m key.
  assert (A : __contains__ P m (KStr key) = true <->
              exists v, __getitem__ P m key = Ok v).
  { unfold __contains__, __getitem__. rewrite first_value_exists.
    destruct (first_value key (_iter_public_items P m)).
    - split; eauto.
    - split; intros [v H]; discriminate. }
  split; [exact A |].
  split.
  { split.
    - intros H. unfold __getitem__.
      destruct (first_value key (_iter_public_items P m)) eqn:E;
        [| reflexivity].
      assert (T : __contains__ P m (KStr key) = true).
      { apply A. exists p. unfold __getitem__. now rewrite E. }
      congruence.
    - intros H. destruct (__contains__ P m (KStr key)) eqn:E;
        [| reflexivity].
      destruct (proj1 A eq_refl) as [v Hv]. congruence. }
  split.
  { rewrite contains_keys. reflexivity. }
  split.
  { intros v default. unfold __getitem__, get.
    destruct (first_value key (_iter_public_items P m)) eqn:E;
      [| discriminate].
    intros H. injection H as ->. split; [reflexivity |].
    now apply first_value_In. }
  split; [| reflexivity].
  intros default. unfold __getitem__, get.
  destruct (first_value key (_iter_public_items P m)); [discriminate | auto].
Qed.

(** X4. For an instance dictionary (its keys are distinct), [to_dict] and [copy]
    hold exactly the items, in their order: as many entries as [len]
    counts, the keys that [keys] gives, the values that [get] and indexing
    give. *)
Theorem to_dict_is_public_view :
  forall (P : WxParam) (m : Message),
    wf_message m ->
    to_dict P m = items P m /\ copy P m = items P m /\
    length (to_dict P m) = __len__ P m /\
    map fst (to_dict P m) = keys P m /\
    (forall key, dict_get key (to_dict P m) = get P m key VNone) /\
    (forall key v, In (key, v) (to_dict P m) <-> __getitem__ P m key = Ok v).
Proof.
  intros P m Hwf. pose proof (to_dict_items P Hwf) as E.
  unfold copy. rewrite E.
  repeat split; try reflexivity.
  - intros Hin. unfold __getitem__.
    rewrite (@first_value_NoDup key (_iter_public_items P m) v);
      [reflexivity | | exact Hin].
    unfold _iter_public_items. apply public_keys_NoDup. exact Hwf.
  - unfold __getitem__.
    destruct (first_value key (_iter_public_items P m)) eqn:F;
      [| discriminate].
    intros H. injection H as ->. now apply first_value_In.
Qed.

Lemma to_dict_is_public_view_witness :
  to_dict sample_param sample_message = items sample_param sample_message /\
  copy sample_param sample_message = items sample_param sample_message /\
  length (to_dict sample_param sample_message) =
    __len__ sample_param sample_message /\
  map fst (to_dict sample_param sample_message) =
    keys sample_param sample_message /\
  (forall key, dict_get key (to_dict sample_param sample_message) =
               get sample_param sample_message key VNone) /\
  (forall key v, In (key, v) (to_dict sample_param sample_message) <->
                 __getitem__ sample_param sample_message key = Ok v).
Proof.
  apply (@to_dict_is_public_view sample_param sample_message).
  unfold wf_message. simpl.
  repeat (constructor; [simpl; intuition discriminate |]). constructor.
Defined.

(** ** Equality *)

Lemma py_eq_refl (v : pyval) : py_eq v v = true.
Proof. now apply py_eq_true. Qed.

Lemma py_eq_sym (a b : pyval) : py_eq a b = py_eq b a.
Proof.
  unfold py_eq. destruct (pyval_eq_dec a b), (pyval_eq_dec b a);
    congruence.
Qed.

(** X5. Equality of messages is reflexive and symmetric, whatever the setting of
    MESSAGE_HASH and whatever attributes are set. *)
Theorem eq_reflexive_symmetric :
  forall (P : WxParam) (a b : Message),
    __eq__ P a a = true /\ __eq__ P a b = __eq__ P b a.
Proof.
  intros P a b. unfold __eq__, is_. split.
  - destruct (is_None (getattr a "id")); simpl.
    + destruct (MESSAGE_HASH P); [apply py_eq_refl | apply Nat.eqb_refl].
    + apply py_eq_refl.
  - rewrite (andb_comm (negb (is_None (getattr a "id")))).
    rewrite (py_eq_sym (getattr a "id")).
    rewrite (py_eq_sym (getattr a "hash")).
    now rewrite (Nat.eqb_sym (addr a)).
Qed.

(** X6. With MESSAGE_HASH enabled, equality of messages is not transitive: two
    messages with different ids are both equal to any message that has no
    id and shares their content hash, and are not equal to each other. *)
Theorem eq_not_transitive :
  forall (P : WxParam) (a b c : Message),
    MESSAGE_HASH P = true ->
    getattr a "id" <> VNone -> getattr c "id" <> VNone ->
    getattr a "id" <> getattr c "id" ->
    getattr b "id" = VNone ->
    getattr a "hash" = getattr b "hash" ->
    getattr b "hash" = getattr c "hash" ->
    __eq__ P a b = true /\ __eq__ P b c = true /\ __eq__ P a c = false.
Proof.
  intros P a b c Hon Ha Hc Hac Hb Hab Hbc. unfold __eq__.
  apply is_None_false in Ha, Hc. rewrite Ha, Hc, Hb, Hon. simpl.
  rewrite Hab, Hbc. rewrite !py_eq_refl. repeat split.
  destruct (py_eq (getattr a "id") (getattr c "id")) eqn:E; [| reflexivity].
  apply py_eq_true in E. contradiction.
Qed.

Definition hash_enabled : WxParam := mkWxParam true "cn" 5.

Definition with_id (addr : nat) (id : Z) : Message :=
  mkMessage addr [("id", VInt id); ("hash", VStr (u "9a1b"))].

Definition without_id (addr : nat) : Message :=
  mkMessage addr [("hash", VStr (u "9a1b"))].

Lemma eq_not_transitive_witness :
  __eq__ hash_enabled (with_id 1 7) (without_id 2) = true /\
  __eq__ hash_enabled (without_id 2) (with_id 3 8) = true /\
  __eq__ hash_enabled (with_id 1 7) (with_id 3 8) = false.
Proof.
  apply (@eq_not_transitive hash_enabled (with_id 1 7) (without_id 2)
           (with_id 3 8)); try reflexivity; discriminate.
Defined.

(** X7. Two messages built by [BaseMessage.__init__] from controls that have a
    runtime id are equal exactly when the runtime ids are equal, whatever
    their contents; the hash of such a message is the hash of its runtime
    id, so equal messages have equal hashes. *)
Theorem base_message_equality :
  forall (md5_hexdigest : ustr -> ustr) (hash : pyval -> Z)
         (object_hash : nat -> Z) (P : WxParam)
         (addr_a addr_b : nat) (control_a control_b : Control)
         (parent_a parent_b : ChatBox)
         (attr_a attr_b : list (string * pyval)),
    runtimeid control_a <> VNone -> runtimeid control_b <> VNone ->
    (__eq__ P (BaseMessage__init__ md5_hexdigest addr_a control_a parent_a attr_a)
              (BaseMessage__init__ md5_hexdigest addr_b control_b parent_b attr_b)
       = true <-> runtimeid control_a = runtimeid control_b) /\
    __hash__ hash object_hash P
      (BaseMessage__init__ md5_hexdigest addr_a control_a parent_a attr_a)
      = hash (runtimeid control_a) /\
    (__eq__ P (BaseMessage__init__ md5_hexdigest addr_a control_a parent_a attr_a)
              (BaseMessage__init__ md5_hexdigest addr_b control_b parent_b attr_b)
       = true ->
     __hash__ hash object_hash P
       (BaseMessage__init__ md5_hexdigest addr_a control_a parent_a attr_a) =
     __hash__ hash object_hash P
       (BaseMessage__init__ md5_hexdigest addr_b control_b parent_b attr_b)).
Proof.
  intros md5 hash object_hash P addr_a addr_b ca cb pa pb xa xb Ha Hb.
  assert (Ia : getattr (BaseMessage__init__ md5 addr_a ca pa xa) "id"
               = runtimeid ca) by reflexivity.
  assert (Ib : getattr (BaseMessage__init__ md5 addr_b cb pb xb) "id"
               = runtimeid cb) by reflexivity.
  assert (E : __eq__ P (BaseMessage__init__ md5 addr_a ca pa xa)
                       (BaseMessage__init__ md5 addr_b cb pb xb) = true <->
              runtimeid ca = runtimeid cb).
  { rewrite eq_by_id; rewrite ?Ia, ?Ib; tauto. }
  assert (H1 : forall addr c p x, runtimeid c <> VNone ->
             __hash__ hash object_hash P (BaseMessage__init__ md5 addr c p x)
             = hash (runtimeid c)).
  { intros addr c p x Hc. unfold __hash__.
    change (getattr (BaseMessage__init__ md5 addr c p x) "id")
      with (runtimeid c).
    apply is_None_false in Hc. now rewrite Hc. }
  split; [exact E |]. split; [now apply H1 |].
  intros Heq. apply E in Heq. rewrite !H1 by assumption. now rewrite Heq.
Qed.

Definition sample_control (id : Z) : Control :=
  mkControl 7 (VTuple [42; id]%Z) (u "hello") 40 120.

Lemma base_message_equality_witness :
  (__eq__ sample_param
     (BaseMessage__init__ (fun s => s) 1 (sample_control 1) (mkChatBox 3 0) [])
     (BaseMessage__init__ (fun s => s) 2 (sample_control 2) (mkChatBox 3 0) [])
     = true <-> runtimeid (sample_control 1) = runtimeid (sample_control 2)) /\
  __hash__ (fun _ => 0%Z) (fun _ => 0%Z) sample_param
    (BaseMessage__init__ (fun s => s) 1 (sample_control 1) (mkChatBox 3 0) [])
    = 0%Z /\
  (__eq__ sample_param
     (BaseMessage__init__ (fun s => s) 1 (sample_control 1) (mkChatBox 3 0) [])
     (BaseMessage__init__ (fun s => s) 2 (sample_control 2) (mkChatBox 3 0) [])
     = true ->
   __hash__ (fun _ => 0%Z) (fun _ => 0%Z) sample_param
     (BaseMessage__init__ (fun s => s) 1 (sample_control 1) (mkChatBox 3 0) []) =
   __hash__ (fun _ => 0%Z) (fun _ => 0%Z) sample_param
     (BaseMessage__init__ (fun s => s) 2 (sample_control 2) (mkChatBox 3 0) [])).
Proof.
  apply (@base_message_equality (fun s => s) (fun _ => 0%Z) (fun _ => 0%Z)
           sample_param 1 2 (sample_control 1) (sample_control 2)
           (mkChatBox 3 0) (mkChatBox 3 0) [] []); discriminate.
Defined.

(** ** [truncate_string] *)

Lemma replace1_drops (old : char) (s : ustr) :
  forallb (fun c => negb (c =? old)%N) (replace1 old [] s) = true.
Proof.
  unfold replace1. induction s as [| c s IH]; simpl; [reflexivity |].
  destruct (c =? old)%N eqn:E; simpl; [exact IH |].
  now rewrite E.
Qed.

Lemma forallb_firstn (p : char -> bool) (n : nat) (s : ustr) :
  forallb p s = true -> forallb p (firstn n s) = true.
Proof.
  revert n. induction s as [| c s IH]; intros [| n]; simpl; auto.
  intros H. apply andb_true_iff in H as [H1 H2]. rewrite H1. simpl. auto.
Qed.

(** X8. [truncate_string] answers a text without line feeds; for a limit n that
    is not negative the text has at most n + 3 characters; a text that,
    line feeds removed and stripped, has at most n characters is returned
    so, and a longer one is cut after n characters and ends in three
    dots. *)
Theorem truncate_string_bounded :
  forall (s : ustr) (n : Z),
    forallb Moments.not_newline (truncate_string s n) = true /\
    (0 <= n -> Z.of_nat (length (truncate_string s n)) <= n + 3)%Z /\
    ((Z.of_nat (length (strip (replace1 NL [] s))) <= n)%Z ->
       truncate_string s n = strip (replace1 NL [] s)) /\
    ((0 <= n < Z.of_nat (length (strip (replace1 NL [] s))))%Z ->
       truncate_string s n =
       firstn (Z.to_nat n) (strip (replace1 NL [] s)) ++ u "...").
Proof.
  intros s n. unfold truncate_string. cbv zeta.
  set (t := strip (replace1 NL [] s)).
  assert (Ht : forallb Moments.not_newline t = true).
  { apply MomentsFacts.forallb_strip. apply replace1_drops. }
  split.
  { destruct (Z.of_nat (length t) <=? n)%Z; [exact Ht |].
    rewrite forallb_app. apply andb_true_iff. split; [| reflexivity].
    unfold slice_to. destruct (0 <=? n)%Z; now apply forallb_firstn. }
  split.
  { intros Hn. destruct (Z.of_nat (length t) <=? n)%Z eqn:E.
    - apply Z.leb_le in E. lia.
    - rewrite length_app. unfold slice_to.
      replace (0 <=? n)%Z with true by (symmetry; now apply Z.leb_le).
      pose proof (firstn_le_length (Z.to_nat n) t).
      change (length (u "...")) with 3. lia. }
  split.
  { intros H. apply Z.leb_le in H. now rewrite H. }
  intros [H0 H1].
  replace (Z.of_nat (length t) <=? n)%Z with false
    by (symmetry; apply Z.leb_gt; lia).
  unfold slice_to.
  now replace (0 <=? n)%Z with true by (symmetry; now apply Z.leb_le).
Qed.

End BaseFacts.

(* ===================================================================== *)
(** * Properties of session elements and search results *)
(* ===================================================================== *)

Module SessionItemsFacts.
Import PyStr PyText Param Regex Moments Session SessionItems SessionFacts.
Local Open Scope string_scope.
Local Open Scope list_scope.

(** ** Lines *)

Definition nonblank (line : ustr) : bool :=
  nonempty line && nonempty (strip line).

Lemma filter_twice (A : Type) (f : A -> bool) (l : list A) :
  filter f (filter f l) = filter f l.
Proof.
  induction l as [| x l IH]; simpl; [reflexivity |].
  destruct (f x) eqn:E; simpl; [rewrite E |]; now rewrite ?IH.
Qed.

Lemma Forall_filter_keep (A : Type) (Q : A -> Prop) (f : A -> bool)
  (l : list A) : Forall Q l -> Forall Q (filter f l).
Proof.
  induction 1 as [| x l Hx Hl IH]; simpl; [constructor |].
  destruct (f x); [constructor |]; assumption.
Qed.

Lemma texts_no_newline (content : ustr) :
  Forall (fun line => mem NL line = false) (texts content).
Proof.
  unfold texts. apply Forall_filter_keep.
  unfold split. now apply split_go_char_free.
Qed.

(** X9. The lines of a session element hold no line feed and are not blank;
    joining them with line feeds and reading the lines again gives the same
    lines; [SearchResultElement.get_all_text] reads the same lines; and the
    name holds no line feed. *)
Theorem texts_round_trip :
  forall content : ustr,
    Forall (fun line => mem NL line = false /\ strip line <> [])
           (texts content) /\
    texts (join [NL] (texts content)) = texts content /\
    get_all_text content = texts content /\
    mem NL (name content) = false.
Proof.
  intros content.
  pose proof (texts_no_newline content) as Hnl.
  split.
  { rewrite Forall_forall in *. intros line Hin. split; [now apply Hnl |].
    unfold texts in Hin. apply filter_In in Hin as [_ H].
    apply andb_true_iff in H as [_ H]. intros E. now rewrite E in H. }
  split.
  { destruct (texts content) as [| l ls] eqn:E; [reflexivity |].
    unfold texts at 1. rewrite split_join; [| discriminate | exact Hnl].
    rewrite <- E. unfold texts. apply filter_twice. }
  split; [reflexivity |].
  unfold name. destruct (texts content) as [| l ls]; [reflexivity |].
  now inversion Hnl.
Qed.

(** ** Menu texts *)

(** X10. [_menu_option_text] never answers an empty text for a key that is not
    empty.  It answers the text of the table for the display language when
    that is not empty, else the Chinese text when that is not empty, else
    the key itself; and the key itself when the table has no entry for the
    key or the entry is no dictionary. *)
Theorem menu_option_text_never_empty :
  forall (T : menu_table) (P : WxParam) (key : ustr),
    (key <> [] -> _menu_option_text T P key <> []) /\
    (forall d text,
       lookup ustr_eqb key T = Some (EntryDict d) ->
       lookup String.eqb (LANGUAGE P) d = Some text -> text <> [] ->
       _menu_option_text T P key = text) /\
    (forall d text,
       lookup ustr_eqb key T = Some (EntryDict d) ->
       truthy (lookup String.eqb (LANGUAGE P) d) = false ->
       lookup String.eqb "cn" d = Some text -> text <> [] ->
       _menu_option_text T P key = text) /\
    (forall d,
       lookup ustr_eqb key T = Some (EntryDict d) ->
       truthy (lookup String.eqb (LANGUAGE P) d) = false ->
       truthy (lookup String.eqb "cn" d) = false ->
       _menu_option_text T P key = key) /\
    (lookup ustr_eqb key T = None \/ lookup ustr_eqb key T = Some EntryOther ->
     _menu_option_text T P key = key).
Proof.
  intros T P key. unfold _menu_option_text. cbv zeta.
  split.
  { intros Hk.
    destruct (lookup ustr_eqb key T) as [[d |] |]; cbn [entry_get].
    - destruct (lookup String.eqb (LANGUAGE P) d) as [[| c t] |];
        cbn [truthy negb];
        try destruct (lookup String.eqb "cn" d) as [[| c' t'] |];
        try assumption; discriminate.
    - cbn. assumption.
    - cbn. assumption. }
  split.
  { intros d text -> Hl Hne. cbn [entry_get]. rewrite Hl.
    destruct text; [congruence | reflexivity]. }
  split.
  { intros d text -> Hf Hc Hne. cbn [entry_get]. rewrite Hf. cbn [negb].
    rewrite Hc. destruct text; [congruence | reflexivity]. }
  split.
  { intros d -> Hf Hc. cbn [entry_get]. rewrite Hf. cbn [negb].
    destruct (lookup String.eqb "cn" d) as [[| c t] |];
      [reflexivity | discriminate | reflexivity]. }
  intros [-> | ->]; reflexivity.
Qed.

(** ** Short texts *)






End SessionItemsFacts.

(* ===================================================================== *)
(** * What a pattern matches *)
(* ===================================================================== *)

Module RegexSemantics.
Import PyStr Regex RegexFacts.
Local Open Scope list_scope.

(** [matches r s s']: [r] matches a prefix of [s] and leaves [s']. *)
Inductive matches : regex -> ustr -> ustr -> Prop :=
| MChr p c s : p c = true -> matches (Chr p) (c :: s) s
| MLit l s : matches (Lit l) (l ++ s) s
| MSeq r1 r2 s s1 s2 :
    matches r1 s s1 -> matches r2 s1 s2 -> matches (Seq r1 r2) s s2
| MOptSome r s s' : matches r s s' -> matches (Opt r) s s'
| MOptNone r s : matches (Opt r) s s
| MStar p a s : forallb p a = true -> matches (Star p) (a ++ s) s
| MPlus p a s : a <> [] -> forallb p a = true -> matches (Plus p) (a ++ s) s
| MPlusLazy p a s :
    a <> [] -> forallb p a = true -> matches (PlusLazy p) (a ++ s) s
| MGroup name r s s' : matches r s s' -> matches (Group name r) s s'
| MEosEnd : matches Eos [] []
| MEosNewline : matches Eos [NL] [NL].

(** [captures r s g s' g']: the same, with the groups before and after;
    a group records the text that its pattern matched. *)
Inductive captures : regex -> ustr -> groups -> ustr -> groups -> Prop :=
| CChr p c s g : p c = true -> captures (Chr p) (c :: s) g s g
| CLit l s g : captures (Lit l) (l ++ s) g s g
| CSeq r1 r2 s s1 s2 g g1 g2 :
    captures r1 s g s1 g1 -> captures r2 s1 g1 s2 g2 ->
    captures (Seq r1 r2) s g s2 g2
| COptSome r s s' g g' : captures r s g s' g' -> captures (Opt r) s g s' g'
| COptNone r s g : captures (Opt r) s g s g
| CStar p a s g : forallb p a = true -> captures (Star p) (a ++ s) g s g
| CPlus p a s g :
    a <> [] -> forallb p a = true -> captures (Plus p) (a ++ s) g s g
| CPlusLazy p a s g :
    a <> [] -> forallb p a = true -> captures (PlusLazy p) (a ++ s) g s g
| CGroup name r s s' g g' :
    captures r s g s' g' ->
    captures (Group name r) s g s'
             ((name, firstn (length s - length s') s) :: g')
| CEosEnd g : captures Eos [] g [] g
| CEosNewline g : captures Eos [NL] g [NL] g.

Lemma star_greedy_sound (p : char -> bool) (k : ustr -> option groups)
  (g : groups) :
  forall s, star_greedy p s k = Some g ->
    exists a s', s = a ++ s' /\ forallb p a = true /\ k s' = Some g.
Proof.
  induction s as [| c s IH]; simpl; intros H.
  - exists [], []. auto.
  - destruct (p c) eqn:E.
    + destruct (star_greedy p s k) eqn:F.
      * injection H as ->. destruct (IH eq_refl) as [a [s' [-> [Ha Hk]]]].
        exists (c :: a), s'. simpl. rewrite E. auto.
      * exists [], (c :: s). auto.
    + exists [], (c :: s). auto.
Qed.

Lemma star_greedy_complete (p : char -> bool) (k : ustr -> option groups)
  (a s' : ustr) :
  forallb p a = true -> k s' <> None -> star_greedy p (a ++ s') k <> None.
Proof.
  induction a as [| c a IH]; intros Ha Hk.
  - destruct s' as [| c s']; simpl; [assumption |].
    destruct (p c); [| assumption].
    destruct (star_greedy p s' k); [discriminate | assumption].
  - simpl in Ha. apply andb_true_iff in Ha as [Hc Ha]. simpl. rewrite Hc.
    specialize (IH Ha Hk).
    destruct (star_greedy p (a ++ s') k); [discriminate | congruence].
Qed.

Lemma star_lazy_sound (p : char -> bool) (k : ustr -> option groups)
  (g : groups) :
  forall s, star_lazy p s k = Some g ->
    exists a s', s = a ++ s' /\ forallb p a = true /\ k s' = Some g.
Proof.
  induction s as [| c s IH]; simpl; intros H.
  - destruct (k []) eqn:E; [| discriminate]. injection H as ->.
    exists [], []. auto.
  - destruct (k (c :: s)) eqn:E.
    + injection H as ->. exists [], (c :: s). auto.
    + destruct (p c) eqn:F; [| discriminate].
      destruct (IH H) as [a [s' [-> [Ha Hk]]]].
      exists (c :: a), s'. simpl. rewrite F. auto.
Qed.

Lemma star_lazy_complete (p : char -> bool) (k : ustr -> option groups)
  (a s' : ustr) :
  forallb p a = true -> k s' <> None -> star_lazy p (a ++ s') k <> None.
Proof.
  induction a as [| c a IH]; intros Ha Hk.
  - destruct s' as [| c s']; simpl.
    + destruct (k []); [discriminate | congruence].
    + destruct (k (c :: s')); [discriminate | congruence].
  - simpl in Ha. apply andb_true_iff in Ha as [Hc Ha]. simpl.
    destruct (k (c :: a ++ s')); [discriminate |].
    rewrite Hc. now apply IH.
Qed.

(** Whatever the matcher finds is a match, with the groups it records. *)
Lemma rmatch_sound (r : regex) :
  forall s g k g',
    rmatch r s g k = Some g' ->
    exists s' g1, captures r s g s' g1 /\ k s' g1 = Some g'.
Proof.
  induction r as [p | l | r1 IH1 r2 IH2 | r IH | p | p | p | name r IH |];
    intros s g k g' H.
  - simpl in H. destruct s as [| c s]; [discriminate |].
    destruct (p c) eqn:E; [| discriminate].
    exists s, g. split; [now constructor | assumption].
  - simpl in H. destruct (startswith l s) eqn:E; [| discriminate].
    apply SessionFacts.startswith_true in E.
    exists (skipn (length l) s), g. split; [| assumption].
    rewrite E at 1. constructor.
  - simpl in H. apply IH1 in H as [s1 [g1 [M1 H]]].
    apply IH2 in H as [s2 [g2 [M2 H]]].
    exists s2, g2. split; [econstructor; eassumption | assumption].
  - simpl in H. destruct (rmatch r s g k) eqn:E.
    + injection H as ->. apply IH in E as [s' [g1 [M H]]].
      exists s', g1. split; [now constructor | assumption].
    + exists s, g. split; [apply COptNone | assumption].
  - simpl in H. apply star_greedy_sound in H as [a [s' [-> [Ha H]]]].
    exists s', g. split; [now constructor | assumption].
  - simpl in H. destruct s as [| c s]; [discriminate |].
    destruct (p c) eqn:E; [| discriminate].
    apply star_greedy_sound in H as [a [s' [-> [Ha H]]]].
    exists s', g. split; [| assumption].
    change (c :: a ++ s') with ((c :: a) ++ s'). constructor;
      [discriminate | simpl; now rewrite E].
  - simpl in H. destruct s as [| c s]; [discriminate |].
    destruct (p c) eqn:E; [| discriminate].
    apply star_lazy_sound in H as [a [s' [-> [Ha H]]]].
    exists s', g. split; [| assumption].
    change (c :: a ++ s') with ((c :: a) ++ s'). constructor;
      [discriminate | simpl; now rewrite E].
  - rewrite rmatch_group in H. apply IH in H as [s' [g1 [M H]]].
    exists s', ((name, firstn (length s - length s') s) :: g1).
    split; [now constructor | assumption].
  - simpl in H. destruct s as [| c [| d s]].
    + exists [], g. split; [constructor | assumption].
    + destruct (c =? NL)%N eqn:E; [| discriminate].
      apply N.eqb_eq in E. subst c.
      exists [NL], g. split; [constructor | assumption].
    + discriminate.
Qed.

Lemma captures_matches (r : regex) (s s' : ustr) (g g' : groups) :
  captures r s g s' g' -> matches r s s'.
Proof.
  induction 1;
    solve [ constructor; assumption | econstructor; eassumption
          | apply MOptNone ].
Qed.

(** Where there is a match after which the continuation succeeds, the
    matcher does not fail. *)
Lemma rmatch_complete (r : regex) (s s' : ustr) :
  matches r s s' ->
  forall g k, (forall g1, k s' g1 <> None) -> rmatch r s g k <> None.
Proof.
  induction 1 as [p c s Hp | l s | r1 r2 s s1 s2 M1 IH1 M2 IH2
                 | r s s' M IH | r s | p a s Ha | p a s Hne Ha
                 | p a s Hne Ha | name r s s' M IH | |];
    intros g k Hk.
  - simpl. rewrite Hp. apply Hk.
  - rewrite rmatch_lit_app. apply Hk.
  - simpl. apply IH1. intros g1. now apply IH2.
  - simpl. specialize (IH g k Hk).
    destruct (rmatch r s g k); [discriminate | congruence].
  - simpl. destruct (rmatch r s g k); [discriminate | apply Hk].
  - simpl. apply star_greedy_complete; [assumption | apply Hk].
  - destruct a as [| c a]; [congruence |].
    simpl in Ha. apply andb_true_iff in Ha as [Hc Ha].
    simpl. rewrite Hc. apply star_greedy_complete; [assumption | apply Hk].
  - destruct a as [| c a]; [congruence |].
    simpl in Ha. apply andb_true_iff in Ha as [Hc Ha].
    simpl. rewrite Hc. apply star_lazy_complete; [assumption | apply Hk].
  - rewrite rmatch_group. apply IH. intros g1. apply Hk.
  - simpl. apply Hk.
  - simpl. apply Hk.
Qed.

(** A match uses a prefix of the text. *)
Lemma matches_suffix (r : regex) (s s' : ustr) :
  matches r s s' -> suffix s' s.
Proof.
  induction 1 as [p c s Hp | l s | r1 r2 s s1 s2 M1 IH1 M2 IH2
                 | r s s' M IH | r s | p a s Ha | p a s Hne Ha
                 | p a s Hne Ha | name r s s' M IH | |].
  - exists [c]. reflexivity.
  - now exists l.
  - eapply suffix_trans; eassumption.
  - assumption.
  - apply suffix_refl.
  - now exists a.
  - now exists a.
  - now exists a.
  - assumption.
  - apply suffix_refl.
  - apply suffix_refl.
Qed.

Lemma re_match_found (r : regex) (s : ustr) :
  re_match r s <> None <-> exists s', matches r s s'.
Proof.
  unfold re_match. split.
  - destruct (rmatch r s [] (fun _ g => Some g)) eqn:E; [| congruence].
    intros _. apply rmatch_sound in E as [s' [g1 [M _]]].
    apply captures_matches in M. eauto.
  - intros [s' M]. apply (rmatch_complete M). discriminate.
Qed.

Lemma re_search_found (r : regex) (s : ustr) :
  re_search r s <> None <->
  exists pre s0 s', s = pre ++ s0 /\ matches r s0 s'.
Proof.
  split.
  - destruct (re_search r s) eqn:E; [| congruence]. intros _.
    apply SessionFacts.re_search_some in E as [pre [s0 [-> E]]].
    assert (N : re_match r s0 <> None) by congruence.
    apply re_match_found in N as [s' M]. eauto.
  - intros [pre [s0 [s' [-> M]]]].
    induction pre as [| c pre IH].
    + assert (N : re_match r s0 <> None) by (apply re_match_found; eauto).
      destruct s0; simpl; destruct (re_match r _); congruence.
    + simpl. destruct (re_match r (c :: pre ++ s0)); [discriminate |].
      exact IH.
Qed.

(** Patterns without [$] do not look past what they match. *)
Fixpoint no_eos (r : regex) : bool :=
  match r with
  | Seq r1 r2 => no_eos r1 && no_eos r2
  | Opt r1 | Group _ r1 => no_eos r1
  | Eos => false
  | _ => true
  end.

Lemma matches_extend (r : regex) (s s' : ustr) :
  matches r s s' -> no_eos r = true ->
  forall more, matches r (s ++ more) (s' ++ more).
Proof.
  induction 1; simpl; intros Hn more;
    try (rewrite <- app_assoc); try (now constructor).
  - apply andb_true_iff in Hn as [H1 H2]. econstructor; eauto.
  - constructor. auto.
  - constructor. auto.
  - discriminate.
  - discriminate.
Qed.

End RegexSemantics.

(* ===================================================================== *)
(** * Properties of time lines, comments and likes *)
(* ===================================================================== *)

Module MomentTextFacts.
Import PyStr PyText Param Regex Moments MomentText RegexFacts MomentsFacts
       RegexSemantics.
Local Open Scope string_scope.
Local Open Scope list_scope.

(** ** [_is_time_line] *)

Lemma found_true (m : option groups) : found m = true <-> m <> None.
Proof. destruct m; simpl; split; congruence. Qed.

(** X12. [_is_time_line] looks for a time anywhere in the line: a line that
    contains a text recognised as a time is itself recognised, whatever
    stands before and after. *)
Theorem time_line_is_local :
  forall before text after : ustr,
    _is_time_line text = true ->
    _is_time_line (before ++ text ++ after) = true.
Proof.
  intros before text after. unfold _is_time_line.
  destruct text as [| c text]; [discriminate |].
  cbn [nonempty negb]. intros H.
  assert (N : nonempty (before ++ (c :: text) ++ after) = true)
    by now destruct before.
  rewrite N. cbn [negb].
  apply existsb_exists in H as [pattern [Hin Hf]].
  apply existsb_exists. exists pattern. split; [assumption |].
  apply found_true. apply found_true in Hf.
  apply re_search_found in Hf as [pre [s0 [s' [E M]]]].
  apply re_search_found.
  exists (before ++ pre), (s0 ++ after), (s' ++ after).
  split; [rewrite E; now rewrite <- !app_assoc |].
  apply matches_extend; [assumption |].
  assert (A : forallb no_eos time_patterns = true) by reflexivity.
  rewrite forallb_forall in A. now apply A.
Qed.

Lemma time_line_is_local_witness :
  _is_time_line (u "比分 " ++ u "3:21" ++ u " 领先") = true.
Proof.
  apply (@time_line_is_local (u "比分 ") (u "3:21") (u " 领先")).
  reflexivity.
Defined.

(** ** [from_text]: the first colon decides *)

Ltac inv H := inversion H; subst; clear H.

Ltac inv_captures :=
  repeat match goal with
  | H : captures (Seq _ _) _ _ _ _ |- _ => inv H
  | H : captures (Group _ _) _ _ _ _ |- _ => inv H
  | H : captures (Chr _) _ _ _ _ |- _ => inv H
  | H : captures (Lit _) _ _ _ _ |- _ => inv H
  | H : captures (Star _) _ _ _ _ |- _ => inv H
  | H : captures (PlusLazy _) _ _ _ _ |- _ => inv H
  | H : captures Eos _ _ _ _ |- _ => inv H
  | H : captures (Opt _) _ _ _ _ |- _ => inv H
  end.

Lemma space_not_colon (ws : ustr) :
  forallb isspace ws = true -> colon_free ws = true.
Proof.
  unfold colon_free. induction ws as [| c ws IH]; simpl; [reflexivity |].
  intros H. apply andb_true_iff in H as [Hc Hws].
  rewrite (IH Hws), andb_true_r. unfold not_colon.
  destruct (is_colon c) eqn:E; [| reflexivity].
  apply colon_not_space in E. congruence.
Qed.

Lemma colon_free_app (x y : ustr) :
  colon_free (x ++ y) = colon_free x && colon_free y.
Proof. unfold colon_free. apply forallb_app. Qed.

(** What a match of the comment pattern looks like. *)
Lemma comment_re_captures (t s' : ustr) (m : groups) :
  captures comment_re t [] s' m ->
  exists a mid c z,
    t = a ++ mid ++ c :: z ++ s' /\ a <> [] /\
    colon_free (a ++ mid) = true /\ is_colon c = true /\
    one_line z = true /\ (s' = [] \/ s' = [NL]) /\
    group m "author" = Some a /\ group m "content" = Some z.
Proof.
  intros H. unfold comment_re in H.
  inv_captures.
  all: rewrite ?firstn_app_exact.
  all: match goal with
       | |- exists _ _ _ _,
              ?A ++ ?W ++ u "回复" ++ ?W2 ++ ?B ++ ?W3 ++ ?c :: ?Z ++ _ = _
              /\ _ =>
           exists A, (W ++ u "回复" ++ W2 ++ B ++ W3), c, Z
       | |- exists _ _ _ _, ?A ++ ?W ++ ?c :: ?Z ++ _ = _ /\ _ =>
           exists A, W, c, Z
       end.
  all: repeat split; auto; try (now rewrite <- !app_assoc).
  all: rewrite ?colon_free_app;
       repeat (apply andb_true_iff; split);
       try (apply space_not_colon; assumption);
       try assumption; reflexivity.
Qed.

Lemma first_colon_unique (a a' z z' : ustr) (c c' : char) :
  a ++ c :: z = a' ++ c' :: z' ->
  colon_free a = true -> is_colon c = true ->
  colon_free a' = true -> is_colon c' = true ->
  a = a' /\ c = c' /\ z = z'.
Proof.
  unfold colon_free, not_colon.
  revert a'. induction a as [| x a IH]; intros [| y a'] E Ha Hc Ha' Hc';
    simpl in *.
  - injection E as -> ->. auto.
  - injection E as -> _. apply andb_true_iff in Ha' as [H _].
    rewrite Hc in H. discriminate.
  - injection E as -> _. apply andb_true_iff in Ha as [H _].
    rewrite Hc' in H. discriminate.
  - injection E as -> E. apply andb_true_iff in Ha as [_ Ha].
    apply andb_true_iff in Ha' as [_ Ha'].
    destruct (IH a' E Ha Hc Ha' Hc') as [-> [-> ->]]. auto.
Qed.

Lemma recognised_matches (a z : ustr) (c : char) :
  a <> [] -> colon_free a = true -> is_colon c = true ->
  one_line z = true ->
  matches comment_re (a ++ c :: z) [].
Proof.
  intros Hne Ha Hc Hz. unfold comment_re.
  apply MSeq with (s1 := c :: z).
  { apply MGroup. now apply MPlusLazy. }
  apply MSeq with (s1 := c :: z).
  { apply (MStar isspace [] (c :: z)). reflexivity. }
  apply MSeq with (s1 := c :: z); [apply MOptNone |].
  apply MSeq with (s1 := z); [now apply MChr |].
  apply MSeq with (s1 := []); [| apply MEosEnd].
  apply MGroup. rewrite <- (app_nil_r z) at 1. now apply MStar.
Qed.

Lemma strip_nonempty (s : ustr) :
  s <> [] -> starts_space s = false -> strip s <> [].
Proof.
  intros Hne Hs. unfold strip. rewrite (lstrip_id _ Hs).
  destruct s as [| c s]; [congruence |]. simpl in Hs.
  unfold rstrip. intros E. apply (f_equal (@rev char)) in E.
  rewrite rev_involutive in E. simpl in E.
  pose proof (dropWhile_head isspace (rev s ++ [c])) as Hh.
  pose proof (dropWhile_suffix isspace (rev s ++ [c])) as [pre Hp].
  rewrite E in Hp. rewrite app_nil_r in Hp.
  assert (T : forallb isspace (rev s ++ [c]) = true).
  { clear - E. revert E. generalize (rev s ++ [c]).
    induction l as [| x l IH]; simpl; [reflexivity |].
    destruct (isspace x); [intros; now apply IH | discriminate]. }
  rewrite forallb_app in T. apply andb_true_iff in T as [_ T].
  simpl in T. rewrite Hs in T. discriminate.
Qed.

(** The body of [from_text], after its first [strip]. *)
Definition parse_stripped (text : ustr) : MomentComment :=
  match re_match comment_re text with
  | Some m =>
      mkMomentComment (strip (group_or_empty m "author"))
        (strip (group_or_empty m "content"))
        match group m "reply" with
        | Some r => if nonempty r then Some (strip r) else Some r
        | None => None
        end text
  | None => mkMomentComment [] (strip text) None text
  end.

Lemma from_text_parse (text : ustr) :
  from_text text = parse_stripped (strip text).
Proof. reflexivity. Qed.

(** X13. [from_text] on any text: raw is the stripped text, and parsing raw again
    gives the same comment.  The author is not empty exactly when the
    stripped text has a first colon with something before it and a single
    line after it; then the content is what follows that colon, stripped,
    and the author is a prefix of what precedes it.  Otherwise the comment
    has an empty author, no reply_to and the stripped text as content. *)
Theorem from_text_first_colon :
  forall text : ustr,
    raw (from_text text) = strip text /\
    from_text (raw (from_text text)) = from_text text /\
    (author (from_text text) = [] ->
     from_text text = mkMomentComment [] (strip text) None (strip text)) /\
    (author (from_text text) <> [] <->
     exists a c z,
       strip text = a ++ c :: z /\ a <> [] /\ colon_free a = true /\
       is_colon c = true /\ one_line z = true) /\
    (forall a c z,
       strip text = a ++ c :: z -> a <> [] -> colon_free a = true ->
       is_colon c = true -> one_line z = true ->
       content (from_text text) = strip z /\
       exists rest, a = author (from_text text) ++ rest).
Proof.
  intros text.
  assert (R : raw (from_text text) = strip text).
  { rewrite from_text_parse. unfold parse_stripped.
    now destruct (re_match comment_re (strip text)). }
  split; [exact R |].
  split.
  { rewrite R, !from_text_parse. now rewrite strip_idempotent. }
  rewrite from_text_parse.
  pose proof (strip_trimmed text) as [Hs He].
  set (t := strip text) in *.
  unfold parse_stripped.
  destruct (re_match comment_re t) as [m |] eqn:E.
  - unfold re_match in E.
    apply rmatch_sound in E as [s' [m' [C F]]]. injection F as ->.
    apply comment_re_captures in C
      as [a0 [mid [c0 [z0 [Et [Hne [Hcf [Hc [Hz [Hend [Ga Gc]]]]]]]]]]].
    assert (s' = []) as ->.
    { destruct Hend as [-> | ->]; [reflexivity |].
      exfalso. rewrite Et in He.
      replace (a0 ++ mid ++ c0 :: z0 ++ [NL])
        with ((a0 ++ mid ++ c0 :: z0) ++ [NL]) in He
        by (now rewrite <- !app_assoc).
      rewrite ends_space_app in He by discriminate. discriminate. }
    rewrite app_nil_r in Et.
    unfold group_or_empty. rewrite Ga, Gc. cbn [author content].
    assert (Sa : starts_space a0 = false).
    { rewrite Et in Hs. now rewrite starts_space_app in Hs. }
    assert (Na : strip a0 <> []) by now apply strip_nonempty.
    split; [intros H; contradiction |].
    split.
    { split; [| intros _; exact Na].
      intros _. exists (a0 ++ mid), c0, z0.
      repeat split; try assumption.
      - now rewrite <- app_assoc.
      - destruct a0; [congruence | discriminate]. }
    intros a c z Ea Hane Hacf Hac Haz.
    rewrite Et in Ea.
    replace (a0 ++ mid ++ c0 :: z0) with ((a0 ++ mid) ++ c0 :: z0) in Ea
      by (now rewrite <- app_assoc).
    destruct (@first_colon_unique _ _ _ _ _ _ Ea Hcf Hc Hacf Hac)
      as [<- [<- <-]].
    split; [reflexivity |].
    unfold strip. rewrite (lstrip_id _ Sa).
    destruct (rstrip_split a0) as [w [Hw _]].
    exists (w ++ mid). rewrite app_assoc, <- Hw. reflexivity.
  - cbn [author].
    assert (St : strip t = t) by (unfold t; apply strip_idempotent).
    rewrite St.
    assert (No : forall a c z,
               t = a ++ c :: z -> a <> [] -> colon_free a = true ->
               is_colon c = true -> one_line z = true -> False).
    { intros a c z Et Hne Hcf Hc Hz.
      assert (N : re_match comment_re t <> None).
      { apply re_match_found. exists []. rewrite Et.
        now apply recognised_matches. }
      congruence. }
    split; [reflexivity |].
    split.
    { split; [congruence |].
      intros [a [c [z [Et [Hne [Hcf [Hc Hz]]]]]]]. exfalso. eauto. }
    intros a c z Et Hne Hcf Hc Hz. exfalso. eauto.
Qed.

(** ** Printed comments *)

Lemma stripped_ends (s : ustr) : strip s = s -> ends_space s = false.
Proof. intros E. rewrite <- E. apply strip_trimmed. Qed.

Lemma stripped_starts (s : ustr) : strip s = s -> starts_space s = false.
Proof. intros E. rewrite <- E. apply strip_trimmed. Qed.

(** The content as it stands after the colon and the blank of a printed
    line, once the line is stripped. *)
Lemma printed_content (C : ustr) :
  strip C = C -> one_line C = true ->
  one_line (rstrip (SPACE :: C)) = true /\
  strip (rstrip (SPACE :: C)) = C.
Proof.
  intros HC H1. split.
  - unfold one_line. apply forallb_rstrip. simpl. exact H1.
  - destruct C as [| c C]; [reflexivity |].
    rewrite rstrip_id.
    + unfold strip. change (lstrip (SPACE :: c :: C)) with (lstrip (c :: C)).
      exact HC.
    + change (SPACE :: c :: C) with ([SPACE] ++ c :: C).
      rewrite ends_space_app by discriminate. now apply stripped_ends.
Qed.

Lemma startswith_prefix (sub x y : ustr) :
  startswith sub x = true -> startswith sub (x ++ y) = true.
Proof.
  revert x. induction sub as [| a sub IH]; intros x H; [reflexivity |].
  destruct x as [| b x]; [discriminate |].
  simpl in *. apply andb_true_iff in H as [Hab H].
  now rewrite Hab, IH.
Qed.

Lemma contains_prefix (sub x y : ustr) :
  contains sub (x ++ y) = false -> contains sub x = false.
Proof.
  induction x as [| c x IH]; intros H.
  - destruct (contains sub []) eqn:E; [| reflexivity].
    simpl in E. rewrite orb_false_r in E.
    destruct sub; [| discriminate].
    destruct y; simpl in H; discriminate.
  - simpl in *. apply orb_false_iff in H as [H1 H2].
    rewrite (IH H2), orb_false_r.
    destruct (startswith sub (c :: x)) eqn:E; [| reflexivity].
    apply startswith_prefix with (y := y) in E. simpl in E. congruence.
Qed.

(** A name that has no marker after its first character has none inside. *)
Lemma marker_after_first_inside (A : ustr) :
  marker_after_first A = false -> marker_inside A = false.
Proof.
  unfold marker_after_first, marker_inside.
  destruct A as [| x A]; [auto |].
  destruct A as [| y A]; [auto |].
  intros H. cbn [tl] in H.
  change (tl (removelast (x :: y :: A))) with (removelast (y :: A)).
  apply contains_prefix with (y := [last (y :: A) 0%N]).
  rewrite <- app_removelast_last by discriminate. exact H.
Qed.

(** X14. The line that [show_moments] prints for a comment parses back to the
    comment: for an author and a reply_to that are names (not empty, no
    colon, no white space around them), the author without the reply marker
    after its first character, and a stripped single-line content,
    [from_text] of the printed line gives the author, the content and the
    reply_to of the comment. *)
Theorem printed_comment_parses_back :
  forall c : MomentComment,
    name_ok (author c) = true -> marker_after_first (author c) = false ->
    match reply_to c with
    | Some b => name_ok b = true
    | None => True
    end ->
    one_line (content c) = true -> strip (content c) = content c ->
    from_text (comment_line c) =
    mkMomentComment (author c) (content c) (reply_to c)
                    (strip (comment_line c)).
Proof.
  intros [A C R raw0]. cbn [author content reply_to].
  intros HA Hm HR HC HCs.
  destruct (printed_content HCs HC) as [P1 P2].
  pose proof (name_ok_inv _ HA) as [Ane [As [Ae _]]].
  rewrite from_text_parse. unfold comment_line. cbn [author content reply_to].
  destruct R as [B |].
  - pose proof (name_ok_inv _ HR) as [Bne [Bs [Be _]]].
    destruct B as [| b B]; [congruence |].
    assert (E : strip (u "        " ++ A ++ (u " 回复 " ++ b :: B) ++
                       u ": " ++ C) =
                A ++ [SPACE] ++ u "回复" ++ [SPACE] ++ (b :: B) ++ [] ++
                58%N :: rstrip (SPACE :: C)).
    { replace (A ++ (u " 回复 " ++ b :: B) ++ u ": " ++ C)
        with ((A ++ [SPACE] ++ u "回复" ++ [SPACE] ++ b :: B) ++
              58%N :: SPACE :: C)
        by (rewrite <- !app_assoc; reflexivity).
      rewrite strip_shape.
      - rewrite <- !app_assoc. reflexivity.
      - reflexivity.
      - now destruct A.
      - now rewrite starts_space_app.
      - reflexivity. }
    rewrite E. unfold parse_stripped.
    rewrite comment_match_reply; try assumption; try reflexivity.
    unfold group_or_empty. cbn [group String.eqb Ascii.eqb Bool.eqb].
    cbv beta iota.
    rewrite (strip_id _ As Ae), (strip_id _ Bs Be), P2. reflexivity.
  - assert (E : strip (u "        " ++ A ++ [] ++ u ": " ++ C) =
                A ++ [] ++ 58%N :: rstrip (SPACE :: C)).
    { cbn [app]. change (u ": " ++ C) with (58%N :: SPACE :: C).
      now apply strip_shape. }
    rewrite E. unfold parse_stripped.
    rewrite comment_match_plain; try assumption; try reflexivity;
      [| rewrite app_nil_r; now apply marker_after_first_inside].
    unfold group_or_empty. cbn [group String.eqb Ascii.eqb Bool.eqb].
    cbv beta iota.
    rewrite (strip_id _ As Ae), P2. reflexivity.
Qed.

Lemma printed_comment_parses_back_witness :
  from_text
    (comment_line
       (mkMomentComment (u "张三") (u "你好") (Some (u "李四")) [])) =
  mkMomentComment (u "张三") (u "你好") (Some (u "李四"))
    (strip (comment_line
       (mkMomentComment (u "张三") (u "你好") (Some (u "李四")) []))).
Proof.
  apply (@printed_comment_parses_back
           (mkMomentComment (u "张三") (u "你好") (Some (u "李四")) []));
    reflexivity.
Defined.

End MomentTextFacts.

(* ===================================================================== *)
(** * Properties of the names of a likes line *)
(* ===================================================================== *)

Module LikeNamesFacts.
Import PyStr PyText Param Regex Moments RegexFacts MomentsFacts LikesFacts
       SessionFacts MomentTextFacts.
Local Open Scope string_scope.
Local Open Scope list_scope.

Lemma strip_nonblank_clean (parts : list ustr) :
  Forall (fun n => n <> [] /\ strip n = n) (strip_nonblank parts).
Proof.
  unfold strip_nonblank. apply Forall_forall. intros n Hin.
  apply in_map_iff in Hin as [x [<- Hx]]. apply filter_In in Hx as [_ Hx].
  split; [| apply strip_idempotent].
  destruct (strip x); [discriminate | discriminate].
Qed.


Lemma like_names_stripped (M : lang_table) (P : WxParam) (text : ustr) :
  Forall (fun n => n <> [] /\ strip n = n) (_split_like_names M P text).
Proof.
  unfold _split_like_names.
  destruct (nonempty text); cbn [negb]; [| constructor].
  cbv zeta. destruct (nonempty (_lang M P (u "分隔符_点赞")));
    apply strip_nonblank_clean.
Qed.

(** X15. The names that [_split_like_names] returns are never empty and carry no
    white space around them, for every table and every text; a text of
    white space only gives no name. *)
Theorem split_like_names_clean :
  forall (M : lang_table) (P : WxParam) (text : ustr),
    Forall (fun n => n <> [] /\ strip n = n) (_split_like_names M P text) /\
    (strip text = [] -> _split_like_names M P text = []).
Proof.
  intros M P text. split; [apply like_names_stripped |].
  unfold _split_like_names.
  intros E. destruct (nonempty text); cbn [negb]; [| reflexivity].
  cbv zeta. rewrite E.
  assert (T : (if startswith (_lang M P (u "赞")) []
               then lstrip_chars (u "：: ")
                      (skipn (length (_lang M P (u "赞"))) [])
               else []) = []).
  { destruct (startswith (_lang M P (u "赞")) []); [| reflexivity].
    now rewrite skipn_nil. }
  rewrite T.
  destruct (_lang M P (u "分隔符_点赞")) as [| a sep']; reflexivity.
Qed.

Lemma join_last (sep : ustr) (names : list ustr) :
  names <> [] -> exists pre, join sep names = pre ++ last names [].
Proof.
  induction names as [| n names IH]; [congruence |]. intros _.
  destruct names as [| n' names].
  - exists []. reflexivity.
  - destruct IH as [pre E]; [discriminate |].
    exists (n ++ sep ++ pre).
    change (join sep (n :: n' :: names))
      with (n ++ sep ++ join sep (n' :: names)).
    rewrite E, <- !app_assoc. reflexivity.
Qed.

Lemma join_first (sep : ustr) (n : ustr) (names : list ustr) :
  exists post, join sep (n :: names) = n ++ post.
Proof.
  destruct names as [| n' names].
  - exists []. simpl. now rewrite app_nil_r.
  - eexists. reflexivity.
Qed.





End LikeNamesFacts.

(* ===================================================================== *)
(** * Properties of the like and comment actions *)
(* ===================================================================== *)

Module MomentLikeFacts.
Import PyStr Param Moments CommentFlow MomentLike CommentFlowFacts.

Section Steps.

Variable W : Type.
Variable GetChildren : W -> control -> option (list control).
Variable ControlTypeName : W -> control -> string.
Variable Name : W -> control -> ustr.
Variable Exists : W -> control -> option bool.
Variable find_all_windows_from_root : W -> list control.
Variable perform : W -> action -> option W.
Variable sleep : W -> W.
Variable locate_rounds : nat.
Variable MOMENTS : lang_table.
Variable P : WxParam.

(** Looking for a button issues no action and does not raise. *)
Lemma find_button_pure (menu : MomentActionMenu) (names : list ustr)
  (s : state W) :
  exists b,
    _find_button GetChildren ControlTypeName Name menu names s = (Ret b, s) /\
    match b with
    | Some b =>
        exists c children,
          menu_control menu = Some c /\
          In b children /\
          match GetChildren (fst s) c with
          | Some l => children = l
          | None => children = []
          end /\
          find (fun child => is_button ControlTypeName (fst s) child &&
                             name_in Name (fst s) child names) children
          = Some b
    | None => True
    end.
Proof.
  unfold _find_button. destruct (menu_control menu) as [c |].
  - unfold bind, children_or_empty, try_except, ask_raising, ask, ret.
    destruct (GetChildren (fst s) c) as [l |] eqn:E.
    + eexists. split; [reflexivity |].
      destruct (find _ l) as [b |] eqn:F; [| exact I].
      exists c, l. repeat split; try assumption.
      * now apply find_some in F.
      * now rewrite E.
    + cbn. eexists. split; [reflexivity | exact I].
  - exists None. split; [reflexivity | exact I].
Qed.

(** An issued action is the last of the trace, whether the binding raises
    or not. *)
Lemma issue_trace (a : action) (s : state W) :
  exists r w, issue perform a s = (r, (w, snd s ++ [a])) /\
              (forall x, r = Ret x -> Some w = perform (fst s) a).
Proof.
  unfold issue. destruct (perform (fst s) a) as [w' |].
  - exists (Ret tt), w'. split; [reflexivity | reflexivity].
  - exists (Raise unit), (fst s). split; [reflexivity | discriminate].
Qed.

(** Closing a menu that has a control sends the escape key, and does not
    raise. *)
Lemma menu_close_trace (c : control) (s : state W) :
  exists w,
    menu_close perform (mkMenu (Some c)) s
    = (Ret tt, (w, snd s ++ [SendKeys c (u "{Esc}")])).
Proof.
  unfold menu_close, try_except, pass, ret. cbn [menu_control].
  destruct (issue_trace (SendKeys c (u "{Esc}")) s) as [r [w [E _]]].
  rewrite E. destruct r as [[] |]; eauto.
Qed.

(** A menu that [_invoke_action_menu] hands out has a control. *)
Lemma invoke_menu_control (item : MomentItem) (menu : MomentActionMenu)
  (s s' : state W) :
  _invoke_action_menu GetChildren ControlTypeName Name Exists
    find_all_windows_from_root perform sleep locate_rounds MOMENTS P item s
  = (Ret (Some menu), s') ->
  exists c, menu_control menu = Some c.
Proof.
  unfold _invoke_action_menu. intros H.
  apply bind_ret_inv in H as [button [s1 [_ H]]].
  apply bind_ret_inv in H as [clicked [s2 [_ H]]].
  destruct clicked; cbn [negb] in H; [| discriminate].
  apply bind_ret_inv in H as [m [s3 [_ H]]].
  apply bind_ret_inv in H as [ex [s4 [Hex H]]].
  destruct ex; cbn [negb] in H; [| discriminate].
  injection H as -> _.
  destruct (menu_control menu) as [c |]; [eauto |].
  discriminate.
Qed.

End Steps.

Lemma find_same (A : Type) (f g : A -> bool) (l : list A) :
  (forall x, f x = g x) -> find f l = find g l.
Proof.
  intros H. induction l as [| x l IH]; simpl; [reflexivity |].
  now rewrite H, IH.
Qed.

(** X17. [_find_button] depends on which names it is given, not on their order or
    repetitions: two lists with the same members find the same button.  So
    putting the cancel text in front of the like text, as [like] does when
    cancel is set, gives the cancel button no priority. *)
Theorem find_button_ignores_order :
  forall (W : Type)
    (GetChildren : W -> control -> option (list control))
    (ControlTypeName : W -> control -> string) (Name : W -> control -> ustr)
    (menu : MomentActionMenu) (names names' : list ustr) (s : state W),
    (forall n, In n names <-> In n names') ->
    _find_button GetChildren ControlTypeName Name menu names s =
    _find_button GetChildren ControlTypeName Name menu names' s.
Proof.
  intros W GetChildren ControlTypeName Name menu names names' s Hsame.
  assert (E : forall w child, name_in Name w child names
                              = name_in Name w child names').
  { intros w child. unfold name_in.
    destruct (existsb (ustr_eqb (Name w child)) names) eqn:A;
      destruct (existsb (ustr_eqb (Name w child)) names') eqn:B;
      try reflexivity.
    - apply existsb_exists in A as [x [Hin Hx]].
      apply Hsame in Hin.
      assert (T : existsb (ustr_eqb (Name w child)) names' = true)
        by (apply existsb_exists; eauto).
      congruence.
    - apply existsb_exists in B as [x [Hin Hx]].
      apply Hsame in Hin.
      assert (T : existsb (ustr_eqb (Name w child)) names = true)
        by (apply existsb_exists; eauto).
      congruence. }
  unfold _find_button. destruct (menu_control menu) as [c |]; [| reflexivity].
  unfold bind. destruct (children_or_empty GetChildren c s) as [[l |] s1];
    [| reflexivity].
  unfold ask. f_equal. f_equal. apply find_same. intros child.
  now rewrite E.
Qed.

(** A menu window 10 with the buttons 11 (like) and 12 (comment); the
    item is control 5 with the action button 1, and a click on it opens
    the menu. *)
Definition like_children (w : nat) (c : control) : option (list control) :=
  match c with
  | 5 => Some [1]
  | 10 => Some [11; 12]
  | _ => Some []
  end.

Definition like_type (w : nat) (c : control) : string :=
  match c with
  | 1 | 11 | 12 | 22 => "ButtonControl"
  | 21 => "EditControl"
  | _ => "PaneControl"
  end.

Definition like_name (w : nat) (c : control) : ustr :=
  match c with
  | 11 => u "赞"
  | 12 => u "评论"
  | 22 => u "发送"
  | _ => []
  end.

Definition like_windows (w : nat) : list control :=
  match w with 0 => [] | _ => [10] end.

Definition like_perform (w : nat) (a : action) : option nat :=
  match a with
  | Click 1 => Some 1
  | _ => Some w
  end.

Lemma find_button_ignores_order_witness :
  _find_button like_children like_type like_name (mkMenu (Some 10))
    [u "取消"; u "赞"] (1, []) =
  _find_button like_children like_type like_name (mkMenu (Some 10))
    [u "赞"; u "取消"] (1, []).
Proof.
  apply (@find_button_ignores_order nat like_children like_type like_name
           (mkMenu (Some 10)) [u "取消"; u "赞"] [u "赞"; u "取消"] (1, [])).
  intros n. simpl. tauto.
Defined.

Lemma name_in_In (W : Type) (Name : W -> control -> ustr) (w : W)
  (c : control) (names : list ustr) :
  name_in Name w c names = true -> In (Name w c) names.
Proof.
  unfold name_in. intros H. apply existsb_exists in H as [x [Hin Hx]].
  apply SessionFacts.ustr_eqb_eq in Hx. now subst.
Qed.

(** X18. What [Moment.Like] can return.  A success carries the message 操作成功,
    and then the last two actions are a click on a button of the menu whose
    name is one of the names looked for, and the Esc key sent to the menu to
    close it.  A failure is either that the menu did not open, or that no
    like button was found, and in that case the menu is closed by Esc as
    well. *)
Theorem like_outcomes :
  forall (W : Type)
    (GetChildren : W -> control -> option (list control))
    (ControlTypeName : W -> control -> string) (Name : W -> control -> ustr)
    (Exists : W -> control -> option bool)
    (find_all_windows_from_root : W -> list control)
    (perform : W -> action -> option W) (sleep : W -> W)
    (locate_rounds : nat) (MOMENTS : lang_table) (P : WxParam)
    (item : MomentItem) (cancel : bool) (s s' : state W) (r : WxResponse),
    Like GetChildren ControlTypeName Name Exists find_all_windows_from_root
      perform sleep locate_rounds MOMENTS P item cancel s = (Ret r, s') ->
    match r with
    | success message =>
        message = u "操作成功" /\
        exists c b pre w children,
          snd s' = pre ++ [Click b; SendKeys c (u "{Esc}")] /\
          GetChildren w c = Some children /\ In b children /\
          ControlTypeName w b = "ButtonControl"%string /\
          In (Name w b) (like_targets MOMENTS P cancel)
    | failure message =>
        message = u "未能打开朋友圈操作菜单" \/
        (message = u "未找到点赞按钮" /\
         exists c pre, snd s' = pre ++ [SendKeys c (u "{Esc}")])
    end.
Proof.
  intros W GetChildren ControlTypeName Name Exists windows perform sleep
         rounds MOMENTS P item cancel s s' r H.
  unfold Like in H.
  apply bind_ret_inv in H as [menu [s1 [Hinv H]]].
  destruct menu as [menu |]; [| injection H as <- _; now left].
  destruct (invoke_menu_control _ _ _ _ _ _ _ _ _ _ _ _ Hinv) as [c Hc].
  destruct menu as [mc]. cbn [menu_control] in Hc. subst mc.
  unfold try_finally in H.
  destruct (menu_like GetChildren ControlTypeName Name perform MOMENTS P
              (mkMenu (Some c)) cancel s1) as [r1 s2] eqn:Hlike.
  destruct (menu_close_trace perform c s2) as [w2 Hclose].
  rewrite Hclose in H. injection H as -> <-. cbn [snd].
  unfold menu_like in Hlike.
  destruct (find_button_pure GetChildren ControlTypeName Name
              (mkMenu (Some c)) (like_targets MOMENTS P cancel) s1)
    as [b [Hfind Hb]].
  unfold bind in Hlike. rewrite Hfind in Hlike.
  destruct b as [b |].
  - destruct (issue_trace perform (Click b) s1) as [ri [wi [Hi _]]].
    fold (bind (issue perform (Click b))
               (fun _ : unit => ret (W:=W) (success (u "操作成功"))) s1)
      in Hlike.
    unfold bind in Hlike. rewrite Hi in Hlike.
    destruct ri as [[] |]; [| discriminate].
    injection Hlike as <- <-. split; [reflexivity |].
    destruct Hb as [c' [children [Hc' [Hin [Hch Hf]]]]].
    cbn [menu_control] in Hc'. injection Hc' as <-.
    apply find_some in Hf as [_ Hf]. apply andb_true_iff in Hf as [Hbt Hn].
    exists c, b, (snd s1), (fst s1), children. cbn [snd].
    split; [now rewrite <- app_assoc |].
    split.
    { destruct (GetChildren (fst s1) c) as [l |]; [now subst |].
      subst. contradiction. }
    split; [assumption |].
    split; [now apply String.eqb_eq in Hbt |].
    now apply name_in_In.
  - injection Hlike as <- <-. right. split; [reflexivity |].
    exists c, (snd s1). reflexivity.
Qed.

Lemma like_outcomes_witness :
  u "操作成功" = u "操作成功" /\
  exists c b pre w children,
    snd (1, [Click 1; Click 11; SendKeys 10 (u "{Esc}")]) =
      pre ++ [Click b; SendKeys c (u "{Esc}")] /\
    like_children w c = Some children /\ In b children /\
    like_type w b = "ButtonControl"%string /\
    In (like_name w b) (like_targets [] (mkWxParam false "cn" 5) false).
Proof.
  exact (@like_outcomes nat like_children like_type like_name
           (fun _ _ => Some true) like_windows like_perform (fun w => w) 20
           [] (mkWxParam false "cn" 5) (mkMomentItem 5 [] []) false
           (0, []) (1, [Click 1; Click 11; SendKeys 10 (u "{Esc}")])
           (success (u "操作成功")) eq_refl).
Defined.

(** ** [MomentCommentDialog.send] *)

Lemma issue_ret (W : Type) (perform : W -> action -> option W)
  (a : action) (s s' : state W) (x : unit) :
  issue perform a s = (Ret x, s') -> snd s' = snd s ++ [a].
Proof.
  unfold issue. destruct (perform (fst s) a); intros H;
    [now injection H as _ <- | discriminate].
Qed.

Lemma type_chars_ret (W : Type) (perform : W -> action -> option W)
  (e : control) (content : ustr) :
  forall (s s' : state W) (x : unit),
    type_chars perform e content s = (Ret x, s') ->
    snd s' = snd s ++ map (fun ch => SendKeys e [ch]) content.
Proof.
  induction content as [| ch content IH]; intros s s' x H; simpl in H.
  - injection H as _ <-. now rewrite app_nil_r.
  - apply bind_ret_inv in H as [[] [s1 [H1 H]]].
    apply issue_ret in H1. apply IH in H. rewrite H, H1.
    now rewrite <- app_assoc.
Qed.

(** The keys that carry the content into the editor. *)
Definition typed (clipboard : bool) (e : control) (content : ustr)
  : list action :=
  if clipboard
  then [SetClipboardText content; SendKeys e (u "{Ctrl}v")]
  else map (fun ch => SendKeys e [ch]) content.

(** X19. What [MomentCommentDialog.send] can do.  A success means that the content
    was not empty and that exactly these actions were issued: a click on the
    editor, select-all, the content (pasted from the clipboard or typed key
    by key), and then either Enter or a click on the send button.  A failure
    other than the failure to send, and an exception (raised when the
    existence of the editor cannot be read), leave the UI untouched. *)
Theorem send_outcomes :
  forall (W : Type) (Exists : W -> control -> option bool)
    (perform : W -> action -> option W) (clipboard : bool)
    (dialog : MomentCommentDialog) (content : ustr) (s s' : state W)
    (r : res WxResponse),
    send Exists perform clipboard dialog content s = (r, s') ->
    match r with
    | Ret (success message) =>
        message = u "评论成功" /\ content <> [] /\
        exists e final,
          edit dialog = Some e /\
          snd s' = snd s ++ [Click e; SendKeys e (u "{Ctrl}a")] ++
                   typed clipboard e content ++ [final] /\
          (final = SendKeys e (u "{Enter}") \/
           exists b, send_button dialog = Some b /\ final = Click b)
    | Ret (failure message) => message = u "发送评论失败" \/ s' = s
    | Raise _ =>
        s' = s /\ exists e, edit dialog = Some e /\ Exists (fst s) e = None
    end.
Proof.
  intros W Exists perform clipboard dialog content s s' r H.
  unfold send in H. unfold bind at 1 in H.
  destruct (control_exists_pure Exists (dialog_control dialog) s) as [ex E].
  rewrite E in H. destruct ex; cbn [negb] in H;
    [| injection H as <- <-; now right].
  destruct content as [| ch content]; cbn [nonempty negb] in H;
    [injection H as <- <-; now right |].
  destruct (edit dialog) as [e |] eqn:He;
    [| injection H as <- <-; now right].
  unfold bind at 1, ask_raising at 1 in H.
  destruct (Exists (fst s) e) as [[|] |] eqn:Hex; cbn [negb] in H.
  2: { injection H as <- <-. now right. }
  2: { injection H as <- <-. split; [reflexivity |]. eauto. }
  unfold try_except in H.
  match type of H with
  | (match ?m s with _ => _ end) = _ => destruct (m s) as [[x |] s1] eqn:B
  end.
  2: { injection H as <- _. now left. }
  injection H as <- <-.
  apply bind_ret_inv in B as [[] [s2 [B1 B]]]. apply issue_ret in B1.
  apply bind_ret_inv in B as [[] [s3 [B2 B]]]. apply issue_ret in B2.
  apply bind_ret_inv in B as [[] [s4 [B3 B]]].
  assert (T : snd s4 = snd s3 ++ typed clipboard e (ch :: content)).
  { unfold typed. destruct clipboard.
    - apply bind_ret_inv in B3 as [[] [s5 [B31 B32]]].
      apply issue_ret in B31, B32. rewrite B32, B31.
      now rewrite <- app_assoc.
    - now apply type_chars_ret in B3. }
  apply bind_ret_inv in B as [use_button [s5 [B4 B]]].
  assert (U : s5 = s4 /\
              match use_button with
              | Some b => send_button dialog = Some b
              | None => True
              end).
  { destruct (send_button dialog) as [b |].
    - apply bind_ret_inv in B4 as [bx [s6 [B41 B42]]].
      unfold ask_raising in B41.
      destruct (Exists (fst s4) b) as [found |]; [| discriminate].
      injection B41 as <- <-. injection B42 as <- <-.
      split; [reflexivity |]. now destruct found.
    - injection B4 as <- <-. auto. }
  destruct U as [-> U].
  apply bind_ret_inv in B as [[] [s6 [B5 B]]]. injection B as <- <-.
  split; [reflexivity |]. split; [discriminate |].
  destruct use_button as [b |].
  - apply issue_ret in B5.
    exists e, (Click b). split; [reflexivity |].
    split; [| right; eauto].
    rewrite B5, T, B2, B1. now rewrite <- !app_assoc.
  - apply issue_ret in B5.
    exists e, (SendKeys e (u "{Enter}")). split; [reflexivity |].
    split; [| now left].
    rewrite B5, T, B2, B1. now rewrite <- !app_assoc.
Qed.

Lemma send_outcomes_witness :
  u "评论成功" = u "评论成功" /\ u "好" <> [] /\
  exists e final,
    edit (mkDialog (Some 20) (Some 21) (Some 22)) = Some e /\
    snd (0, [Click 21; SendKeys 21 (u "{Ctrl}a"); SetClipboardText (u "好");
             SendKeys 21 (u "{Ctrl}v"); Click 22]) =
      snd (0, @nil action) ++ [Click e; SendKeys e (u "{Ctrl}a")] ++
      typed true e (u "好") ++ [final] /\
    (final = SendKeys e (u "{Enter}") \/
     exists b, send_button (mkDialog (Some 20) (Some 21) (Some 22)) = Some b /\
               final = Click b).
Proof.
  exact (@send_outcomes nat (fun _ _ => Some true) (fun w _ => Some w) true
           (mkDialog (Some 20) (Some 21) (Some 22)) (u "好") (0, [])
           (0, [Click 21; SendKeys 21 (u "{Ctrl}a"); SetClipboardText (u "好");
                SendKeys 21 (u "{Ctrl}v"); Click 22])
           (Ret (success (u "评论成功"))) eq_refl).
Defined.

End MomentLikeFacts.

(* ===================================================================== *)
(** * Properties of the reading of a moment *)
(* ===================================================================== *)

Module MomentParseFacts.
Import PyStr PyText Param Regex Moments MomentText MomentParse
       RegexFacts MomentsFacts SessionFacts MomentTextFacts LikeNamesFacts.
Local Open Scope string_scope.
Local Open Scope list_scope.

(** ** Lines *)






(** ** The first loop does not raise *)

Lemma ustr_eqb_refl (x : ustr) : ustr_eqb x x = true.
Proof. now apply SessionFacts.ustr_eqb_eq. Qed.

Lemma index_In (x : ustr) (l : list ustr) :
  In x l -> exists i, index x l = Some i.
Proof.
  induction l as [| y l IH]; simpl; [tauto |].
  intros H. destruct (ustr_eqb y x) eqn:E; [eauto |].
  destruct H as [H | H].
  - subst. rewrite ustr_eqb_refl in E. discriminate.
  - destruct (IH H) as [i Hi]. rewrite Hi. eauto.
Qed.

Lemma index_split (x : ustr) (l : list ustr) :
  forall i, index x l = Some i ->
    l = firstn i l ++ x :: skipn (S i) l.
Proof.
  induction l as [| y l IH]; simpl; [discriminate |].
  intros i H. destruct (ustr_eqb y x) eqn:E.
  - injection H as <-. apply SessionFacts.ustr_eqb_eq in E. now subst.
  - destruct (index x l) as [j |]; [| discriminate].
    injection H as <-. simpl. f_equal. now apply IH.
Qed.

(** The runs that [findall] returns are digits, and not empty. *)
Lemma digit_runs_go_digits (s : ustr) :
  forall cur,
    forallb isdigit cur = true ->
    Forall (fun r => r <> [] /\ forallb isdigit r = true)
           (digit_runs_go s cur).
Proof.
  induction s as [| c s IH]; intros cur Hcur; simpl.
  - destruct cur as [| d cur]; constructor; [| constructor].
    split.
    + intros E. apply (f_equal (@length char)) in E.
      rewrite length_rev in E. discriminate.
    + now rewrite forallb_rev.
  - destruct (isdigit c) eqn:E.
    + apply IH. simpl. now rewrite E.
    + destruct cur as [| d cur]; [now apply IH |].
      constructor; [| now apply IH].
      split.
      * intros F. apply (f_equal (@length char)) in F.
        rewrite length_rev in F. discriminate.
      * now rewrite forallb_rev.
Qed.

Section Scan.

Variable MOMENTS : lang_table.
Variable P : WxParam.
Variable re_search_text : ustr -> ustr -> bool.

Definition MARKER : ustr := _lang MOMENTS P (u "评论").

(** What the loop can make of the comment lines: nothing, or the lines
    after the first marker line. *)
Definition after_marker (body_lines found : list ustr) : Prop :=
  found = [] \/
  exists i, index MARKER body_lines = Some i /\
            found = skipn (S i) body_lines.

(** A line that goes into the content. *)
Definition plain_line (line : ustr) : Prop :=
  re_search_text (_lang MOMENTS P (u "re_图片数")) line = false /\
  startswith (_lang MOMENTS P (u "赞")) line = false /\
  line <> MARKER /\
  contains (_lang MOMENTS P (u "广告")) line = false.

Record scan_inv (body_lines : list ustr) (st : scan) : Prop := mkScanInv {
  inv_comments : after_marker body_lines (comment_lines st);
  inv_content :
    Forall (fun l => In l body_lines /\ plain_line l) (content_lines st);
  inv_time :
    scan_time st = [] \/
    (In (scan_time st) body_lines /\ _is_time_line (scan_time st) = true);
  inv_likes :
    match likes_line st with
    | Some l =>
        In l body_lines /\ startswith (_lang MOMENTS P (u "赞")) l = true
    | None => True
    end
}.

Lemma scan_body_inv (body_lines : list ustr) :
  forall lines st,
    (forall l, In l lines -> In l body_lines) ->
    comment_lines st = [] ->
    scan_inv body_lines st ->
    exists st',
      scan_body MOMENTS P re_search_text body_lines lines st = Some st' /\
      scan_inv body_lines st'.
Proof.
  induction lines as [| line rest IH]; intros st Hsub Hc Hinv.
  - exists st. split; [reflexivity | assumption].
  - assert (Hrest : forall l, In l rest -> In l body_lines)
      by (intros l Hl; apply Hsub; now right).
    assert (Hline : In line body_lines) by (apply Hsub; now left).
    destruct Hinv as [I1 I2 I3 I4].
    cbn [scan_body].
    destruct (nonempty line) eqn:Hne; cbn [negb];
      [| apply IH; [assumption | assumption | now constructor]].
    destruct (re_search_text (_lang MOMENTS P (u "re_图片数")) line) eqn:Himg.
    { pose proof (@digit_runs_go_digits line [] eq_refl) as Hd.
      fold (findall_digits line) in Hd.
      destruct (findall_digits line) as [| first others];
        [apply IH; [assumption | assumption | now constructor] |].
      inversion Hd as [| ? ? [Hf1 Hf2] _]; subst.
      destruct (SessionFacts.int_of_digits Hf1 Hf2) as [n Hn]. rewrite Hn.
      apply IH; [assumption | assumption | now constructor]. }
    destruct (startswith (_lang MOMENTS P (u "赞")) line) eqn:Hlike.
    { apply IH; [assumption | assumption |].
      constructor; cbn; auto. }
    destruct (ustr_eqb line (_lang MOMENTS P (u "评论"))) eqn:Hmark.
    { apply SessionFacts.ustr_eqb_eq in Hmark.
      destruct (index_In _ _ Hline) as [i Hi]. rewrite Hi.
      eexists. split; [reflexivity |].
      constructor; cbn; auto.
      rewrite Hc. right. exists i. split; [| reflexivity].
      unfold MARKER. now rewrite <- Hmark. }
    destruct (contains (_lang MOMENTS P (u "广告")) line) eqn:Had.
    { apply IH; [assumption | assumption | now constructor]. }
    destruct (negb (nonempty (scan_time st)) && _is_time_line line) eqn:Ht.
    { apply andb_true_iff in Ht as [_ Ht].
      apply IH; [assumption | assumption |].
      constructor; cbn; auto. }
    apply IH; [assumption | assumption |].
    constructor; cbn; auto.
    apply Forall_app. split; [assumption |].
    constructor; [| constructor].
    split; [assumption |].
    repeat split; try assumption.
    intros E. unfold MARKER in E. subst line.
    rewrite ustr_eqb_refl in Hmark. discriminate.
Qed.

Lemma scan_init_inv (body_lines : list ustr) : scan_inv body_lines scan_init.
Proof.
  constructor; cbn; [now left | constructor | now left | exact I].
Qed.

(** The second loop only picks up lines after a marker line. *)
Lemma collect_after (lines : list ustr) :
  forall collecting x,
    In x (collect MOMENTS P lines collecting) ->
    (collecting = true /\ In x lines) \/
    exists before after,
      lines = before ++ MARKER :: after /\ In x after.
Proof.
  induction lines as [| line rest IH]; intros collecting x H; simpl in H;
    [contradiction |].
  destruct (ustr_eqb line (_lang MOMENTS P (u "评论"))) eqn:E.
  - apply SessionFacts.ustr_eqb_eq in E. right.
    destruct (IH true x H) as [[_ Hin] | [before [after [-> Hin]]]].
    + exists [], rest. split; [now rewrite E | assumption].
    + exists (line :: before), after. split; [reflexivity | assumption].
  - destruct collecting.
    + destruct H as [-> | H]; [left; split; [reflexivity | now left] |].
      destruct (IH true x H) as [[_ Hin] | [before [after [-> Hin]]]].
      * left. split; [reflexivity | now right].
      * right. exists (line :: before), after.
        split; [reflexivity | assumption].
    + destruct (IH false x H) as [[Hf _] | [before [after [-> Hin]]]];
        [discriminate |].
      right. exists (line :: before), after.
      split; [reflexivity | assumption].
Qed.

End Scan.

(** The lines are stripped and not empty. *)
Lemma lines_of_clean (raw_text : ustr) :
  Forall (fun l => l <> [] /\ strip l = l) (lines_of raw_text).
Proof. apply strip_nonblank_clean. Qed.

Lemma Forall_tl (A : Type) (Q : A -> Prop) (l : list A) :
  Forall Q l -> Forall Q (tl l).
Proof. destruct 1; [constructor | assumption]. Qed.




(** Parsing ends without an exception, and the nickname is the first
    line. *)
Lemma ensure_parsed_runs (MOMENTS : lang_table) (P : WxParam)
  (re_search_text : ustr -> ustr -> bool)
  (ControlTypeName : CommentFlow.control -> string)
  (Name : CommentFlow.control -> ustr)
  (raw_text : ustr) (children : list CommentFlow.control) :
  exists p,
    _ensure_parsed MOMENTS P re_search_text ControlTypeName Name
      raw_text children = Some p /\
    nickname p = hd [] (lines_of raw_text).
Proof.
  unfold _ensure_parsed. cbv zeta.
  destruct (@scan_body_inv MOMENTS P re_search_text (tl (lines_of raw_text))
              (tl (lines_of raw_text)) scan_init
              (fun l H => H) eq_refl (scan_init_inv MOMENTS P re_search_text _))
    as [st [E _]].
  rewrite E. eexists. split; [reflexivity |]. cbn [nickname].
  now destruct (lines_of raw_text).
Qed.


(** X21. Every comment of a parsed moment is [from_text] of a line that stands
    after a comment-marker line of the body; a body without a marker line
    gives no comment. *)
Theorem comments_follow_marker :
  forall (MOMENTS : lang_table) (P : WxParam)
         (re_search_text : ustr -> ustr -> bool)
         (ControlTypeName : CommentFlow.control -> string)
         (Name : CommentFlow.control -> ustr)
         (raw_text : ustr) (children : list CommentFlow.control),
    match _ensure_parsed MOMENTS P re_search_text ControlTypeName Name
            raw_text children with
    | Some p =>
        (forall c, In c (comments p) ->
           c = from_text (raw c) /\
           exists before after,
             tl (lines_of raw_text) =
               before ++ _lang MOMENTS P (u "评论") :: after /\
             In (raw c) after) /\
        (~ In (_lang MOMENTS P (u "评论")) (tl (lines_of raw_text)) ->
         comments p = [])
    | None => False
    end.
Proof.
  intros M P rs T N raw_text children. unfold _ensure_parsed. cbv zeta.
  set (body := tl (lines_of raw_text)).
  destruct (@scan_body_inv M P rs body body scan_init
              (fun l H => H) eq_refl (scan_init_inv M P rs _))
    as [st [E [I1 _ _ _]]].
  rewrite E. cbn [comments].
  set (found := match comment_lines st with
                | [] => collect M P body false
                | c :: l => c :: l
                end).
  assert (Hclean : Forall (fun l => l <> [] /\ strip l = l) body).
  { unfold body. apply Forall_tl. apply lines_of_clean. }
  assert (A : forall x, In x found ->
              exists before after,
                body = before ++ _lang M P (u "评论") :: after /\
                In x after).
  { intros x Hx. unfold found in Hx.
    destruct (comment_lines st) as [| c0 l0] eqn:Hcl.
    - apply collect_after in Hx as [[Hf _] | Hx]; [discriminate |].
      exact Hx.
    - destruct I1 as [I1 | [i [Hi I1]]]; [discriminate |].
      exists (firstn i body), (skipn (S i) body).
      split; [now apply index_split |]. now rewrite <- I1. }
  assert (B : forall x, In x found -> In x body).
  { intros x Hx. destruct (A x Hx) as [before [after [-> Hin]]].
    apply in_or_app. right. now right. }
  split.
  - intros c Hc. apply in_map_iff in Hc as [line [<- Hl]].
    apply filter_In in Hl as [Hl _].
    assert (R : raw (from_text line) = line).
    { rewrite from_text_parse. unfold parse_stripped.
      rewrite Forall_forall in Hclean.
      destruct (Hclean line (B line Hl)) as [_ Hs].
      destruct (re_match comment_re (strip line)); exact Hs. }
    rewrite R. split; [reflexivity |]. now apply A.
  - intros Hno.
    destruct (filter (fun line => nonempty (strip line)) found)
      as [| x xs] eqn:F; [reflexivity |].
    exfalso. assert (Hx : In x found).
    { assert (In x (x :: xs)) by now left. rewrite <- F in H.
      now apply filter_In in H. }
    destruct (A x Hx) as [before [after [Hb _]]].
    apply Hno. rewrite Hb. apply in_or_app. right. now left.
Qed.

(** ** The controls of the texts *)

Lemma lookup_In (text : ustr) (child : CommentFlow.control)
  (d : list (ustr * CommentFlow.control)) :
  NoDup (map fst d) ->
  (In (text, child) d <-> lookup ustr_eqb text d = Some child).
Proof.
  induction d as [| [k v] d IH]; simpl; intros Hn.
  - split; [tauto | discriminate].
  - inversion Hn as [| ? ? Hk Hd]; subst.
    destruct (ustr_eqb k text) eqn:E.
    + apply SessionFacts.ustr_eqb_eq in E. subst k. split.
      * intros [H | H]; [congruence |].
        exfalso. apply Hk. apply in_map_iff. now exists (text, child).
      * intros H. injection H as ->. now left.
    + rewrite <- (IH Hd). split; [| tauto].
      intros [H | H]; [| assumption].
      injection H as -> ->. rewrite ustr_eqb_refl in E. discriminate.
Qed.

Section Controls.

Variable ControlTypeName : CommentFlow.control -> string.
Variable Name : CommentFlow.control -> ustr.

(** A text child that shows [text]. *)
Definition shows (text : ustr) (child : CommentFlow.control) : bool :=
  String.eqb (ControlTypeName child) "TextControl" &&
  ustr_eqb (strip (Name child)) text.

Lemma lookup_key (text : ustr) (d : list (ustr * CommentFlow.control)) :
  existsb (fun kv => ustr_eqb (fst kv) text) d = true <->
  exists c, lookup ustr_eqb text d = Some c.
Proof.
  induction d as [| [k v] d IH]; simpl.
  - split; [discriminate | intros [c H]; discriminate].
  - destruct (ustr_eqb k text); simpl; [split; eauto | exact IH].
Qed.

Lemma lookup_app (text : ustr) (d d' : list (ustr * CommentFlow.control)) :
  lookup ustr_eqb text (d ++ d') =
  match lookup ustr_eqb text d with
  | Some c => Some c
  | None => lookup ustr_eqb text d'
  end.
Proof.
  induction d as [| [k v] d IH]; simpl; [reflexivity |].
  now destruct (ustr_eqb k text).
Qed.

Lemma lookup_setdefault (text key : ustr) (child : CommentFlow.control)
  (d : list (ustr * CommentFlow.control)) :
  lookup ustr_eqb text (setdefault key child d) =
  match lookup ustr_eqb text d with
  | Some c => Some c
  | None => if ustr_eqb key text then Some child else None
  end.
Proof.
  unfold setdefault.
  destruct (existsb (fun kv => ustr_eqb (fst kv) key) d) eqn:E.
  - destruct (lookup ustr_eqb text d) eqn:L; [reflexivity |].
    destruct (ustr_eqb key text) eqn:K; [| reflexivity].
    apply SessionFacts.ustr_eqb_eq in K. subst key.
    apply lookup_key in E as [c E]. congruence.
  - rewrite lookup_app. simpl. reflexivity.
Qed.

(** Looking a text up among the recorded controls gives the first text
    child that shows it. *)
Lemma text_controls_lookup (text : ustr) :
  text <> [] ->
  forall children d,
    lookup ustr_eqb text (text_controls ControlTypeName Name children d) =
    match lookup ustr_eqb text d with
    | Some c => Some c
    | None => find (shows text) children
    end.
Proof.
  intros Hne. induction children as [| child rest IH]; intros d.
  - simpl. now destruct (lookup ustr_eqb text d).
  - cbn [text_controls find]. unfold shows at 1.
    destruct (String.eqb (ControlTypeName child) "TextControl"); cbn [andb];
      [| apply IH].
    cbv zeta.
    destruct (nonempty (strip (Name child))) eqn:N.
    + rewrite IH, lookup_setdefault.
      destruct (lookup ustr_eqb text d); [reflexivity |].
      now destruct (ustr_eqb (strip (Name child)) text).
    + rewrite IH.
      destruct (ustr_eqb (strip (Name child)) text) eqn:K; [| reflexivity].
      apply SessionFacts.ustr_eqb_eq in K.
      rewrite K in N. destruct text; [congruence | discriminate].
Qed.

Lemma setdefault_keys (key : ustr) (child : CommentFlow.control)
  (d : list (ustr * CommentFlow.control)) :
  key <> [] ->
  NoDup (map fst d) /\ ~ In [] (map fst d) ->
  NoDup (map fst (setdefault key child d)) /\
  ~ In [] (map fst (setdefault key child d)).
Proof.
  intros Hk [Hn He]. unfold setdefault.
  destruct (existsb (fun kv => ustr_eqb (fst kv) key) d) eqn:E;
    [now split |].
  rewrite map_app. simpl. split.
  - apply NoDup_app_remove_l with (l := []). simpl.
    rewrite <- (rev_involutive (map fst d ++ [key])).
    apply NoDup_rev. rewrite rev_app_distr. simpl.
    constructor; [| now apply NoDup_rev].
    intros Hin. apply in_rev in Hin.
    apply in_map_iff in Hin as [[k v] [Hk' Hin]]. simpl in Hk'. subst k.
    assert (T : existsb (fun kv => ustr_eqb (fst kv) key) d = true).
    { apply existsb_exists. exists (key, v).
      split; [assumption | apply ustr_eqb_refl]. }
    congruence.
  - intros Hin. apply in_app_or in Hin as [H | [H | []]]; [now apply He |].
    now apply Hk.
Qed.

Lemma text_controls_keys (children : list CommentFlow.control) :
  forall d,
    NoDup (map fst d) /\ ~ In [] (map fst d) ->
    NoDup (map fst (text_controls ControlTypeName Name children d)) /\
    ~ In [] (map fst (text_controls ControlTypeName Name children d)).
Proof.
  induction children as [| child rest IH]; intros d Hd; [exact Hd |].
  cbn [text_controls].
  destruct (String.eqb (ControlTypeName child) "TextControl");
    [| now apply IH].
  cbv zeta. destruct (nonempty (strip (Name child))) eqn:N;
    [| now apply IH].
  apply IH. apply setdefault_keys; [| exact Hd].
  intros E. rewrite E in N. discriminate.
Qed.

End Controls.

(** X22. The controls recorded for replies: every text is recorded once, with the
    first text child of the item that shows it (stripped), and
    [get_comment_control] answers that child for a comment whose raw text a
    text child shows. *)
Theorem reply_control_is_first_text_child :
  forall (MOMENTS : lang_table) (P : WxParam)
         (re_search_text : ustr -> ustr -> bool)
         (ControlTypeName : CommentFlow.control -> string)
         (Name : CommentFlow.control -> ustr)
         (raw_text : ustr) (children : list CommentFlow.control)
         (control : CommentFlow.control),
    match _ensure_parsed MOMENTS P re_search_text ControlTypeName Name
            raw_text children with
    | Some p =>
        NoDup (map fst (_comment_controls p)) /\
        (forall text child,
           In (text, child) (_comment_controls p) <->
           text <> [] /\
           find (shows ControlTypeName Name text) children = Some child) /\
        (forall comment child,
           raw comment <> [] ->
           find (shows ControlTypeName Name (raw comment)) children
           = Some child ->
           CommentFlow.get_comment_control (as_item control p) comment
           = Some child)
    | None => False
    end.
Proof.
  intros M P rs T N raw_text children control.
  destruct (ensure_parsed_runs M P rs T N raw_text children)
    as [p [E _]].
  rewrite E.
  assert (D : _comment_controls p = text_controls T N children []).
  { unfold _ensure_parsed in E. cbv zeta in E.
    destruct (scan_body M P rs (tl (lines_of raw_text))
                (tl (lines_of raw_text)) scan_init); [| discriminate].
    now injection E as <-. }
  assert (K : NoDup (map fst (_comment_controls p)) /\
              ~ In [] (map fst (_comment_controls p))).
  { rewrite D. apply text_controls_keys. split; [constructor | tauto]. }
  destruct K as [Hn He].
  assert (L : forall text, text <> [] ->
              lookup ustr_eqb text (_comment_controls p)
              = find (shows T N text) children).
  { intros text Ht. rewrite D. now rewrite text_controls_lookup. }
  split; [exact Hn |].
  split.
  - intros text child. rewrite (@lookup_In text child _ Hn). split.
    + intros H. assert (Ht : text <> []).
      { intros ->. apply He. apply in_map_iff.
        exists ([], child). split; [reflexivity |].
        now apply (@lookup_In [] child _ Hn). }
      split; [exact Ht |]. now rewrite <- L.
    + intros [Ht H]. now rewrite L.
  - intros comment child Hr Hf.
    unfold CommentFlow.get_comment_control, as_item.
    cbn [CommentFlow._comment_controls find].
    assert (K : existsb (fun kv => ustr_eqb (fst kv) (raw comment))
                        (_comment_controls p) = true).
    { apply lookup_key. exists child. now rewrite L. }
    rewrite K.
    replace (nonempty (raw comment)) with true
      by (now destruct (raw comment)).
    cbn [andb]. now rewrite L.
Qed.

(** ** What goes where *)

Lemma join_stripped (lines : list ustr) :
  Forall (fun l => l <> [] /\ strip l = l) lines ->
  strip (join [NL] lines) = join [NL] lines.
Proof.
  intros H. destruct lines as [| l ls]; [reflexivity |].
  destruct (join_first [NL] l ls) as [post Hf].
  destruct (@join_last [NL] (l :: ls)) as [pre Hl]; [discriminate |].
  assert (Hlast : In (last (l :: ls) []) (l :: ls)).
  { destruct (@exists_last _ (l :: ls)) as [l' [x E]]; [discriminate |].
    rewrite E, last_last. apply in_or_app. right. now left. }
  rewrite Forall_forall in H.
  destruct (H _ Hlast) as [L1 L2]. destruct (H l) as [F1 F2]; [now left |].
  apply strip_id.
  - rewrite Hf. rewrite starts_space_app by assumption.
    now apply stripped_starts.
  - rewrite Hl. rewrite ends_space_app by assumption.
    now apply stripped_ends.
Qed.

(** X23. The fields of a parsed moment: the content is made of body lines that are
    neither an image count, a likes line, the comment marker nor an
    advertisement, joined by line feeds; the time is empty or a body line
    recognised as a time; and the like names are not empty and stripped. *)
Theorem parsed_fields_are_classified :
  forall (MOMENTS : lang_table) (P : WxParam)
         (re_search_text : ustr -> ustr -> bool)
         (ControlTypeName : CommentFlow.control -> string)
         (Name : CommentFlow.control -> ustr)
         (raw_text : ustr) (children : list CommentFlow.control),
    match _ensure_parsed MOMENTS P re_search_text ControlTypeName Name
            raw_text children with
    | Some p =>
        (exists lines,
           content p = join [NL] lines /\
           Forall (fun l => In l (tl (lines_of raw_text)) /\
                            plain_line MOMENTS P re_search_text l) lines) /\
        (time p = [] \/
         (In (time p) (tl (lines_of raw_text)) /\
          _is_time_line (time p) = true)) /\
        Forall (fun n => n <> [] /\ strip n = n) (likes p)
    | None => False
    end.
Proof.
  intros M P rs T N raw_text children. unfold _ensure_parsed. cbv zeta.
  set (body := tl (lines_of raw_text)).
  destruct (@scan_body_inv M P rs body body scan_init
              (fun l H => H) eq_refl (scan_init_inv M P rs _))
    as [st [E [_ I2 I3 _]]].
  rewrite E. cbn [content time likes].
  assert (Hclean : Forall (fun l => l <> [] /\ strip l = l) body).
  { unfold body. apply Forall_tl. apply lines_of_clean. }
  split.
  { exists (content_lines st). split; [| exact I2].
    apply join_stripped. rewrite Forall_forall in *.
    intros l Hl. apply Hclean. now apply I2. }
  split; [exact I3 |].
  destruct (likes_line st) as [[| c line] |]; try constructor.
  apply like_names_stripped.
Qed.

End MomentParseFacts.

(* ===================================================================== *)
(** * Properties of the list of moments *)
(* ===================================================================== *)

Module MomentItemsFacts.
Import PyStr Param Moments CommentFlow MomentParse MomentItems
       MomentParseFacts.
Local Open Scope string_scope.
Local Open Scope list_scope.


End MomentItemsFacts.

(* ===================================================================== *)
(** * Properties of the exceptions *)
(* ===================================================================== *)

Module ErrorsFacts.
Import PyStr Errors.
Local Open Scope list_scope.

(** X25. The text of a [WxautoError]: the message given, else the default message
    given to the constructor, else the name of the class; [str], the
    message field and the arguments of the exception all carry it, and it is
    never empty.  The default that a subclass sets as a class attribute
    plays no part: a subclass raised without arguments shows its class
    name. *)
Theorem error_message_resolution :
  forall (cls : error_class) (d : ustr) (m x : option ustr),
    (__str__ (__init__ cls d m x) =
       match m, d with
       | Some (c :: rest), _ => c :: rest
       | _, c :: rest => c :: rest
       | _, [] => __name__ cls
       end) /\
    message (__init__ cls d m x) = Some (__str__ (__init__ cls d m x)) /\
    args (__init__ cls d m x) = [__str__ (__init__ cls d m x)] /\
    (__name__ cls <> [] -> __str__ (__init__ cls d m x) <> []) /\
    __str__ (raise_plain cls) = __name__ cls /\
    __str__ (raise_plain NetWorkError_class) = u "NetWorkError".
Proof.
  intros cls d m x.
  assert (E : __str__ (__init__ cls d m x) =
              match m, d with
              | Some (c :: rest), _ => c :: rest
              | _, c :: rest => c :: rest
              | _, [] => __name__ cls
              end).
  { unfold __str__, __init__, __post_init__. cbn.
    destruct m as [[| c rest] |], d as [| c' rest']; cbn;
      try reflexivity; now destruct (__name__ cls). }
  split; [exact E |].
  split.
  { unfold __str__, __init__, __post_init__. cbn.
    destruct m as [[| c rest] |], d as [| c' rest']; cbn;
      try reflexivity; now destruct (__name__ cls). }
  split.
  { unfold __str__, __init__, __post_init__. cbn.
    destruct m as [[| c rest] |], d as [| c' rest']; cbn;
      try reflexivity; now destruct (__name__ cls). }
  split.
  { intros Hn. rewrite E.
    destruct m as [[| c rest] |], d as [| c' rest'];
      try assumption; discriminate. }
  split; [| reflexivity].
  unfold raise_plain, __str__, __init__, __post_init__. cbn.
  now destruct (__name__ cls).
Qed.

End ErrorsFacts.

(* ===================================================================== *)
(** * The UI lock among threads: exclusion and progress *)
(* ===================================================================== *)

Module LockProgress.
Import Lock LockFacts.

(** X1. When the processes of all callers share one process lock (threads of one
    process, or processes that inherited the lock), callers that enter the
    section through [uilock], as plain functions or as coroutines, never
    overlap: in every reachable state the shared counter is the number of
    callers inside the section and is at most 1, and at most one caller
    holds the locks. *)
Theorem uilock_excludes_with_shared_lock :
  forall (cfg : config) (cs : list caller) (s0 : nat) (st : state),
    Forall (fun c => cfg (c_pid c) = s0) cs ->
    Forall (fun c => exists is_coroutine, prog c = uilock is_coroutine section)
           cs ->
    reachable cfg cs st ->
    counter st <= 1 /\
    counter st = count inside (callers st) /\
    count holds (callers st) <= 1.
Proof.
  intros cfg cs s0 st Hs Hp [schedule Hrun].
  assert (I : inv cfg s0 st).
  { eapply inv_run; [| exact Hrun]. now apply inv_init. }
  split; [now apply (@inv_safe cfg s0) |].
  destruct I as [_ _ Hsem Hcnt]. split; [exact Hcnt |].
  rewrite Hsem. destruct (sem st s0); simpl; lia.
Qed.

(** Two threads of one process, the first of them in the section. *)
Definition two_threads : list caller :=
  [mkCaller 0 0 (uilock false section); mkCaller 0 1 (uilock false section)].

Definition first_inside : state :=
  match run (fun _ => 0) [0; 0; 0] (init two_threads) with
  | Some st => st
  | None => init two_threads
  end.

Lemma uilock_excludes_with_shared_lock_witness :
  counter first_inside <= 1 /\
  counter first_inside = count inside (callers first_inside) /\
  count holds (callers first_inside) <= 1.
Proof.
  apply (@uilock_excludes_with_shared_lock (fun _ => 0) two_threads 0
           first_inside).
  - repeat constructor.
  - repeat constructor; exists false; reflexivity.
  - exists [0; 0; 0]. reflexivity.
Defined.

(** ** Threads that do not nest their calls *)

(** What is left of a call of [acquire] around the section. *)
Definition sync (c : caller) : Prop :=
  In (prog c) (tails (acquire section)).

(** A caller owns the thread lock from its [AcquireThread] to its
    [ReleaseThread]. *)
Definition owns (c : caller) : bool :=
  match prog c with
  | Enter :: _ | Leave :: _ | ReleaseThread :: _ => true
  | _ => false
  end.

Definition holds_sem (cfg : config) (s : nat) (c : caller) : bool :=
  holds c && Nat.eqb (cfg (c_pid c)) s.

Definition owns_in (p : nat) (c : caller) : bool :=
  owns c && Nat.eqb (c_pid c) p.

Definition taken (o : option (nat * nat)) : bool :=
  match o with Some _ => true | None => false end.

(** Every semaphore is taken exactly when a caller holds it, every thread
    lock exactly when a caller owns it, and then once. *)
Record live (cfg : config) (st : state) : Prop := mkLive {
  live_sync : Forall sync (callers st);
  live_sem :
    forall s, count (holds_sem cfg s) (callers st) = b2n (sem st s);
  live_rlock :
    forall p, count (owns_in p) (callers st) = b2n (taken (rlock st p));
  live_depth : forall p o d, rlock st p = Some (o, d) -> d = 1
}.

Lemma count_lt (f g : caller -> bool) (l : list caller) :
  (forall c, f c = true -> g c = true) ->
  forall i c,
    nth_error l i = Some c -> f c = false -> g c = true ->
    count f l < count g l.
Proof.
  intros H. unfold count.
  induction l as [| a l IH]; intros i c Hn Hf Hg.
  - destruct i; discriminate.
  - destruct i as [| i]; simpl in Hn.
    + injection Hn as ->. simpl. rewrite Hf, Hg. simpl.
      pose proof (count_le f g l H) as Hle. unfold count in Hle. lia.
    + specialize (IH _ _ Hn Hf Hg). simpl.
      destruct (f a) eqn:E.
      * rewrite (H _ E). simpl. lia.
      * destruct (g a); simpl; lia.
Qed.

Lemma live_init (cfg : config) (cs : list caller) :
  Forall (fun c => prog c = uilock false section) cs ->
  live cfg (init cs).
Proof.
  intros H. constructor; simpl.
  - eapply Forall_impl; [| exact H]. intros c E. unfold sync.
    rewrite E. now left.
  - intros s. induction H as [| c l E _ IH]; [reflexivity |].
    unfold count in *. simpl. unfold holds_sem at 1, holds. rewrite E.
    simpl. exact IH.
  - intros p. induction H as [| c l E _ IH]; [reflexivity |].
    unfold count in *. simpl. unfold owns_in at 1, owns. rewrite E.
    simpl. exact IH.
  - discriminate.
Qed.

(** The thread lock is free for the caller that has just taken the process
    lock. *)
Lemma thread_lock_free (cfg : config) (st : state) (i : nat) (c : caller)
  (rest : list instr) :
  live cfg st -> nth_error (callers st) i = Some c ->
  prog c = AcquireThread :: rest ->
  rlock st (c_pid c) = None.
Proof.
  intros [_ Hsem Hrl _] Hn Hp.
  destruct (rlock st (c_pid c)) as [od |] eqn:E; [| reflexivity].
  exfalso.
  pose proof (Hrl (c_pid c)) as H1. rewrite E in H1. simpl in H1.
  pose proof (Hsem (cfg (c_pid c))) as H2.
  assert (L : count (owns_in (c_pid c)) (callers st) <
              count (holds_sem cfg (cfg (c_pid c))) (callers st)).
  { apply count_lt with (i := i) (c := c); [| assumption | |].
    - intros c0. unfold owns_in, holds_sem, owns, holds.
      intros H. apply andb_true_iff in H as [Ho Hpid].
      apply Nat.eqb_eq in Hpid. rewrite Hpid, Nat.eqb_refl.
      destruct (prog c0) as [| [] ?]; try discriminate; reflexivity.
    - unfold owns_in, owns. now rewrite Hp.
    - unfold holds_sem, holds. now rewrite Hp, Nat.eqb_refl. }
  destruct (sem st (cfg (c_pid c))); simpl in H2; lia.
Qed.

(** One caller moves on to [c'], in the same process. *)
Lemma live_update (cfg : config) (i : nat) (st : state) (c c' : caller)
  (sm : nat -> bool) (rl : nat -> option (nat * nat)) (n : nat) :
  live cfg st ->
  nth_error (callers st) i = Some c ->
  c_pid c' = c_pid c -> sync c' ->
  (forall s,
     b2n (holds_sem cfg s c) <= b2n (sem st s) ->
     b2n (sm s) + b2n (holds_sem cfg s c)
     = b2n (sem st s) + b2n (holds_sem cfg s c')) ->
  (forall p,
     b2n (owns_in p c) <= b2n (taken (rlock st p)) ->
     b2n (taken (rl p)) + b2n (owns_in p c)
     = b2n (taken (rlock st p)) + b2n (owns_in p c')) ->
  (forall p o d, rl p = Some (o, d) -> d = 1) ->
  live cfg (mkState sm rl n (set_nth i c' (callers st))).
Proof.
  intros [Hsy Hsem Hrl Hd] Hn Hpid Hsync H1 H2 H3.
  constructor; cbn [callers sem rlock].
  - now apply Forall_set_nth.
  - intros s.
    pose proof (count_set_nth (holds_sem cfg s) (callers st) i c' Hn) as A.
    pose proof (count_ge (holds_sem cfg s) (callers st) i Hn) as B.
    specialize (H1 s). specialize (Hsem s). lia.
  - intros p.
    pose proof (count_set_nth (owns_in p) (callers st) i c' Hn) as A.
    pose proof (count_ge (owns_in p) (callers st) i Hn) as B.
    specialize (H2 p). specialize (Hrl p). lia.
  - exact H3.
Qed.

Lemma live_step (cfg : config) (i : nat) (st st' : state) :
  live cfg st -> step cfg i st = Some st' -> live cfg st'.
Proof.
  intros Hl. unfold step.
  destruct (nth_error (callers st) i) as [c |] eqn:Hn; [| discriminate].
  pose proof (@Forall_nth_error _ _ i c (live_sync Hl) Hn) as Hp.
  destruct c as [p t pr]. unfold sync in Hp. cbn [prog] in Hp.
  simpl in Hp.
  destruct Hp as [Hp | [Hp | [Hp | [Hp | [Hp | [Hp | [Hp | []]]]]]]];
    subst pr; cbn [exec c_pid c_tid prog].
  - (* AcquireProcess *)
    destruct (sem st (cfg p)) eqn:Es; [discriminate |].
    intros E. injection E as <-. cbn [sem rlock counter callers].
    eapply live_update; [exact Hl | exact Hn | reflexivity
                        | unfold sync; simpl; auto 10 | | | ].
    + intros s _. unfold holds_sem, holds, upd. cbn [prog c_pid andb].
      rewrite (Nat.eqb_sym s). destruct (Nat.eqb (cfg p) s) eqn:E.
      * apply Nat.eqb_eq in E. subst s. rewrite Es. reflexivity.
      * simpl. lia.
    + intros q _. unfold owns_in, owns. cbn [prog andb]. lia.
    + exact (live_depth Hl).
  - (* AcquireThread *)
    pose proof (@thread_lock_free cfg st i _ _ Hl Hn eq_refl) as Ef.
    cbn [c_pid] in Ef. rewrite Ef.
    intros E. injection E as <-. cbn [sem rlock counter callers].
    eapply live_update; [exact Hl | exact Hn | reflexivity
                        | unfold sync; simpl; auto 10 | | | ].
    + intros s _. unfold holds_sem, holds. cbn [prog c_pid]. lia.
    + intros q _. unfold owns_in, owns, upd. cbn [prog c_pid andb].
      rewrite (Nat.eqb_sym q). destruct (Nat.eqb p q) eqn:E.
      * apply Nat.eqb_eq in E. subst q. rewrite Ef. reflexivity.
      * simpl. lia.
    + intros q o d. unfold upd. cbn [c_pid c_tid].
      destruct (Nat.eqb q p); [| apply (live_depth Hl)].
      intros H. now injection H.
  - (* Enter *)
    intros E. injection E as <-. cbn [sem rlock counter callers].
    eapply live_update; [exact Hl | exact Hn | reflexivity
                        | unfold sync; simpl; auto 10 | | | ].
    + intros s _. unfold holds_sem, holds. cbn [prog c_pid]. lia.
    + intros q _. unfold owns_in, owns. cbn [prog c_pid]. lia.
    + exact (live_depth Hl).
  - (* Leave *)
    intros E. injection E as <-. cbn [sem rlock counter callers].
    eapply live_update; [exact Hl | exact Hn | reflexivity
                        | unfold sync; simpl; auto 10 | | | ].
    + intros s _. unfold holds_sem, holds. cbn [prog c_pid]. lia.
    + intros q _. unfold owns_in, owns. cbn [prog c_pid]. lia.
    + exact (live_depth Hl).
  - (* ReleaseThread *)
    assert (Er : exists o, rlock st p = Some (o, 1)).
    { pose proof (live_rlock Hl p) as H1.
      pose proof (count_ge (owns_in p) (callers st) i Hn) as H2.
      unfold owns_in at 1, owns in H2. cbn [prog c_pid andb] in H2.
      rewrite Nat.eqb_refl in H2. simpl in H2.
      destruct (rlock st p) as [[o d] |] eqn:E; [| simpl in H1; lia].
      rewrite (live_depth Hl _ E). eauto. }
    destruct Er as [o Er]. rewrite Er.
    intros E. injection E as <-. cbn [sem rlock counter callers].
    eapply live_update; [exact Hl | exact Hn | reflexivity
                        | unfold sync; simpl; auto 10 | | | ].
    + intros s _. unfold holds_sem, holds. cbn [prog c_pid]. lia.
    + intros q _. unfold owns_in, owns, upd. cbn [prog c_pid andb].
      rewrite (Nat.eqb_sym q). destruct (Nat.eqb p q) eqn:E.
      * apply Nat.eqb_eq in E. subst q. rewrite Er. reflexivity.
      * simpl. lia.
    + intros q o' d. unfold upd. cbn [c_pid c_tid].
      destruct (Nat.eqb q p); [discriminate |].
      apply (live_depth Hl).
  - (* ReleaseProcess *)
    intros E. injection E as <-. cbn [sem rlock counter callers].
    eapply live_update; [exact Hl | exact Hn | reflexivity
                        | unfold sync; simpl; auto 10 | | | ].
    + intros s Hle. unfold holds_sem, holds, upd in *.
      cbn [prog c_pid andb] in *.
      rewrite (Nat.eqb_sym s). destruct (Nat.eqb (cfg p) s) eqn:E.
      * apply Nat.eqb_eq in E. subst s. simpl in *.
        destruct (sem st (cfg p)); simpl in *; lia.
      * simpl. lia.
    + intros q _. unfold owns_in, owns. cbn [prog c_pid andb]. lia.
    + exact (live_depth Hl).
  - (* finished *)
    discriminate.
Qed.

(** What the callers still have to do. *)
Definition remaining (cs : list caller) : nat :=
  fold_right (fun c n => length (prog c) + n) 0 cs.

Lemma remaining_set_nth (cs : list caller) :
  forall i c ins rest,
    nth_error cs i = Some c -> prog c = ins :: rest ->
    S (remaining (set_nth i (mkCaller (c_pid c) (c_tid c) rest) cs))
    = remaining cs.
Proof.
  induction cs as [| a cs IH]; intros i c ins rest Hn Hp.
  - destruct i; discriminate.
  - destruct i as [| i]; simpl in *.
    + injection Hn as ->. rewrite Hp. simpl. lia.
    + rewrite <- (IH _ _ _ _ Hn Hp). lia.
Qed.

Lemma step_remaining (cfg : config) (i : nat) (st st' : state) :
  step cfg i st = Some st' ->
  S (remaining (callers st')) = remaining (callers st).
Proof.
  unfold step.
  destruct (nth_error (callers st) i) as [c |] eqn:Hn; [| discriminate].
  destruct (prog c) as [| ins rest] eqn:Hp; [discriminate |].
  assert (Hcs : forall st1, exec cfg c ins st = Some st1 ->
                            callers st1 = callers st).
  { destruct ins; simpl; intros st1;
      repeat match goal with
             | |- context [if ?b then _ else _] => destruct b
             | |- context [match rlock st ?p with _ => _ end] =>
                 destruct (rlock st p) as [[? [| [| ?]]] |]
             end;
      intros E; try discriminate; now injection E as <-. }
  destruct (exec cfg c ins st) as [st1 |] eqn:E; [| discriminate].
  intros H. injection H as <-. cbn [callers].
  rewrite (Hcs _ eq_refl). eapply remaining_set_nth; eassumption.
Qed.

(** A caller that holds the process lock can always go on. *)
Lemma holder_moves (cfg : config) (i : nat) (st : state) (c : caller) :
  live cfg st -> nth_error (callers st) i = Some c -> holds c = true ->
  exists st', step cfg i st = Some st'.
Proof.
  intros Hl Hn Hh. unfold step. rewrite Hn.
  unfold holds in Hh.
  destruct (prog c) as [| ins rest] eqn:Hp; [discriminate |].
  destruct ins; try discriminate; cbn [exec].
  - eexists. reflexivity.
  - rewrite (@thread_lock_free cfg st i c rest Hl Hn Hp). eexists.
    reflexivity.
  - destruct (rlock st (c_pid c)) as [[o [| [| d]]] |]; eexists; reflexivity.
  - eexists. reflexivity.
  - eexists. reflexivity.
Qed.

Lemma find_holder (cs : list caller) :
  (exists i c, nth_error cs i = Some c /\ holds c = true) \/
  Forall (fun c => holds c = false) cs.
Proof.
  induction cs as [| a cs IH]; [right; constructor |].
  destruct (holds a) eqn:E.
  - left. exists 0, a. auto.
  - destruct IH as [[i [c [H1 H2]]] | H].
    + left. exists (S i), c. auto.
    + right. now constructor.
Qed.

Lemma count_none (f : caller -> bool) (cs : list caller) :
  Forall (fun c => f c = false) cs -> count f cs = 0.
Proof.
  unfold count. induction 1 as [| c l H _ IH]; simpl; [reflexivity |].
  now rewrite H.
Qed.

(** As long as a caller has something left to do, some caller can move. *)
Lemma live_progress (cfg : config) (st : state) :
  live cfg st -> remaining (callers st) <> 0 ->
  exists i st', step cfg i st = Some st'.
Proof.
  intros Hl Hr.
  destruct (find_holder (callers st)) as [[i [c [Hn Hh]]] | Hnone].
  - exists i. eapply holder_moves; eassumption.
  - assert (Hfree : forall s, sem st s = false).
    { intros s. pose proof (live_sem Hl s) as H.
      rewrite count_none in H.
      - now destruct (sem st s).
      - eapply Forall_impl; [| exact Hnone].
        intros c Hc. unfold holds_sem. now rewrite Hc. }
    assert (Hw : exists i c, nth_error (callers st) i = Some c /\
                             prog c = acquire section).
    { pose proof (live_sync Hl) as Hs. clear Hl Hfree.
      induction (callers st) as [| a l IH]; [simpl in Hr; congruence |].
      inversion Hs as [| ? ? Ha Hs']; subst.
      inversion Hnone as [| ? ? Hh Hn']; subst.
      unfold sync in Ha. simpl in Ha. unfold holds in Hh.
      destruct Ha as [Ha | [Ha | [Ha | [Ha | [Ha | [Ha | [Ha | []]]]]]]];
        try (rewrite <- Ha in Hh; discriminate).
      - exists 0, a. split; [reflexivity | now symmetry].
      - destruct IH as [i [c [H1 H2]]]; try assumption.
        + simpl in Hr. rewrite <- Ha in Hr. simpl in Hr. exact Hr.
        + exists (S i), c. auto. }
    destruct Hw as [i [c [Hn Hp]]]. exists i.
    unfold step. rewrite Hn, Hp. cbn [acquire app exec].
    rewrite Hfree. eexists. reflexivity.
Qed.

Lemma live_completes (cfg : config) (n : nat) :
  forall st,
    live cfg st -> remaining (callers st) = n ->
    exists schedule st',
      run cfg schedule st = Some st' /\ remaining (callers st') = 0.
Proof.
  induction n as [| n IH]; intros st Hl Hr.
  - exists [], st. auto.
  - destruct (@live_progress cfg st Hl) as [i [st1 Hs]]; [lia |].
    pose proof (step_remaining _ _ _ Hs) as Hd.
    destruct (IH st1) as [schedule [st' [Hrun Hz]]].
    + eapply live_step; eassumption.
    + lia.
    + exists (i :: schedule), st'. simpl. rewrite Hs. auto.
Qed.

Lemma live_run (cfg : config) (schedule : list nat) :
  forall st st', live cfg st -> run cfg schedule st = Some st' -> live cfg st'.
Proof.
  induction schedule as [| i schedule IH]; intros st st' Hl; simpl.
  - now intros [= <-].
  - destruct (step cfg i st) as [st1 |] eqn:E; [| discriminate].
    apply IH. eapply live_step; eassumption.
Qed.

Lemma remaining_zero (cs : list caller) :
  remaining cs = 0 -> Forall (fun c => prog c = []) cs.
Proof.
  induction cs as [| c cs IH]; simpl; intros H; constructor.
  - destruct (prog c); [reflexivity | simpl in H; lia].
  - apply IH. lia.
Qed.

(** X2. Threads that call functions wrapped by [uilock] without nesting the calls
    never deadlock: from every reachable state some schedule lets every
    caller finish, and then the counter is back at 0.  This holds for any
    number of threads and processes and any assignment of process locks. *)
Theorem threads_never_deadlock :
  forall (cfg : config) (cs : list caller) (st : state),
    Forall (fun c => prog c = uilock false section) cs ->
    reachable cfg cs st ->
    exists schedule st',
      run cfg schedule st = Some st' /\
      Forall (fun c => prog c = []) (callers st') /\
      counter st' = 0.
Proof.
  intros cfg cs st Hcs [sched0 Hrun].
  assert (Hl : live cfg st).
  { eapply live_run; [| exact Hrun]. now apply live_init. }
  destruct (@live_completes cfg _ st Hl eq_refl) as [schedule [st' [R Z]]].
  exists schedule, st'. split; [exact R |].
  pose proof (remaining_zero _ Z) as Hdone.
  split; [exact Hdone |].
  (* the counter follows the callers in the section *)
  assert (Hc : forall sch s1 s2,
             counter s1 = count inside (callers s1) ->
             Forall sync (callers s1) -> live cfg s1 ->
             run cfg sch s1 = Some s2 ->
             counter s2 = count inside (callers s2)).
  { induction sch as [| i sch IH]; intros s1 s2 H1 H2 H3; simpl.
    - now intros [= <-].
    - destruct (step cfg i s1) as [s3 |] eqn:E; [| discriminate].
      apply IH.
      + clear IH. unfold step in E.
        destruct (nth_error (callers s1) i) as [c |] eqn:Hn;
          [| discriminate].
        pose proof (@Forall_nth_error _ _ i c H2 Hn) as Hp.
        pose proof (count_set_nth inside (callers s1) i
                      (mkCaller (c_pid c) (c_tid c) (tl (prog c))) Hn) as A.
        pose proof (count_ge inside (callers s1) i Hn) as B.
        unfold sync in Hp. simpl in Hp.
        destruct c as [p t pr]. cbn [prog c_pid c_tid] in *.
        destruct Hp as [Hp | [Hp | [Hp | [Hp | [Hp | [Hp | [Hp | []]]]]]]];
          subst pr; cbn [exec c_pid c_tid tl] in *;
          repeat match type of E with
                 | context [if ?b then _ else _] => destruct b
                 | context [match rlock s1 ?q with _ => _ end] =>
                     destruct (rlock s1 q) as [[? [| [| ?]]] |]
                 end;
          try discriminate; injection E as <-;
          cbn [counter callers]; unfold inside in *; cbn [prog] in *;
          simpl in *; lia.
      + exact (live_sync (@live_step cfg i s1 s3 H3 E)).
      + exact (@live_step cfg i s1 s3 H3 E). }
  assert (C0 : counter st' = count inside (callers st')).
  { apply (Hc (sched0 ++ schedule) (init cs) st').
    - simpl. apply eq_sym, count_none.
      eapply Forall_impl; [| exact Hcs]. intros c E. unfold inside.
      now rewrite E.
    - exact (live_sync (live_init cfg Hcs)).
    - now apply live_init.
    - clear - Hrun R. revert Hrun. generalize (init cs).
      induction sched0 as [| i s IH]; intros s0; simpl.
      + now intros [= ->].
      + destruct (step cfg i s0); [apply IH | discriminate]. }
  rewrite C0. apply count_none.
  eapply Forall_impl; [| exact Hdone]. intros c E. unfold inside.
  now rewrite E.
Qed.

Lemma threads_never_deadlock_witness :
  exists schedule st',
    run (fun _ => 0) schedule first_inside = Some st' /\
    Forall (fun c => prog c = []) (callers st') /\
    counter st' = 0.
Proof.
  apply (@threads_never_deadlock (fun _ => 0) two_threads first_inside).
  - repeat constructor.
  - exists [0; 0; 0]. reflexivity.
Defined.

End LockProgress.
